(** * mcp-mail-manager: the local encrypted credential vault

    A shallow embedding of [src/lib/crypto.ts] (key manager and field
    cipher), [src/lib/accounts.ts] (credential store), the account
    construction of [src/tools/add-account.ts] and the tools of
    [src/tools/remove-account.ts] and [src/tools/list-accounts.ts],
    followed by the properties of the vault.

    Conventions of the embedding.
    - A JavaScript string is a [string], one character for each UTF-16
      code unit, the code units being those below 256; [undefined] for an
      optional field is [None].
    - A Node [Buffer] is a [list byte].
    - The process environment, the two files under [~/.mcp-mail-manager],
      the random generator and the [console.error] stream form the
      [World]; every function of the source that touches one of them is a
      computation in the monad [M], in which a thrown exception keeps the
      side effects performed before it.
    - [scryptSync], AES-256-GCM and the base64 codec of [Buffer] belong to
      Node; they are the operations of the class [NodeCrypto], and what the
      proofs need of them is the class [NodeCryptoLaws]. *)

From Stdlib Require Import List String Ascii Bool Arith ZArith Lia.
From Stdlib Require Import Init.Byte Strings.Byte.
Import ListNotations.
Local Open Scope string_scope.
Local Open Scope list_scope.
Local Open Scope nat_scope.

(* ===================================================================== *)
(** * JavaScript string operations used by the source                    *)
(* ===================================================================== *)

Module JsString.

(** [s.startsWith(p)] *)
Fixpoint startsWith (p s : string) : bool :=
  match p with
  | EmptyString => true
  | String a p' =>
      match s with
      | EmptyString => false
      | String b s' => Ascii.eqb a b && startsWith p' s'
      end
  end.

(** [s.slice(n)] for [0 <= n] *)
Fixpoint slice (n : nat) (s : string) : string :=
  match n with
  | O => s
  | S n' => match s with
            | EmptyString => EmptyString
            | String _ s' => slice n' s'
            end
  end.

(** [s.split(sep)] for a one-character separator.  The result is never
    empty: the empty string splits into one empty part. *)
Fixpoint split (sep : ascii) (s : string) : list string :=
  match s with
  | EmptyString => [EmptyString]
  | String c s' =>
      if Ascii.eqb c sep then EmptyString :: split sep s'
      else match split sep s' with
           | [] => [String c EmptyString]
           | p :: ps => String c p :: ps
           end
  end.

(** The white space and line terminators removed by [trim], among the
    code units below 256: tab to carriage return, space, no-break space. *)
Definition is_space (c : ascii) : bool :=
  let n := nat_of_ascii c in
  (n =? 32) || ((9 <=? n) && (n <=? 13)) || (n =? 160).

Fixpoint trimStart (s : string) : string :=
  match s with
  | EmptyString => EmptyString
  | String c s' => if is_space c then trimStart s' else s
  end.

Fixpoint trimEnd (s : string) : string :=
  match s with
  | EmptyString => EmptyString
  | String c s' =>
      match trimEnd s' with
      | EmptyString => if is_space c then EmptyString
                       else String c EmptyString
      | t => String c t
      end
  end.

(** [s.trim()] *)
Definition trim (s : string) : string := trimEnd (trimStart s).

(** Truthiness of a string: [!s] holds of [undefined] and of [""]. *)
Definition truthy (s : string) : bool :=
  match s with EmptyString => false | _ => true end.

Definition forallb (p : ascii -> bool) : string -> bool :=
  fix go (s : string) : bool :=
    match s with
    | EmptyString => true
    | String c s' => p c && go s'
    end.

(** The capital letters below 256: A to Z, and U+00C0 to U+00DE but the
    multiplication sign. *)
Definition lower_char (c : ascii) : ascii :=
  let n := nat_of_ascii c in
  if ((65 <=? n) && (n <=? 90))
     || ((192 <=? n) && (n <=? 222) && negb (n =? 215))
  then ascii_of_nat (n + 32) else c.

(** [s.toLowerCase()] *)
Fixpoint toLowerCase (s : string) : string :=
  match s with
  | EmptyString => EmptyString
  | String c s' => String (lower_char c) (toLowerCase s')
  end.

Definition is_alnum (c : ascii) : bool :=
  let n := nat_of_ascii c in
  ((48 <=? n) && (n <=? 57)) || ((65 <=? n) && (n <=? 90))
  || ((97 <=? n) && (n <=? 122)).

(** [s.replace(/[^a-zA-Z0-9]/g, "-")] *)
Fixpoint replace_non_alnum (s : string) : string :=
  match s with
  | EmptyString => EmptyString
  | String c s' =>
      String (if is_alnum c then c else "-"%char) (replace_non_alnum s')
  end.

End JsString.

(* ===================================================================== *)
(** * Results, errors and the effect monad                               *)
(* ===================================================================== *)

(** The exceptions the vault can meet. *)
Inductive Error : Type :=
| KeyFileUnreadable      (* readFileSync(KEY_FILE) throws on an existing file *)
| InvalidLocalFormat     (* new Error("Invalid local encrypted format") *)
| DecipherFailure        (* thrown by createDecipheriv / setAuthTag / final *)
| UnknownFormat.         (* new Error("Unknown encryption format") *)

Inductive Result (A : Type) : Type :=
| Ok (a : A)
| Throw (e : Error).
Arguments Ok {A} a.
Arguments Throw {A} e.

(** A Node [Buffer]. *)
Definition Buffer : Type := list byte.

(* ===================================================================== *)
(** * Data model of [accounts.ts]                                        *)
(* ===================================================================== *)

Inductive EmailProvider : Type :=
| gmail | outlook | yahoo | icloud | protonmail | fastmail
| zoho | aol | gmx | mailru | yandex | custom.

Record ImapEndpoint : Type := {
  imap_host : string;
  imap_port : Z;
  imap_tls : bool
}.

Record SmtpEndpoint : Type := {
  smtp_host : string;
  smtp_port : Z;
  smtp_secure : bool
}.

Inductive AuthType : Type := auth_password | auth_oauth2 | auth_xoauth2.

(** [EmailAccount["auth"]]; the four optional secrets are the sensitive
    fields. *)
Record Auth : Type := {
  auth_type : AuthType;
  user : string;
  password : option string;
  accessToken : option string;
  refreshToken : option string;
  clientId : option string;
  clientSecret : option string;
  tokenExpiry : option Z
}.

Record Sync : Type := {
  folders : option (list string);
  maxAge : option Z
}.

(** [interface EmailAccount].  [imap] and [smtp] are optional here because
    [addAccount] is also reached with objects cast by [as any], and because
    the merge with a preset, a [Partial<EmailAccount>], is decided by which
    keys the object has. *)
Record EmailAccount : Type := {
  id : string;
  email : string;
  name : option string;
  provider : EmailProvider;
  enabled : bool;
  imap : option ImapEndpoint;
  smtp : option SmtpEndpoint;
  auth : Auth;
  sync : option Sync
}.

(** [const SENSITIVE_AUTH_FIELDS = ["password", "accessToken",
    "refreshToken", "clientSecret"]] *)
Inductive SensitiveField : Type :=
| f_password | f_accessToken | f_refreshToken | f_clientSecret.

Definition SENSITIVE_AUTH_FIELDS : list SensitiveField :=
  [f_password; f_accessToken; f_refreshToken; f_clientSecret].

Definition field_name (f : SensitiveField) : string :=
  match f with
  | f_password => "password"
  | f_accessToken => "accessToken"
  | f_refreshToken => "refreshToken"
  | f_clientSecret => "clientSecret"
  end.

(** [auth[field]] *)
Definition get_field (f : SensitiveField) (a : Auth) : option string :=
  match f with
  | f_password => password a
  | f_accessToken => accessToken a
  | f_refreshToken => refreshToken a
  | f_clientSecret => clientSecret a
  end.

(** [auth[field] = v] *)
Definition set_field (f : SensitiveField) (v : string) (a : Auth) : Auth :=
  {| auth_type := auth_type a;
     user := user a;
     password := match f with f_password => Some v | _ => password a end;
     accessToken :=
       match f with f_accessToken => Some v | _ => accessToken a end;
     refreshToken :=
       match f with f_refreshToken => Some v | _ => refreshToken a end;
     clientId := clientId a;
     clientSecret :=
       match f with f_clientSecret => Some v | _ => clientSecret a end;
     tokenExpiry := tokenExpiry a |}.

(** [{ ...account, auth: newAuth }] *)
Definition with_auth (account : EmailAccount) (newAuth : Auth) : EmailAccount :=
  {| id := id account;
     email := email account;
     name := name account;
     provider := provider account;
     enabled := enabled account;
     imap := imap account;
     smtp := smtp account;
     auth := newAuth;
     sync := sync account |}.

Definition SensitiveField_eq_dec (f g : SensitiveField) : {f = g} + {f <> g}.
Proof. decide equality. Defined.

(* ===================================================================== *)
(** * The world: environment, files, randomness, standard error          *)
(* ===================================================================== *)

(** [~/.mcp-mail-manager/.master-key] *)
Inductive KeyFile : Type :=
| KeyFileAbsent                          (* existsSync(KEY_FILE) is false *)
| KeyFileLocked                          (* exists, readFileSync throws *)
| KeyFileData (data : string) (mode : N).

(** [~/.mcp-mail-manager/accounts.json].  A file that exists and whose
    [JSON.parse(readFileSync(...))] throws is [AccountsCorrupt]; the three
    store functions put both calls under one [try].  A document that
    parses is an array of account objects, as the source types it. *)
Inductive AccountsFile : Type :=
| AccountsAbsent
| AccountsCorrupt
| AccountsDoc (doc : list EmailAccount).

(** The lines written by [console.error], with the values spliced into
    their templates. *)
Inductive LogLine : Type :=
| LogGeneratingKey      (* "[crypto] Generating new local master key..." *)
| LogKeySaved           (* "[crypto] Master key saved to ${KEY_FILE}" *)
| LogDecryptFailed (field : SensitiveField) (account_email : string)
      (* "[accounts] Failed to decrypt ${field} for ${account.email}",
         with [field_name field] for ${field} *)
| LogSaved (account_email : string)
      (* "[accounts] Saved account ${account.email} (credentials encrypted)" *)
| LogRemoved (account_id : string).
      (* "[accounts] Removed account ${id}" *)

Record World : Type := {
  env_MCP_MASTER_KEY : option string;   (* process.env.MCP_MASTER_KEY *)
  config_dir : bool;                    (* existsSync(CONFIG_DIR) *)
  key_file : KeyFile;
  accounts_file : AccountsFile;
  random_tape : nat -> byte;            (* the bytes randomBytes will return *)
  random_pos : nat;                     (* how many of them were consumed *)
  stderr : list LogLine                 (* oldest line first *)
}.

Definition set_config_dir (b : bool) (w : World) : World :=
  {| env_MCP_MASTER_KEY := env_MCP_MASTER_KEY w; config_dir := b;
     key_file := key_file w; accounts_file := accounts_file w;
     random_tape := random_tape w; random_pos := random_pos w;
     stderr := stderr w |}.

Definition set_key_file (k : KeyFile) (w : World) : World :=
  {| env_MCP_MASTER_KEY := env_MCP_MASTER_KEY w; config_dir := config_dir w;
     key_file := k; accounts_file := accounts_file w;
     random_tape := random_tape w; random_pos := random_pos w;
     stderr := stderr w |}.

Definition set_accounts_file (a : AccountsFile) (w : World) : World :=
  {| env_MCP_MASTER_KEY := env_MCP_MASTER_KEY w; config_dir := config_dir w;
     key_file := key_file w; accounts_file := a;
     random_tape := random_tape w; random_pos := random_pos w;
     stderr := stderr w |}.

Definition set_random_pos (n : nat) (w : World) : World :=
  {| env_MCP_MASTER_KEY := env_MCP_MASTER_KEY w; config_dir := config_dir w;
     key_file := key_file w; accounts_file := accounts_file w;
     random_tape := random_tape w; random_pos := n;
     stderr := stderr w |}.

Definition add_stderr (l : LogLine) (w : World) : World :=
  {| env_MCP_MASTER_KEY := env_MCP_MASTER_KEY w; config_dir := config_dir w;
     key_file := key_file w; accounts_file := accounts_file w;
     random_tape := random_tape w; random_pos := random_pos w;
     stderr := stderr w ++ [l] |}.

(** Computations: a result or an exception, and the world they leave. *)
Definition M (A : Type) : Type := World -> Result A * World.

Definition ret {A : Type} (a : A) : M A := fun w => (Ok a, w).

Definition throw {A : Type} (e : Error) : M A := fun w => (Throw e, w).

Definition bind {A B : Type} (m : M A) (k : A -> M B) : M B :=
  fun w =>
    match m w with
    | (Ok a, w') => k a w'
    | (Throw e, w') => (Throw e, w')
    end.

Declare Scope vault_scope.
Delimit Scope vault_scope with vault.
Notation "x <- m ;; k" := (bind m (fun x => k))
  (at level 61, m at next level, right associativity) : vault_scope.
Notation "m ;;; k" := (bind m (fun _ => k))
  (at level 61, right associativity) : vault_scope.
Local Open Scope vault_scope.

(** [console.error(line)] *)
Definition console_error (l : LogLine) : M unit :=
  fun w => (Ok tt, add_stderr l w).

(** [randomBytes(n)]: the next [n] bytes of the tape. *)
Definition randomBytes (n : nat) : M Buffer :=
  fun w =>
    (Ok (map (random_tape w) (seq (random_pos w) n)),
     set_random_pos (random_pos w + n) w).

(** [ensureConfigDir()] of both modules *)
Definition ensureConfigDir : M unit :=
  fun w => if config_dir w then (Ok tt, w) else (Ok tt, set_config_dir true w).

(* ===================================================================== *)
(** * [crypto.ts]: key manager and field cipher                          *)
(* ===================================================================== *)

(** What the source takes from Node's [crypto] and [Buffer]. *)
Class NodeCrypto : Type := {
  (** [scryptSync(secret, salt, keylen)] *)
  scryptSync : string -> string -> nat -> Buffer;
  (** [buf.toString("base64")] *)
  toBase64 : Buffer -> string;
  (** [Buffer.from(s, "base64")] *)
  fromBase64 : string -> Buffer;
  (** [createCipheriv("aes-256-gcm", key, iv)], [update(plaintext, "utf8")]
      and [final()]: the ciphertext; [getAuthTag()]: the tag. *)
  gcm_encrypt : Buffer -> Buffer -> string -> Buffer * Buffer;
  (** [createDecipheriv("aes-256-gcm", key, iv)], [setAuthTag(tag)],
      [update(ciphertext)] and [final("utf8")]: the plaintext, or [None]
      when one of the calls throws. *)
  gcm_decrypt : Buffer -> Buffer -> Buffer -> Buffer -> option string
}.

(** The characters of the base64 alphabet and its padding. *)
Definition is_base64_char (c : ascii) : bool :=
  JsString.is_alnum c || Ascii.eqb c "+" || Ascii.eqb c "/" || Ascii.eqb c "=".

Definition KEY_LENGTH : nat := 32.
Definition IV_LENGTH : nat := 16.

(** What the proofs use of Node: a derived key has the length asked for;
    with a key and a nonce of the lengths the source uses, decryption
    under the key, nonce and tag of an encryption gives the plaintext back
    (no string here has a lone surrogate, so UTF-8 decoding inverts
    encoding); base64 decoding inverts encoding; an encoding is written in the base64
    alphabet. *)
Class NodeCryptoLaws (C : NodeCrypto) : Prop := {
  scryptSync_length : forall secret salt keylen,
    List.length (scryptSync secret salt keylen) = keylen;
  gcm_decrypt_encrypt : forall key iv plaintext,
    List.length key = KEY_LENGTH -> List.length iv = IV_LENGTH ->
    gcm_decrypt key iv (snd (gcm_encrypt key iv plaintext))
                (fst (gcm_encrypt key iv plaintext)) = Some plaintext;
  fromBase64_toBase64 : forall b, fromBase64 (toBase64 b) = b;
  toBase64_alphabet : forall b,
    JsString.forallb is_base64_char (toBase64 b) = true
}.

Definition PREFIX_LOCAL : string := "enc:local:".
Definition SCRYPT_SALT : string := "mcp-mail-manager-salt-v1".
Definition MODE_0o600 : N := 384%N.

Definition process_env_MCP_MASTER_KEY : M (option string) :=
  fun w => (Ok (env_MCP_MASTER_KEY w), w).

Definition existsSync_KEY_FILE : M bool :=
  fun w => (Ok (match key_file w with KeyFileAbsent => false | _ => true end), w).

(** [readFileSync(KEY_FILE, "utf-8")] *)
Definition readFileSync_KEY_FILE : M string :=
  fun w =>
    match key_file w with
    | KeyFileData data _ => (Ok data, w)
    | _ => (Throw KeyFileUnreadable, w)
    end.

(** [writeFileSync(KEY_FILE, data, { mode })]: the mode is that of a file
    the call creates; an existing file keeps its own. *)
Definition writeFileSync_KEY_FILE (data : string) (mode : N) : M unit :=
  fun w =>
    match key_file w with
    | KeyFileData _ old => (Ok tt, set_key_file (KeyFileData data old) w)
    | _ => (Ok tt, set_key_file (KeyFileData data mode) w)
    end.

(** [chmodSync(KEY_FILE, mode)] *)
Definition chmodSync_KEY_FILE (mode : N) : M unit :=
  fun w =>
    match key_file w with
    | KeyFileData data _ => (Ok tt, set_key_file (KeyFileData data mode) w)
    | _ => (Throw KeyFileUnreadable, w)
    end.

(** [if (v)] on an optional string: the string when it is truthy. *)
Definition if_truthy (v : option string) : option string :=
  match v with
  | Some s => if JsString.truthy s then Some s else None
  | None => None
  end.

Section Crypto.

Context {C : NodeCrypto}.

Definition getLocalMasterKey : M Buffer :=
  env <- process_env_MCP_MASTER_KEY ;;
  match if_truthy env with
  | Some secret => ret (scryptSync secret SCRYPT_SALT KEY_LENGTH)
  | None =>
      present <- existsSync_KEY_FILE ;;
      if present then
        keyData <- readFileSync_KEY_FILE ;;
        ret (scryptSync (JsString.trim keyData) SCRYPT_SALT KEY_LENGTH)
      else
        console_error LogGeneratingKey ;;;
        bytes <- randomBytes 32 ;;
        let newKey := toBase64 bytes in
        ensureConfigDir ;;;
        writeFileSync_KEY_FILE newKey MODE_0o600 ;;;
        chmodSync_KEY_FILE MODE_0o600 ;;;
        console_error LogKeySaved ;;;
        ret (scryptSync newKey SCRYPT_SALT KEY_LENGTH)
  end.

Definition encryptLocal (plaintext : string) : M string :=
  key <- getLocalMasterKey ;;
  iv <- randomBytes IV_LENGTH ;;
  let (encrypted, authTag) := gcm_encrypt key iv plaintext in
  ret (PREFIX_LOCAL ++ toBase64 iv ++ ":" ++ toBase64 authTag ++ ":"
       ++ toBase64 encrypted)%string.

Definition decryptLocal (encrypted : string) : M string :=
  key <- getLocalMasterKey ;;
  let parts :=
    JsString.split ":" (JsString.slice (String.length PREFIX_LOCAL) encrypted) in
  match parts with
  | [p0; p1; p2] =>
      let iv := fromBase64 p0 in
      let authTag := fromBase64 p1 in
      match gcm_decrypt key iv authTag (fromBase64 p2) with
      | Some decrypted => ret decrypted
      | None => throw DecipherFailure
      end
  | _ => throw InvalidLocalFormat
  end.

(** [isEncrypted(value)] *)
Definition isEncrypted (value : string) : bool :=
  JsString.startsWith PREFIX_LOCAL value.

(** [encrypt(plaintext)] *)
Definition encrypt (plaintext : string) : M string :=
  if negb (JsString.truthy plaintext) || isEncrypted plaintext
  then ret plaintext
  else encryptLocal plaintext.

(** [decrypt(encrypted)] *)
Definition decrypt (encrypted : string) : M string :=
  if negb (JsString.truthy encrypted) || negb (isEncrypted encrypted)
  then ret encrypted
  else if JsString.startsWith PREFIX_LOCAL encrypted
       then decryptLocal encrypted
       else throw UnknownFormat.

End Crypto.

(* ===================================================================== *)
(** * [accounts.ts]: the credential store                                *)
(* ===================================================================== *)

(** An entry of [PROVIDER_PRESETS]: every preset has these three keys. *)
Record Preset : Type := {
  preset_provider : EmailProvider;
  preset_imap : ImapEndpoint;
  preset_smtp : SmtpEndpoint
}.

Definition mk_preset (p : EmailProvider) (ih : string) (ip : Z) (it : bool)
    (sh : string) (sp : Z) (ss : bool) : Preset :=
  {| preset_provider := p;
     preset_imap := {| imap_host := ih; imap_port := ip; imap_tls := it |};
     preset_smtp := {| smtp_host := sh; smtp_port := sp; smtp_secure := ss |} |}.

Definition PROVIDER_PRESETS (p : EmailProvider) : Preset :=
  match p with
  | gmail => mk_preset gmail "imap.gmail.com" 993 true "smtp.gmail.com" 587 false
  | outlook =>
      mk_preset outlook "outlook.office365.com" 993 true "smtp.office365.com" 587 false
  | yahoo =>
      mk_preset yahoo "imap.mail.yahoo.com" 993 true "smtp.mail.yahoo.com" 587 false
  | icloud => mk_preset icloud "imap.mail.me.com" 993 true "smtp.mail.me.com" 587 false
  | protonmail => mk_preset protonmail "127.0.0.1" 1143 false "127.0.0.1" 1025 false
  | fastmail =>
      mk_preset fastmail "imap.fastmail.com" 993 true "smtp.fastmail.com" 587 false
  | zoho => mk_preset zoho "imap.zoho.com" 993 true "smtp.zoho.com" 587 false
  | aol => mk_preset aol "imap.aol.com" 993 true "smtp.aol.com" 587 false
  | gmx => mk_preset gmx "imap.gmx.com" 993 true "mail.gmx.com" 587 false
  | mailru => mk_preset mailru "imap.mail.ru" 993 true "smtp.mail.ru" 587 false
  | yandex => mk_preset yandex "imap.yandex.com" 993 true "smtp.yandex.com" 587 false
  | custom => mk_preset custom "" 993 true "" 587 false
  end.

(** The table of [detectProvider]. *)
Definition domainMap : list (string * EmailProvider) :=
  [ ("gmail.com", gmail); ("googlemail.com", gmail);
    ("outlook.com", outlook); ("hotmail.com", outlook);
    ("live.com", outlook); ("msn.com", outlook);
    ("yahoo.com", yahoo); ("yahoo.fr", yahoo); ("yahoo.co.uk", yahoo);
    ("ymail.com", yahoo);
    ("icloud.com", icloud); ("me.com", icloud); ("mac.com", icloud);
    ("protonmail.com", protonmail); ("proton.me", protonmail);
    ("pm.me", protonmail);
    ("fastmail.com", fastmail); ("fastmail.fm", fastmail);
    ("zoho.com", zoho); ("aol.com", aol);
    ("gmx.com", gmx); ("gmx.fr", gmx); ("gmx.de", gmx);
    ("mail.ru", mailru); ("yandex.ru", yandex); ("yandex.com", yandex) ].

Fixpoint lookup_domain (d : string) (m : list (string * EmailProvider))
  : option EmailProvider :=
  match m with
  | [] => None
  | (k, p) :: m' => if String.eqb k d then Some p else lookup_domain d m'
  end.

(** The table is an object literal: besides its own keys it answers to
    the names of the members it inherits from [Object.prototype]. *)
Definition Object_prototype_keys : list string :=
  [ "constructor"; "__defineGetter__"; "__defineSetter__";
    "hasOwnProperty"; "__lookupGetter__"; "__lookupSetter__";
    "isPrototypeOf"; "propertyIsEnumerable"; "toString"; "valueOf";
    "__proto__"; "toLocaleString" ].

(** What [detectProvider] returns.  Its declared type is [EmailProvider];
    the value it returns for a domain that names an inherited member is
    that member, [Object.prototype[key]] read on the table: a function,
    or for [__proto__] the object [Object.prototype].  It is no provider,
    and it is neither [null] nor [undefined]. *)
Inductive Detected : Type :=
| DetectedProvider (p : EmailProvider)
| DetectedInherited (key : string).

(** [domainMap[domain]]: an own key first, then an inherited member;
    [None] is [undefined]. *)
Definition domainMap_get (domain : string) : option Detected :=
  match lookup_domain domain domainMap with
  | Some p => Some (DetectedProvider p)
  | None =>
      if existsb (String.eqb domain) Object_prototype_keys
      then Some (DetectedInherited domain)
      else None
  end.

(** [detectProvider(email)] *)
Definition detectProvider (email : string) : Detected :=
  match nth_error (JsString.split "@" email) 1 with
  | Some d =>
      let domain := JsString.toLowerCase d in
      if JsString.truthy domain then
        match domainMap_get domain with
        | Some v => v
        | None => DetectedProvider custom
        end
      else DetectedProvider custom
  | None => DetectedProvider custom
  end.

(** [{ ...preset, ...account }]: a key of [account] replaces the same key
    of [preset]; the preset shows only under a key [account] lacks. *)
Definition spread_preset (preset : Preset) (account : EmailAccount)
  : EmailAccount :=
  {| id := id account;
     email := email account;
     name := name account;
     provider := provider account;
     enabled := enabled account;
     imap := match imap account with
             | Some i => Some i
             | None => Some (preset_imap preset)
             end;
     smtp := match smtp account with
             | Some s => Some s
             | None => Some (preset_smtp preset)
             end;
     auth := auth account;
     sync := sync account |}.

(** [accounts.findIndex(a => a.id === id)] *)
Fixpoint findIndex (i : string) (l : list EmailAccount) : option nat :=
  match l with
  | [] => None
  | a :: l' =>
      if String.eqb (id a) i then Some 0
      else match findIndex i l' with
           | Some n => Some (S n)
           | None => None
           end
  end.

(** [accounts[n] = x] for an index [n] inside the array *)
Fixpoint set_nth (n : nat) (x : EmailAccount) (l : list EmailAccount)
  : list EmailAccount :=
  match l, n with
  | [], _ => []
  | _ :: l', O => x :: l'
  | a :: l', S n' => a :: set_nth n' x l'
  end.

Definition existsSync_ACCOUNTS_FILE : M bool :=
  fun w =>
    (Ok (match accounts_file w with AccountsAbsent => false | _ => true end), w).

(** [JSON.parse(readFileSync(ACCOUNTS_FILE, "utf-8"))]; [None] when one of
    the two calls throws. *)
Definition parse_ACCOUNTS_FILE : M (option (list EmailAccount)) :=
  fun w =>
    match accounts_file w with
    | AccountsDoc doc => (Ok (Some doc), w)
    | _ => (Ok None, w)
    end.

(** [writeFileSync(ACCOUNTS_FILE, JSON.stringify(doc, null, 2))] *)
Definition writeFileSync_ACCOUNTS_FILE (doc : list EmailAccount) : M unit :=
  fun w => (Ok tt, set_accounts_file (AccountsDoc doc) w).

(** One call of [decryptAccount] between two of its steps: the account,
    [decryptedAuth], the fields the loop has not reached, and the settled
    promise of [decrypt(value)] the call is awaiting, if it awaits. *)
Record Call : Type := {
  call_account : EmailAccount;
  call_auth : Auth;
  call_fields : list SensitiveField;
  call_awaiting : option (SensitiveField * Result string)
}.

(** [{ ...account, auth: decryptedAuth }] *)
Definition call_result (t : Call) : EmailAccount :=
  with_auth (call_account t) (call_auth t).

(** [f] on every element, first to last, through the world. *)
Fixpoint map_world {A B : Type} (f : A -> World -> B * World) (l : list A)
    (w : World) : list B * World :=
  match l with
  | [] => ([], w)
  | a :: l' =>
      let (b, w1) := f a w in
      let (bs, w2) := map_world f l' w1 in
      (b :: bs, w2)
  end.

Section Store.

Context {C : NodeCrypto}.

(** The loop of [decryptAccount] from [fields] on, up to its next [await]
    or to its end.  [decrypt(value)] runs to its result when it is called;
    the caller resumes later, with that result. *)
Fixpoint decryptAccount_loop (account : EmailAccount) (decryptedAuth : Auth)
    (fields : list SensitiveField) (w : World) : Call * World :=
  match fields with
  | [] =>
      ({| call_account := account; call_auth := decryptedAuth;
          call_fields := []; call_awaiting := None |}, w)
  | field :: rest =>
      match get_field field decryptedAuth with
      | Some value =>
          if JsString.truthy value && isEncrypted value then
            let (r, w') := decrypt value w in
            ({| call_account := account; call_auth := decryptedAuth;
                call_fields := rest; call_awaiting := Some (field, r) |}, w')
          else decryptAccount_loop account decryptedAuth rest w
      | None => decryptAccount_loop account decryptedAuth rest w
      end
  end.

(** The call [decryptAccount(account)], up to its first [await]. *)
Definition decryptAccount_start (account : EmailAccount) (w : World)
  : Call * World :=
  decryptAccount_loop account (auth account) SENSITIVE_AUTH_FIELDS w.

(** The continuation of an awaiting call: the assignment, or the [catch]
    and its [console.error]; then the loop again. *)
Definition decryptAccount_resume (t : Call) (w : World) : Call * World :=
  match call_awaiting t with
  | None => (t, w)
  | Some (field, Ok plaintext) =>
      decryptAccount_loop (call_account t)
        (set_field field plaintext (call_auth t)) (call_fields t) w
  | Some (field, Throw _) =>
      decryptAccount_loop (call_account t) (call_auth t) (call_fields t)
        (add_stderr (LogDecryptFailed field (email (call_account t))) w)
  end.

(** [n] turns of the job queue: in each, every awaiting call resumes, in
    the order of the array. *)
Fixpoint run_jobs (n : nat) (calls : list Call) (w : World)
  : list Call * World :=
  match n with
  | O => (calls, w)
  | S n' =>
      let (calls', w') := map_world decryptAccount_resume calls w in
      run_jobs n' calls' w'
  end.

(** [Promise.all(accounts.map(decryptAccount))].  [map] starts the calls
    one after the other, each running to its first [await]; the
    continuations then run in the order they were queued.  A call awaits
    once per sensitive field at most, so that many turns settle them all. *)
Definition Promise_all_decryptAccount (accounts : list EmailAccount)
  : M (list EmailAccount) :=
  fun w =>
    let (calls, w1) := map_world decryptAccount_start accounts w in
    let (calls', w2) := run_jobs (List.length SENSITIVE_AUTH_FIELDS) calls w1 in
    (Ok (map call_result calls'), w2).

Definition getAccounts : M (list EmailAccount) :=
  ensureConfigDir ;;;
  present <- existsSync_ACCOUNTS_FILE ;;
  if negb present then ret []
  else
    parsed <- parse_ACCOUNTS_FILE ;;
    match parsed with
    | Some accounts => Promise_all_decryptAccount accounts
    | None => ret []
    end.

Definition getAccount (i : string) : M (option EmailAccount) :=
  accounts <- getAccounts ;;
  ret (find (fun a => String.eqb (id a) i) accounts).

(** The loop of [encryptAccount]; its awaits follow one another. *)
Fixpoint encryptAccount_loop (encryptedAuth : Auth)
    (fields : list SensitiveField) : M Auth :=
  match fields with
  | [] => ret encryptedAuth
  | field :: rest =>
      match get_field field encryptedAuth with
      | Some value =>
          if JsString.truthy value && negb (isEncrypted value) then
            c <- encrypt value ;;
            encryptAccount_loop (set_field field c encryptedAuth) rest
          else encryptAccount_loop encryptedAuth rest
      | None => encryptAccount_loop encryptedAuth rest
      end
  end.

Definition encryptAccount (account : EmailAccount) : M EmailAccount :=
  encryptedAuth <- encryptAccount_loop (auth account) SENSITIVE_AUTH_FIELDS ;;
  ret (with_auth account encryptedAuth).

(** [provider] is one of the twelve keys of [PROVIDER_PRESETS], so the test
    [account.provider && PROVIDER_PRESETS[account.provider]] holds and the
    merge always runs. *)
Definition addAccount (account : EmailAccount) : M unit :=
  ensureConfigDir ;;;
  present <- existsSync_ACCOUNTS_FILE ;;
  parsed <- (if present then parse_ACCOUNTS_FILE else ret None) ;;
  let rawAccounts := match parsed with Some doc => doc | None => [] end in
  let account := spread_preset (PROVIDER_PRESETS (provider account)) account in
  encryptedAccount <- encryptAccount account ;;
  let rawAccounts :=
    match findIndex (id account) rawAccounts with
    | Some existingIndex => set_nth existingIndex encryptedAccount rawAccounts
    | None => rawAccounts ++ [encryptedAccount]
    end in
  writeFileSync_ACCOUNTS_FILE rawAccounts ;;;
  console_error (LogSaved (email account)).

Definition removeAccount (i : string) : M bool :=
  present <- existsSync_ACCOUNTS_FILE ;;
  if negb present then ret false
  else
    parsed <- parse_ACCOUNTS_FILE ;;
    match parsed with
    | None => ret false
    | Some rawAccounts =>
        let filtered :=
          filter (fun a => negb (String.eqb (id a) i)) rawAccounts in
        if List.length filtered =? List.length rawAccounts then ret false
        else
          writeFileSync_ACCOUNTS_FILE filtered ;;;
          console_error (LogRemoved i) ;;;
          ret true
    end.

End Store.

(* ===================================================================== *)
(** * [tools/add-account.ts]: the account the tool builds and stores     *)
(* ===================================================================== *)

(** The arguments of [add_email_account]. *)
Record AddAccountArgs : Type := {
  arg_email : string;
  arg_password : string;
  arg_name : option string;
  arg_provider : option EmailProvider;
  arg_imap_host : option string;
  arg_imap_port : option Z;
  arg_smtp_host : option string;
  arg_smtp_port : option Z;
  arg_test_connection : option bool
}.

(** [v || d] on an optional string *)
Definition or_string (v : option string) (d : string) : string :=
  match if_truthy v with Some s => s | None => d end.

(** [v || d] on an optional number: [0] is falsy. *)
Definition or_number (v : option Z) (d : Z) : Z :=
  match v with
  | Some n => if Z.eqb n 0 then d else n
  | None => d
  end.

(** [email.replace(/[^a-zA-Z0-9]/g, "-").toLowerCase()] *)
Definition account_id_of_email (email : string) : string :=
  JsString.toLowerCase (JsString.replace_non_alnum email).

(** [(args.provider as EmailProvider) || detectProvider(email)]: a
    provider given is a non-empty string, and a member detected is
    truthy. *)
Definition execute_provider (args : AddAccountArgs) : Detected :=
  match arg_provider args with
  | Some p => DetectedProvider p
  | None => detectProvider (arg_email args)
  end.

(** The object [execute] builds before it calls [addAccount].  When the
    value of [provider] is an inherited member the object is no
    [EmailAccount] (the source hands it over [as any]), and what the
    store does with it is outside this model: [None]. *)
Definition execute_account (args : AddAccountArgs) : option EmailAccount :=
  let email := arg_email args in
  match execute_provider args with
  | DetectedProvider provider =>
      Some
        {| id := account_id_of_email email;
           email := email;
           name := Some (or_string (arg_name args)
                           (hd EmptyString (JsString.split "@" email)));
           provider := provider;
           enabled := true;
           imap := Some {| imap_host := or_string (arg_imap_host args) "";
                           imap_port := or_number (arg_imap_port args) 993;
                           imap_tls := true |};
           smtp := Some {| smtp_host := or_string (arg_smtp_host args) "";
                           smtp_port := or_number (arg_smtp_port args) 587;
                           smtp_secure := false |};
           auth := {| auth_type := auth_password;
                      user := email;
                      password := Some (arg_password args);
                      accessToken := None;
                      refreshToken := None;
                      clientId := None;
                      clientSecret := None;
                      tokenExpiry := None |};
           sync := None |}
  | DetectedInherited _ => None
  end.

(** [execute] up to and including [await addAccount(account)], for an
    object that is an [EmailAccount]; the connection test that follows
    reads the accounts and does not write the document. *)
Definition execute_addAccount {C : NodeCrypto} (args : AddAccountArgs)
  : option (M unit) :=
  match execute_account args with
  | Some account => Some (addAccount account)
  | None => None
  end.

(* ===================================================================== *)
(** * Vocabulary of the properties                                       *)
(* ===================================================================== *)

(** The identifiers of a document, and how many records carry one. *)
Definition ids (doc : list EmailAccount) : list string := map id doc.


(** The document on disk; there is none when the file is absent or does
    not parse. *)
Definition document (w : World) : option (list EmailAccount) :=
  match accounts_file w with
  | AccountsDoc doc => Some doc
  | _ => None
  end.

(** A sensitive field is populated when it holds a non-empty string. *)
Definition populated (v : option string) : bool :=
  match v with
  | Some s => JsString.truthy s
  | None => false
  end.

(** From [w] to [w'] the accounts document and the environment are the
    same and standard error has only grown. *)
Definition evolves (w w' : World) : Prop :=
  accounts_file w' = accounts_file w /\
  env_MCP_MASTER_KEY w' = env_MCP_MASTER_KEY w /\
  exists more, stderr w' = stderr w ++ more.

Section Vocabulary.

Context {C : NodeCrypto}.

(** The key [getLocalMasterKey] resolves in [w]; [None] when it throws. *)
Definition effective_key (w : World) : option Buffer :=
  match if_truthy (env_MCP_MASTER_KEY w) with
  | Some secret => Some (scryptSync secret SCRYPT_SALT KEY_LENGTH)
  | None =>
      match key_file w with
      | KeyFileData data _ =>
          Some (scryptSync (JsString.trim data) SCRYPT_SALT KEY_LENGTH)
      | KeyFileLocked => None
      | KeyFileAbsent =>
          Some (scryptSync
                  (toBase64 (map (random_tape w) (seq (random_pos w) 32)))
                  SCRYPT_SALT KEY_LENGTH)
      end
  end.

(** The string [encryptLocal] builds under [key] and nonce [iv]. *)
Definition encrypt_with (key iv : Buffer) (plaintext : string) : string :=
  let (encrypted, authTag) := gcm_encrypt key iv plaintext in
  (PREFIX_LOCAL ++ toBase64 iv ++ ":" ++ toBase64 authTag ++ ":"
   ++ toBase64 encrypted)%string.

(** The result of [decrypt(value)] once the key is resolved. *)
Definition decrypt_with (key : option Buffer) (value : string) : Result string :=
  if negb (JsString.truthy value) || negb (isEncrypted value) then Ok value
  else
    match key with
    | None => Throw KeyFileUnreadable
    | Some k =>
        match JsString.split ":"
                (JsString.slice (String.length PREFIX_LOCAL) value) with
        | [p0; p1; p2] =>
            match gcm_decrypt k (fromBase64 p0) (fromBase64 p1)
                              (fromBase64 p2) with
            | Some decrypted => Ok decrypted
            | None => Throw DecipherFailure
            end
        | _ => Throw InvalidLocalFormat
        end
    end.

(** What a read leaves in a sensitive field that holds [v] on disk. *)
Definition read_value (key : option Buffer) (v : option string)
  : option string :=
  match v with
  | Some value =>
      if JsString.truthy value && isEncrypted value then
        match decrypt_with key value with
        | Ok plaintext => Some plaintext
        | Throw _ => Some value
        end
      else Some value
  | None => None
  end.

Definition read_auth (key : option Buffer) (a : Auth) : Auth :=
  {| auth_type := auth_type a;
     user := user a;
     password := read_value key (password a);
     accessToken := read_value key (accessToken a);
     refreshToken := read_value key (refreshToken a);
     clientId := clientId a;
     clientSecret := read_value key (clientSecret a);
     tokenExpiry := tokenExpiry a |}.

Definition read_account (key : option Buffer) (a : EmailAccount)
  : EmailAccount :=
  with_auth a (read_auth key (auth a)).

(** The steps of [decryptAccount] with the key resolved. *)
Fixpoint loop_with (key : option Buffer) (account : EmailAccount)
    (decryptedAuth : Auth) (fields : list SensitiveField) : Call :=
  match fields with
  | [] =>
      {| call_account := account; call_auth := decryptedAuth;
         call_fields := []; call_awaiting := None |}
  | field :: rest =>
      match get_field field decryptedAuth with
      | Some value =>
          if JsString.truthy value && isEncrypted value then
            {| call_account := account; call_auth := decryptedAuth;
               call_fields := rest;
               call_awaiting := Some (field, decrypt_with key value) |}
          else loop_with key account decryptedAuth rest
      | None => loop_with key account decryptedAuth rest
      end
  end.

Definition resume_with (key : option Buffer) (t : Call) : Call :=
  match call_awaiting t with
  | None => t
  | Some (field, Ok plaintext) =>
      loop_with key (call_account t)
        (set_field field plaintext (call_auth t)) (call_fields t)
  | Some (field, Throw _) =>
      loop_with key (call_account t) (call_auth t) (call_fields t)
  end.

(** The sensitive field [v'] a write stores for the field [v] it is
    given: the field itself when it is absent, empty or tagged, an
    encryption of it under [key], with some nonce, otherwise. *)
Definition sealed_value (key : Buffer) (v v' : option string) : Prop :=
  match v with
  | None => v' = None
  | Some s =>
      if JsString.truthy s && negb (isEncrypted s)
      then exists iv, List.length iv = IV_LENGTH /\
                      v' = Some (encrypt_with key iv s)
      else v' = Some s
  end.

(** [a'] is [a] with its sensitive fields sealed under [key]. *)
Definition sealed_account (key : Buffer) (a a' : EmailAccount) : Prop :=
  id a' = id a /\ email a' = email a /\ name a' = name a /\
  provider a' = provider a /\ enabled a' = enabled a /\
  imap a' = imap a /\ smtp a' = smtp a /\ sync a' = sync a /\
  auth_type (auth a') = auth_type (auth a) /\
  user (auth a') = user (auth a) /\
  clientId (auth a') = clientId (auth a) /\
  tokenExpiry (auth a') = tokenExpiry (auth a) /\
  forall f, sealed_value key (get_field f (auth a)) (get_field f (auth a')).

(** Every populated sensitive field of the record is tagged. *)
Definition sensitive_fields_encrypted (a : EmailAccount) : bool :=
  List.forallb
    (fun f => match get_field f (auth a) with
              | Some v => negb (JsString.truthy v) || isEncrypted v
              | None => true
              end)
    SENSITIVE_AUTH_FIELDS.

(** The invariant of the document on disk. *)
Definition disk_invariant (w : World) : bool :=
  match accounts_file w with
  | AccountsDoc doc => List.forallb sensitive_fields_encrypted doc
  | _ => true
  end.

End Vocabulary.

(** The array the two writers start from: the document, or the empty
    array when there is none. *)
Definition raw_document (w : World) : list EmailAccount :=
  match accounts_file w with
  | AccountsDoc doc => doc
  | _ => []
  end.

(** Replace the first record with the identifier [i] by [x], or append
    [x] when there is none. *)
Definition upsert (i : string) (x : EmailAccount) (doc : list EmailAccount)
  : list EmailAccount :=
  match findIndex i doc with
  | Some existingIndex => set_nth existingIndex x doc
  | None => doc ++ [x]
  end.

(** The account [addAccount] encrypts: the caller's, over the preset of
    its provider. *)
Definition with_preset (account : EmailAccount) : EmailAccount :=
  spread_preset (PROVIDER_PRESETS (provider account)) account.

Arguments isEncrypted : simpl never.
Arguments sensitive_fields_encrypted : simpl never.

(** The identifiers of a document are pairwise distinct. *)
Definition unique_ids (doc : list EmailAccount) : Prop := NoDup (ids doc).

(* ===================================================================== *)
(** * [tools/remove-account.ts] and [tools/list-accounts.ts]             *)
(* ===================================================================== *)

(** The object [remove_email_account] answers with; a key the source
    leaves out of the object is [None]. *)
Record ToolResult : Type := {
  tool_success : bool;
  tool_error : option string;
  tool_message : option string
}.

(** The arguments of [remove_email_account]; [confirm] may be missing. *)
Record RemoveAccountArgs : Type := {
  arg_account_id : string;
  arg_confirm : option bool
}.

(** An element of the array [list_email_accounts] answers with. *)
Record AccountSummary : Type := {
  summary_id : string;
  summary_email : string;
  summary_provider : EmailProvider;
  summary_enabled : bool
}.

Section Tools.

Context {C : NodeCrypto}.

(** [execute] of [tools/remove-account.ts] *)
Definition remove_account_execute (args : RemoveAccountArgs) : M ToolResult :=
  let accountId := arg_account_id args in
  let confirm := match arg_confirm args with Some b => b | None => false end in
  if negb confirm then
    ret {| tool_success := false;
           tool_error :=
             Some "Deletion not confirmed. Set confirm=true to proceed.";
           tool_message := None |}
  else
    account <- getAccount accountId ;;
    match account with
    | None =>
        ret {| tool_success := false;
               tool_error := Some ("Account not found: " ++ accountId)%string;
               tool_message := None |}
    | Some account =>
        removed <- removeAccount accountId ;;
        if negb removed then
          ret {| tool_success := false;
                 tool_error := Some "Failed to remove account";
                 tool_message := None |}
        else
          ret {| tool_success := true;
                 tool_error := None;
                 tool_message :=
                   Some ("Account removed: " ++ email account)%string |}
    end.

(** [execute] of [tools/list-accounts.ts] *)
Definition list_accounts_execute : M (list AccountSummary) :=
  accounts <- getAccounts ;;
  ret (map (fun a => {| summary_id := id a;
                        summary_email := email a;
                        summary_provider := provider a;
                        summary_enabled := enabled a |}) accounts).

End Tools.

(* ===================================================================== *)
(** * Vocabulary of the further properties                               *)
(* ===================================================================== *)

(** How many times the character [c] occurs in [s]. *)
Fixpoint count_char (c : ascii) (s : string) : nat :=
  match s with
  | EmptyString => 0
  | String a s' => (if Ascii.eqb a c then 1 else 0) + count_char c s'
  end.

(** The nonce [decryptLocal] reads in a tagged value: the first of the
    parts that follow the tag. *)
Definition nonce_of {C : NodeCrypto} (value : string) : Buffer :=
  fromBase64
    (hd EmptyString
       (JsString.split ":"
          (JsString.slice (String.length PREFIX_LOCAL) value))).

(** A sensitive field that [encryptAccount] has to encrypt: populated and
    not tagged. *)
Definition is_plaintext {C : NodeCrypto} (v : option string) : bool :=
  match v with
  | Some s => JsString.truthy s && negb (isEncrypted s)
  | None => false
  end.

(** A sensitive field that [decryptAccount] has to decrypt: populated and
    tagged. *)
Definition is_ciphertext {C : NodeCrypto} (v : option string) : bool :=
  match v with
  | Some s => JsString.truthy s && isEncrypted s
  | None => false
  end.

Definition has_plaintext {C : NodeCrypto} (a : EmailAccount) : bool :=
  existsb (fun f => is_plaintext (get_field f (auth a))) SENSITIVE_AUTH_FIELDS.

Definition has_ciphertext {C : NodeCrypto} (a : EmailAccount) : bool :=
  existsb (fun f => is_ciphertext (get_field f (auth a))) SENSITIVE_AUTH_FIELDS.

(** The first record of a document with the identifier [i]. *)
Definition lookup (i : string) (doc : list EmailAccount)
  : option EmailAccount :=
  find (fun a => String.eqb (id a) i) doc.

(** What [list_email_accounts] shows of a record. *)
Definition summary (a : EmailAccount) : AccountSummary :=
  {| summary_id := id a;
     summary_email := email a;
     summary_provider := provider a;
     summary_enabled := enabled a |}.

(** From [w] to [w'] the secrets of the vault are kept: the environment
    and the random tape are the same, no random byte is handed out again,
    and a key file that exists, or that the environment makes useless, is
    as it was. *)
Definition secrets_kept (w w' : World) : Prop :=
  env_MCP_MASTER_KEY w' = env_MCP_MASTER_KEY w /\
  random_tape w' = random_tape w /\
  random_pos w <= random_pos w' /\
  (key_file w <> KeyFileAbsent -> key_file w' = key_file w) /\
  (if_truthy (env_MCP_MASTER_KEY w) <> None -> key_file w' = key_file w).

(** A call of one of the four functions [accounts.ts] exports to the
    tools, and a sequence of such calls. *)
Inductive StoreCall : Type :=
| CallGetAccounts
| CallGetAccount (i : string)
| CallAddAccount (account : EmailAccount)
| CallRemoveAccount (i : string).

Definition run_call {C : NodeCrypto} (c : StoreCall) (w : World) : World :=
  match c with
  | CallGetAccounts => snd (getAccounts w)
  | CallGetAccount i => snd (getAccount i w)
  | CallAddAccount account => snd (addAccount account w)
  | CallRemoveAccount i => snd (removeAccount i w)
  end.

Fixpoint run_calls {C : NodeCrypto} (cs : list StoreCall) (w : World) : World :=
  match cs with
  | [] => w
  | c :: cs' => run_calls cs' (run_call c w)
  end.

(** The characters of an account identifier: digits, small letters and
    the hyphen. *)
Definition is_id_char (c : ascii) : bool :=
  let n := nat_of_ascii c in
  ((48 <=? n) && (n <=? 57)) || ((97 <=? n) && (n <=? 122))
  || Ascii.eqb c "-".

(** What a character of the address becomes in the identifier. *)
Definition id_char (c : ascii) : ascii :=
  JsString.lower_char (if JsString.is_alnum c then c else "-"%char).

(* ===================================================================== *)
(** * A small instance of Node, to run the vault on concrete inputs      *)
(* ===================================================================== *)

Module TestNode.

Definition hex_digit (n : nat) : ascii :=
  if n <? 10 then ascii_of_nat (48 + n) else ascii_of_nat (87 + n).

Definition hex_value (c : ascii) : nat :=
  let n := nat_of_ascii c in
  if n <? 58 then n - 48 else n - 87.

(** Two hexadecimal digits per byte stand in for base64. *)
Fixpoint encode (b : Buffer) : string :=
  match b with
  | [] => EmptyString
  | x :: b' =>
      let n := nat_of_ascii (ascii_of_byte x) in
      String (hex_digit (n / 16)) (String (hex_digit (n mod 16)) (encode b'))
  end.

Fixpoint decode (s : string) : Buffer :=
  match s with
  | String h (String l s') =>
      byte_of_ascii (ascii_of_nat (16 * hex_value h + hex_value l)) :: decode s'
  | _ => []
  end.

Fixpoint buffer_eqb (a b : Buffer) : bool :=
  match a, b with
  | [], [] => true
  | x :: a', y :: b' => Byte.eqb x y && buffer_eqb a' b'
  | _, _ => false
  end.

(** The key is the first [len] bytes of secret and salt, padded. *)
Definition derive (secret salt : string) (len : nat) : Buffer :=
  firstn len (list_byte_of_string (secret ++ salt)%string ++ repeat x00 len).

(** The ciphertext is the plaintext; the tag is the start of the key. *)
Definition seal (key iv : Buffer) (plaintext : string) : Buffer * Buffer :=
  (list_byte_of_string plaintext, firstn 16 key).

Definition open (key iv tag ciphertext : Buffer) : option string :=
  if buffer_eqb tag (firstn 16 key)
  then Some (string_of_list_byte ciphertext)
  else None.

#[export] Instance node : NodeCrypto := {
  scryptSync := derive;
  toBase64 := encode;
  fromBase64 := decode;
  gcm_encrypt := seal;
  gcm_decrypt := open
}.

(** A machine: the variable, the key file and the accounts file. *)
Definition machine (env : option string) (k : KeyFile) (a : AccountsFile)
  : World :=
  {| env_MCP_MASTER_KEY := env;
     config_dir := true;
     key_file := k;
     accounts_file := a;
     random_tape := fun n => byte_of_ascii (ascii_of_nat n);
     random_pos := 0;
     stderr := [] |}.

(** A machine with nothing on it: no variable, no directory, no file. *)
Definition fresh_world : World :=
  {| env_MCP_MASTER_KEY := None;
     config_dir := false;
     key_file := KeyFileAbsent;
     accounts_file := AccountsAbsent;
     random_tape := fun n => byte_of_ascii (ascii_of_nat n);
     random_pos := 0;
     stderr := [] |}.

(** The fresh machine with [MCP_MASTER_KEY] set. *)
Definition env_world (secret : string) : World :=
  {| env_MCP_MASTER_KEY := Some secret;
     config_dir := false;
     key_file := KeyFileAbsent;
     accounts_file := AccountsAbsent;
     random_tape := fun n => byte_of_ascii (ascii_of_nat n);
     random_pos := 0;
     stderr := [] |}.

(** A machine whose key file exists and cannot be read. *)
Definition locked_world (env : option string) : World :=
  machine env KeyFileLocked AccountsAbsent.

(** A machine with [MCP_MASTER_KEY=k] and a document on disk. *)
Definition stored_world (doc : list EmailAccount) : World :=
  machine (Some "k") KeyFileAbsent (AccountsDoc doc).

(** The value of a computation that returned one. *)
Definition fst_of {A : Type} (r : Result Buffer * A) : Buffer :=
  match fst r with
  | Ok key => key
  | Throw _ => []
  end.

(** The key of [MCP_MASTER_KEY=k]. *)
Definition key_k : Buffer := derive "k" SCRYPT_SALT KEY_LENGTH.

(** The token ["tok"] encrypted under that key with a zero nonce. *)
Definition sealed_tok : string := encrypt_with key_k (repeat x00 16) "tok".

(** A password account of the custom provider. *)
Definition account (i e : string) (pw tok : option string) : EmailAccount :=
  {| id := i;
     email := e;
     name := None;
     provider := custom;
     enabled := true;
     imap := Some {| imap_host := "mail.b.com"; imap_port := 993;
                     imap_tls := true |};
     smtp := Some {| smtp_host := "mail.b.com"; smtp_port := 587;
                     smtp_secure := false |};
     auth := {| auth_type := auth_password;
                user := e;
                password := pw;
                accessToken := tok;
                refreshToken := None;
                clientId := None;
                clientSecret := None;
                tokenExpiry := None |};
     sync := None |}.

(** The account [a@b.com] with the password ["Secret1"], and with the
    password ["Secret2"]. *)
Definition secret1_account : EmailAccount :=
  account "a-b-com" "a@b.com" (Some "Secret1") None.

Definition secret2_account : EmailAccount :=
  account "a-b-com" "a@b.com" (Some "Secret2") None.

(** A stored record with a well-formed encrypted access token. *)
Definition token_account : EmailAccount :=
  account "a-b-com" "a@b.com" None (Some sealed_tok).

(** A stored record whose password is not a well-formed encrypted value
    and whose access token is. *)
Definition broken_account : EmailAccount :=
  account "a-b-com" "a@b.com" (Some "enc:local:corrupt") (Some sealed_tok).

(** A stored record whose password has a wrong authentication tag. *)
Definition tampered_account : EmailAccount :=
  account "a-b-com" "a@b.com" (Some "enc:local:00:ff:746f6b") None.

(** The arguments of the call
    [add_email_account email="user@gmail.com" password="pw"]. *)
Definition gmail_args : AddAccountArgs :=
  {| arg_email := "user@gmail.com";
     arg_password := "pw";
     arg_name := None;
     arg_provider := None;
     arg_imap_host := None;
     arg_imap_port := None;
     arg_smtp_host := None;
     arg_smtp_port := None;
     arg_test_connection := None |}.

End TestNode.

(* ===================================================================== *)
(** * Properties                                                         *)
(* ===================================================================== *)

(** Split a goal into its conjuncts. *)
Ltac conjs := repeat match goal with |- _ /\ _ => split end.

(** ** Strings *)

Module JsStringFacts.
Import JsString.

Lemma startsWith_app (p s : string) : startsWith p (p ++ s)%string = true.
Proof.
  induction p as [|a p IH]; simpl; [reflexivity|].
  now rewrite Ascii.eqb_refl, IH.
Qed.

Lemma slice_app (p s : string) : slice (String.length p) (p ++ s)%string = s.
Proof. induction p as [|a p IH]; simpl; auto. Qed.

(** A part without separator, followed by a separator, is the first part. *)
Lemma split_app (sep : ascii) (a b : string) :
  forallb (fun c => negb (Ascii.eqb c sep)) a = true ->
  split sep (a ++ String sep b)%string = a :: split sep b.
Proof.
  induction a as [|c a IH]; simpl; intros H.
  - now rewrite Ascii.eqb_refl.
  - apply andb_true_iff in H as [Hc Ha].
    apply negb_true_iff in Hc. rewrite Hc, (IH Ha). reflexivity.
Qed.

Lemma split_none (sep : ascii) (a : string) :
  forallb (fun c => negb (Ascii.eqb c sep)) a = true ->
  split sep a = [a].
Proof.
  induction a as [|c a IH]; simpl; intros H; [reflexivity|].
  apply andb_true_iff in H as [Hc Ha].
  apply negb_true_iff in Hc. rewrite Hc, (IH Ha). reflexivity.
Qed.

Lemma forallb_impl (p q : ascii -> bool) (s : string) :
  (forall c, p c = true -> q c = true) ->
  forallb p s = true -> forallb q s = true.
Proof.
  intros Hpq. induction s as [|c s IH]; simpl; [reflexivity|].
  intros H. apply andb_true_iff in H as [Hc Hs].
  now rewrite (Hpq _ Hc), (IH Hs).
Qed.

Lemma trimStart_id (s : string) :
  forallb (fun c => negb (is_space c)) s = true -> trimStart s = s.
Proof.
  destruct s as [|c s]; simpl; [reflexivity|].
  intros H. apply andb_true_iff in H as [Hc _].
  apply negb_true_iff in Hc. now rewrite Hc.
Qed.

Lemma trimEnd_id (s : string) :
  forallb (fun c => negb (is_space c)) s = true -> trimEnd s = s.
Proof.
  induction s as [|c s IH]; simpl; [reflexivity|].
  intros H. apply andb_true_iff in H as [Hc Hs].
  apply negb_true_iff in Hc. rewrite (IH Hs), Hc.
  destruct s; reflexivity.
Qed.

Lemma trim_id (s : string) :
  forallb (fun c => negb (is_space c)) s = true -> trim s = s.
Proof.
  intros H. unfold trim. rewrite (trimStart_id _ H). now apply trimEnd_id.
Qed.

End JsStringFacts.

Lemma base64_char_not_colon (c : ascii) :
  is_base64_char c = true -> negb (Ascii.eqb c ":") = true.
Proof.
  destruct c as [[] [] [] [] [] [] [] []]; vm_compute; congruence.
Qed.

Lemma base64_char_not_space (c : ascii) :
  is_base64_char c = true -> negb (JsString.is_space c) = true.
Proof.
  destruct c as [[] [] [] [] [] [] [] []]; vm_compute; congruence.
Qed.

(** ** The world relation *)

Lemma evolves_refl (w : World) : evolves w w.
Proof. repeat split. exists []. now rewrite app_nil_r. Qed.

Lemma evolves_trans (w1 w2 w3 : World) :
  evolves w1 w2 -> evolves w2 w3 -> evolves w1 w3.
Proof.
  intros (Ha & He & m & Hm) (Ha' & He' & m' & Hm').
  repeat split; try congruence.
  exists (m ++ m'). now rewrite Hm', Hm, app_assoc.
Qed.

Lemma evolves_add_stderr (l : LogLine) (w : World) : evolves w (add_stderr l w).
Proof. repeat split. now exists [l]. Qed.

Lemma evolves_In (w w' : World) (l : LogLine) :
  evolves w w' -> In l (stderr w) -> In l (stderr w').
Proof.
  intros (_ & _ & m & Hm) H. rewrite Hm. apply in_or_app. now left.
Qed.

(** ** Key manager *)

Section KeyManager.

Context {C : NodeCrypto}.

Lemma getLocalMasterKey_env (w : World) (secret : string) :
  if_truthy (env_MCP_MASTER_KEY w) = Some secret ->
  getLocalMasterKey w = (Ok (scryptSync secret SCRYPT_SALT KEY_LENGTH), w).
Proof.
  intros H. unfold getLocalMasterKey, bind, process_env_MCP_MASTER_KEY.
  now rewrite H.
Qed.

Lemma getLocalMasterKey_file (w : World) (data : string) (mode : N) :
  if_truthy (env_MCP_MASTER_KEY w) = None ->
  key_file w = KeyFileData data mode ->
  getLocalMasterKey w
  = (Ok (scryptSync (JsString.trim data) SCRYPT_SALT KEY_LENGTH), w).
Proof.
  intros He Hk.
  unfold getLocalMasterKey, bind, process_env_MCP_MASTER_KEY,
    existsSync_KEY_FILE, readFileSync_KEY_FILE.
  rewrite He; cbn; rewrite Hk; cbn; rewrite Hk; reflexivity.
Qed.

Lemma getLocalMasterKey_locked (w : World) :
  if_truthy (env_MCP_MASTER_KEY w) = None ->
  key_file w = KeyFileLocked ->
  getLocalMasterKey w = (Throw KeyFileUnreadable, w).
Proof.
  intros He Hk.
  unfold getLocalMasterKey, bind, process_env_MCP_MASTER_KEY,
    existsSync_KEY_FILE, readFileSync_KEY_FILE.
  rewrite He; cbn; rewrite Hk; cbn; rewrite Hk; reflexivity.
Qed.

Lemma getLocalMasterKey_absent (w : World) :
  if_truthy (env_MCP_MASTER_KEY w) = None ->
  key_file w = KeyFileAbsent ->
  let bytes := map (random_tape w) (seq (random_pos w) 32) in
  exists w',
    getLocalMasterKey w
    = (Ok (scryptSync (toBase64 bytes) SCRYPT_SALT KEY_LENGTH), w') /\
    key_file w' = KeyFileData (toBase64 bytes) MODE_0o600 /\
    config_dir w' = true /\
    random_pos w' = random_pos w + 32 /\
    random_tape w' = random_tape w /\
    stderr w' = stderr w ++ [LogGeneratingKey; LogKeySaved] /\
    accounts_file w' = accounts_file w /\
    env_MCP_MASTER_KEY w' = env_MCP_MASTER_KEY w.
Proof.
  intros He Hk bytes.
  unfold getLocalMasterKey, bind, process_env_MCP_MASTER_KEY,
    existsSync_KEY_FILE, console_error, randomBytes, ensureConfigDir,
    writeFileSync_KEY_FILE, chmodSync_KEY_FILE, ret.
  rewrite He, Hk. cbn.
  destruct (config_dir w) eqn:Hd; cbn; rewrite ?Hk; cbn;
    eexists; (split; [reflexivity|]); cbn; rewrite ?Hd, <- ?app_assoc;
    repeat split; reflexivity.
Qed.

End KeyManager.

(** ** Field cipher *)

Section Cipher.

Context {C : NodeCrypto} {L : NodeCryptoLaws C}.

Lemma toBase64_no_colon (b : Buffer) :
  JsString.forallb (fun c => negb (Ascii.eqb c ":")) (toBase64 b) = true.
Proof.
  eapply JsStringFacts.forallb_impl; [|apply toBase64_alphabet].
  exact base64_char_not_colon.
Qed.

Lemma toBase64_trim (b : Buffer) : JsString.trim (toBase64 b) = toBase64 b.
Proof.
  apply JsStringFacts.trim_id.
  eapply JsStringFacts.forallb_impl; [|apply toBase64_alphabet].
  exact base64_char_not_space.
Qed.

Lemma effective_key_length (w : World) (k : Buffer) :
  effective_key w = Some k -> List.length k = KEY_LENGTH.
Proof.
  unfold effective_key.
  destruct (if_truthy (env_MCP_MASTER_KEY w));
    [|destruct (key_file w)]; intros [= <-]; apply scryptSync_length.
Qed.

(** Key resolution returns the effective key, and from then on the key is
    the same, whatever is drawn from the random generator. *)
Lemma getLocalMasterKey_run (w : World) :
  exists w',
    getLocalMasterKey w
    = (match effective_key w with
       | Some k => Ok k
       | None => Throw KeyFileUnreadable
       end, w') /\
    effective_key w' = effective_key w /\
    (forall n, effective_key (set_random_pos n w') = effective_key w) /\
    evolves w w'.
Proof.
  unfold effective_key.
  destruct (if_truthy (env_MCP_MASTER_KEY w)) as [secret|] eqn:He.
  - exists w. rewrite (getLocalMasterKey_env _ _ He). cbn. rewrite He.
    conjs; auto using evolves_refl.
  - destruct (key_file w) as [| |data mode] eqn:Hk.
    + destruct (getLocalMasterKey_absent w He Hk)
        as (w' & Hrun & Hk' & _ & _ & _ & Hlog & Ha & Henv).
      exists w'. rewrite Hrun. cbn. rewrite Henv, He, Hk', toBase64_trim.
      conjs; auto. unfold evolves. conjs; auto.
      eexists; exact Hlog.
    + exists w. rewrite (getLocalMasterKey_locked _ He Hk). cbn.
      rewrite He, Hk. conjs; auto using evolves_refl.
    + exists w. rewrite (getLocalMasterKey_file _ _ _ He Hk). cbn.
      rewrite He, Hk. conjs; auto using evolves_refl.
Qed.

(** The key is resolved to [k] exactly when [k] is the effective key. *)
Lemma getLocalMasterKey_resolves (w : World) (k : Buffer) :
  fst (getLocalMasterKey w) = Ok k <-> effective_key w = Some k.
Proof.
  destruct (getLocalMasterKey_run w) as (w' & Hrun & _).
  rewrite Hrun. cbn [fst].
  destruct (effective_key w) as [k'|]; split; intros H;
    try discriminate; now injection H as ->.
Qed.

Lemma evolves_set_random_pos (n : nat) (w : World) :
  evolves w (set_random_pos n w).
Proof. repeat split. exists []. cbn. now rewrite app_nil_r. Qed.

Lemma isEncrypted_encrypt_with (key iv : Buffer) (s : string) :
  isEncrypted (encrypt_with key iv s) = true.
Proof.
  unfold encrypt_with, isEncrypted. destruct (gcm_encrypt key iv s).
  apply JsStringFacts.startsWith_app.
Qed.

Lemma truthy_encrypt_with (key iv : Buffer) (s : string) :
  JsString.truthy (encrypt_with key iv s) = true.
Proof. unfold encrypt_with. now destruct (gcm_encrypt key iv s). Qed.

(** Decryption under the key of the encryption gives the plaintext. *)
Lemma decrypt_with_encrypt_with (key iv : Buffer) (s : string) :
  List.length key = KEY_LENGTH -> List.length iv = IV_LENGTH ->
  decrypt_with (Some key) (encrypt_with key iv s) = Ok s.
Proof.
  intros Hkey Hiv. unfold decrypt_with.
  rewrite truthy_encrypt_with, isEncrypted_encrypt_with. cbn [negb orb].
  unfold encrypt_with.
  pose proof (gcm_decrypt_encrypt key iv s Hkey Hiv) as Hgcm.
  destruct (gcm_encrypt key iv s) as [ct tag]. cbn [fst snd] in Hgcm.
  rewrite JsStringFacts.slice_app.
  cbn [String.append].
  rewrite (JsStringFacts.split_app _ _ _ (toBase64_no_colon iv)).
  rewrite (JsStringFacts.split_app _ _ _ (toBase64_no_colon tag)).
  rewrite (JsStringFacts.split_none _ _ (toBase64_no_colon ct)).
  now rewrite !fromBase64_toBase64, Hgcm.
Qed.

(** [decrypt] computes [decrypt_with] of the effective key. *)
Lemma decrypt_run (v : string) (w : World) :
  exists w',
    decrypt v w = (decrypt_with (effective_key w) v, w') /\
    effective_key w' = effective_key w /\
    evolves w w'.
Proof.
  unfold decrypt, decrypt_with.
  destruct (negb (JsString.truthy v) || negb (isEncrypted v)) eqn:Hg.
  - exists w. conjs; auto using evolves_refl.
  - apply orb_false_iff in Hg as [_ Hv]. apply negb_false_iff in Hv.
    unfold isEncrypted in Hv. rewrite Hv.
    destruct (getLocalMasterKey_run w) as (w' & Hrun & Hkey & _ & Hev).
    exists w'. unfold decryptLocal, bind. rewrite Hrun.
    destruct (effective_key w) as [k|]; [|now conjs].
    conjs; auto.
    destruct (JsString.split _ _) as [|p0 [|p1 [|p2 [|]]]]; try reflexivity.
    now destruct (gcm_decrypt _ _ _ _).
Qed.

Lemma decrypt_result (v : string) (w : World) :
  fst (decrypt v w) = decrypt_with (effective_key w) v.
Proof. destruct (decrypt_run v w) as (w' & Hrun & _). now rewrite Hrun. Qed.

(** [encrypt] of a non-empty untagged string: an encryption under the
    effective key, or the exception of the key manager. *)
Lemma encrypt_run (s : string) (w : World) :
  JsString.truthy s = true -> isEncrypted s = false ->
  exists r w',
    encrypt s w = (r, w') /\
    match effective_key w with
    | Some k => exists iv, List.length iv = IV_LENGTH /\
                           r = Ok (encrypt_with k iv s)
    | None => r = Throw KeyFileUnreadable
    end /\
    effective_key w' = effective_key w /\
    evolves w w'.
Proof.
  intros Ht He. unfold encrypt. rewrite Ht, He. cbn [negb orb].
  destruct (getLocalMasterKey_run w) as (w1 & Hrun & Hkey & Hpos & Hev).
  unfold encryptLocal, bind. rewrite Hrun.
  destruct (effective_key w) as [k|] eqn:Hk.
  - unfold randomBytes at 1.
    set (iv := map (random_tape w1) (seq (random_pos w1) IV_LENGTH)).
    exists (Ok (encrypt_with k iv s)), (set_random_pos (random_pos w1 + IV_LENGTH) w1).
    split; [|split; [|split]].
    + unfold encrypt_with. now destruct (gcm_encrypt k iv s).
    + exists iv. split; [|reflexivity].
      unfold iv. now rewrite length_map, length_seq.
    + apply Hpos.
    + eapply evolves_trans; [exact Hev|apply evolves_set_random_pos].
  - exists (Throw KeyFileUnreadable), w1. now conjs.
Qed.


End Cipher.

(** ** Reading the store *)

Lemma get_set_field_same (f : SensitiveField) (v : string) (a : Auth) :
  get_field f (set_field f v a) = Some v.
Proof. now destruct f. Qed.

Lemma get_set_field_other (f g : SensitiveField) (v : string) (a : Auth) :
  f <> g -> get_field f (set_field g v a) = get_field f a.
Proof. destruct f, g; intros H; try reflexivity; now elim H. Qed.

(** Two [auth] objects with the same fields are the same. *)
Lemma auth_ext (a b : Auth) :
  auth_type a = auth_type b -> user a = user b ->
  clientId a = clientId b -> tokenExpiry a = tokenExpiry b ->
  (forall f, get_field f a = get_field f b) ->
  a = b.
Proof.
  destruct a, b; cbn; intros -> -> -> -> H.
  pose proof (H f_password) as H1. pose proof (H f_accessToken) as H2.
  pose proof (H f_refreshToken) as H3. pose proof (H f_clientSecret) as H4.
  cbn in *. now subst.
Qed.

Section Reading.

Context {C : NodeCrypto} {L : NodeCryptoLaws C}.

(** A step of [decryptAccount] in the world is its step under the
    effective key, which it leaves as it is. *)
Lemma decryptAccount_loop_run (account : EmailAccount) (a : Auth)
    (fields : list SensitiveField) (w : World) :
  exists w',
    decryptAccount_loop account a fields w
    = (loop_with (effective_key w) account a fields, w') /\
    effective_key w' = effective_key w /\
    evolves w w'.
Proof.
  induction fields as [|f rest IH]; cbn [decryptAccount_loop loop_with].
  - exists w. conjs; auto using evolves_refl.
  - destruct (get_field f a) as [v|]; [|exact IH].
    destruct (JsString.truthy v && isEncrypted v); [|exact IH].
    destruct (decrypt_run v w) as (w' & Hrun & Hkey & Hev).
    exists w'. rewrite Hrun. now conjs.
Qed.

Lemma decryptAccount_resume_run (t : Call) (w : World) :
  exists w',
    decryptAccount_resume t w = (resume_with (effective_key w) t, w') /\
    effective_key w' = effective_key w /\
    evolves w w' /\
    forall f e, call_awaiting t = Some (f, Throw e) ->
      In (LogDecryptFailed f (email (call_account t))) (stderr w').
Proof.
  unfold decryptAccount_resume, resume_with.
  destruct (call_awaiting t) as [[f [p|e]]|].
  - destruct (decryptAccount_loop_run (call_account t)
                (set_field f p (call_auth t)) (call_fields t) w)
      as (w' & Hrun & Hkey & Hev).
    exists w'. conjs; auto. discriminate.
  - set (w0 := add_stderr (LogDecryptFailed f (email (call_account t))) w).
    destruct (decryptAccount_loop_run (call_account t) (call_auth t)
                (call_fields t) w0) as (w' & Hrun & Hkey & Hev).
    exists w'. conjs; auto.
    + eapply evolves_trans; [apply evolves_add_stderr|exact Hev].
    + intros f' e' [= <- _]. apply (evolves_In _ _ _ Hev).
      cbn. apply in_or_app. right. now left.
  - exists w. conjs; auto using evolves_refl. discriminate.
Qed.

(** [map_world] of a function that computes [g] under the effective key
    and establishes [post], when [post] survives what follows. *)
Lemma map_world_run {A B : Type} (f : A -> World -> B * World)
    (g : option Buffer -> A -> B) (post : A -> World -> Prop) :
  (forall a w, exists w',
      f a w = (g (effective_key w) a, w') /\
      effective_key w' = effective_key w /\ evolves w w' /\ post a w') ->
  (forall a w w', post a w -> evolves w w' -> post a w') ->
  forall l w, exists w',
    map_world f l w = (map (g (effective_key w)) l, w') /\
    effective_key w' = effective_key w /\ evolves w w' /\
    forall a, In a l -> post a w'.
Proof.
  intros Hf Hpost. induction l as [|a l IH]; intros w; cbn.
  - exists w. conjs; auto using evolves_refl. contradiction.
  - destruct (Hf a w) as (w1 & Hrun & Hkey & Hev & Hp).
    destruct (IH w1) as (w2 & Hrun2 & Hkey2 & Hev2 & Hp2).
    exists w2. rewrite Hrun, Hrun2, Hkey. conjs.
    + reflexivity.
    + congruence.
    + eapply evolves_trans; eassumption.
    + intros x [<-|Hx]; [eapply Hpost; eassumption|now apply Hp2].
Qed.

Lemma call_account_loop_with (key : option Buffer) (account : EmailAccount)
    (a : Auth) (fields : list SensitiveField) :
  call_account (loop_with key account a fields) = account.
Proof.
  induction fields as [|f rest IH]; cbn [loop_with]; [reflexivity|].
  destruct (get_field f a) as [v|]; [|exact IH].
  now destruct (JsString.truthy v && isEncrypted v).
Qed.

Lemma call_account_resume_with (key : option Buffer) (t : Call) :
  call_account (resume_with key t) = call_account t.
Proof.
  unfold resume_with.
  destruct (call_awaiting t) as [[f [p|e]]|];
    auto using call_account_loop_with.
Qed.

Lemma call_account_iter (key : option Buffer) (n : nat) (t : Call) :
  call_account (Nat.iter n (resume_with key) t) = call_account t.
Proof.
  induction n as [|n IH]; [reflexivity|].
  now rewrite Nat.iter_succ, call_account_resume_with.
Qed.

(** [n] turns of the queue resume every call [n] times; a failure awaited
    before the last turn is on standard error at the end. *)
Lemma run_jobs_run (n : nat) (calls : list Call) (w : World) :
  exists w',
    run_jobs n calls w
    = (map (Nat.iter n (resume_with (effective_key w))) calls, w') /\
    effective_key w' = effective_key w /\
    evolves w w' /\
    forall t j f e, In t calls -> j < n ->
      call_awaiting (Nat.iter j (resume_with (effective_key w)) t)
      = Some (f, Throw e) ->
      In (LogDecryptFailed f (email (call_account t))) (stderr w').
Proof.
  revert calls w. induction n as [|n IH]; intros calls w; cbn [run_jobs].
  - exists w. conjs; auto using evolves_refl.
    + now rewrite map_id.
    + intros t j f e _ Hj. lia.
  - destruct (map_world_run decryptAccount_resume resume_with
                (fun t w' => forall f e, call_awaiting t = Some (f, Throw e) ->
                   In (LogDecryptFailed f (email (call_account t))) (stderr w'))
                decryptAccount_resume_run
                (fun t w1 w2 H Hev f e Ht => evolves_In _ _ _ Hev (H f e Ht))
                calls w)
      as (w1 & Hrun & Hkey & Hev & Hlog).
    rewrite Hrun.
    destruct (IH (map (resume_with (effective_key w)) calls) w1)
      as (w2 & Hrun2 & Hkey2 & Hev2 & Hlog2).
    exists w2. rewrite Hrun2, Hkey, map_map. conjs.
    + apply f_equal2; [|reflexivity]. apply map_ext. intros t.
      now rewrite Nat.iter_succ_r.
    + congruence.
    + eapply evolves_trans; eassumption.
    + intros t [|j] f e Ht Hj Haw.
      * apply (evolves_In _ _ _ Hev2). now apply (Hlog t Ht f e).
      * rewrite Nat.iter_succ_r in Haw.
        rewrite <- (call_account_resume_with (effective_key w) t).
        apply (Hlog2 (resume_with (effective_key w) t) j f e).
        -- now apply in_map.
        -- lia.
        -- now rewrite Hkey.
Qed.

Lemma read_value_unencrypted (key : option Buffer) (v : option string) :
  match v with
  | Some s => JsString.truthy s && isEncrypted s = false
  | None => True
  end ->
  read_value key v = v.
Proof. destruct v as [s|]; cbn [read_value]; [|reflexivity]. now intros ->. Qed.

Lemma iter_resume_settled (key : option Buffer) (n : nat) (t : Call) :
  call_awaiting t = None -> Nat.iter n (resume_with key) t = t.
Proof.
  intros H. induction n as [|n IH]; [reflexivity|].
  rewrite Nat.iter_succ, IH. unfold resume_with. now rewrite H.
Qed.

(** After as many turns as there are fields left, a call has returned,
    and each of those fields holds what a read makes of it. *)
Lemma loop_with_settles (key : option Buffer) (account : EmailAccount)
    (fields : list SensitiveField) :
  NoDup fields ->
  forall (a : Auth) (n : nat), List.length fields <= n ->
  let t := Nat.iter n (resume_with key) (loop_with key account a fields) in
  call_awaiting t = None /\
  auth_type (call_auth t) = auth_type a /\
  user (call_auth t) = user a /\
  clientId (call_auth t) = clientId a /\
  tokenExpiry (call_auth t) = tokenExpiry a /\
  forall f, get_field f (call_auth t)
            = if in_dec SensitiveField_eq_dec f fields
              then read_value key (get_field f a)
              else get_field f a.
Proof.
  induction 1 as [|g rest Hg Hnd IH]; intros a n Hn; cbv zeta in *;
    cbn [loop_with].
  - rewrite iter_resume_settled by reflexivity. cbn. now conjs.
  - cbn [List.length] in Hn.
    assert (Hskip :
      match get_field g a with
      | Some s => JsString.truthy s && isEncrypted s = false
      | None => True
      end ->
      let t := Nat.iter n (resume_with key) (loop_with key account a rest) in
      call_awaiting t = None /\
      auth_type (call_auth t) = auth_type a /\
      user (call_auth t) = user a /\
      clientId (call_auth t) = clientId a /\
      tokenExpiry (call_auth t) = tokenExpiry a /\
      forall f, get_field f (call_auth t)
                = if in_dec SensitiveField_eq_dec f (g :: rest)
                  then read_value key (get_field f a)
                  else get_field f a).
    { intros Hq. cbv zeta. destruct (IH a n ltac:(lia)) as (H1 & H2 & H3 & H4 & H5 & H6).
      conjs; auto. intros f. rewrite H6.
      destruct (in_dec SensitiveField_eq_dec f rest) as [Hin|Hout];
        destruct (in_dec SensitiveField_eq_dec f (g :: rest)) as [Hin'|Hout'];
        try reflexivity.
      - elim Hout'. now right.
      - destruct Hin' as [<-|Hin']; [|contradiction].
        symmetry. now apply read_value_unencrypted. }
    destruct (get_field g a) as [v|] eqn:Hv; [|now apply Hskip].
    destruct (JsString.truthy v && isEncrypted v) eqn:Hq; [|now apply Hskip].
    clear Hskip. destruct n as [|n]; [lia|].
    set (a' := match decrypt_with key v with
               | Ok p => set_field g p a
               | Throw _ => a
               end).
    assert (Hstep :
      resume_with key
        {| call_account := account; call_auth := a; call_fields := rest;
           call_awaiting := Some (g, decrypt_with key v) |}
      = loop_with key account a' rest).
    { unfold resume_with, a'. cbn. now destruct (decrypt_with key v). }
    rewrite Nat.iter_succ_r, Hstep.
    destruct (IH a' n ltac:(lia)) as (H1 & H2 & H3 & H4 & H5 & H6).
    assert (Hpub : auth_type a' = auth_type a /\ user a' = user a /\
                   clientId a' = clientId a /\ tokenExpiry a' = tokenExpiry a).
    { unfold a'. destruct (decrypt_with key v); now conjs. }
    destruct Hpub as (P1 & P2 & P3 & P4).
    conjs; [exact H1|now rewrite H2|now rewrite H3|now rewrite H4
           |now rewrite H5|].
    intros f. rewrite H6.
    destruct (in_dec SensitiveField_eq_dec f rest) as [Hin|Hout];
      destruct (in_dec SensitiveField_eq_dec f (g :: rest)) as [Hin'|Hout'].
    + assert (f <> g) by (intros ->; contradiction).
      unfold a'. destruct (decrypt_with key v); [|reflexivity].
      now rewrite get_set_field_other.
    + elim Hout'. now right.
    + destruct Hin' as [<-|Hin']; [|contradiction].
      rewrite Hv. cbn [read_value]. rewrite Hq. unfold a'.
      destruct (decrypt_with key v); [apply get_set_field_same|exact Hv].
    + assert (f <> g) by (intros ->; apply Hout'; now left).
      unfold a'. destruct (decrypt_with key v); [|reflexivity].
      now rewrite get_set_field_other.
Qed.

(** A field whose decryption throws is awaited, with that exception, at
    a turn before the last. *)
Lemma loop_with_reaches (key : option Buffer) (account : EmailAccount)
    (f : SensitiveField) (v : string) (e : Error)
    (fields : list SensitiveField) :
  NoDup fields -> In f fields ->
  forall a : Auth,
  get_field f a = Some v ->
  JsString.truthy v && isEncrypted v = true ->
  decrypt_with key v = Throw e ->
  exists j, j < List.length fields /\
    call_awaiting (Nat.iter j (resume_with key)
                     (loop_with key account a fields))
    = Some (f, Throw e).
Proof.
  induction 1 as [|g rest Hg Hnd IH]; intros Hin a Hv Hq He; [contradiction|].
  cbn [loop_with List.length].
  destruct (SensitiveField_eq_dec g f) as [->|Hne].
  - exists 0. rewrite Hv, Hq, He. split; [lia|reflexivity].
  - assert (Hin' : In f rest) by (destruct Hin; [contradiction|assumption]).
    assert (Hskip : exists j, j < S (List.length rest) /\
              call_awaiting (Nat.iter j (resume_with key)
                               (loop_with key account a rest))
              = Some (f, Throw e)).
    { destruct (IH Hin' a Hv Hq He) as (j & Hj & Haw).
      exists j. split; [lia|exact Haw]. }
    destruct (get_field g a) as [u|] eqn:Hu; [|exact Hskip].
    destruct (JsString.truthy u && isEncrypted u); [|exact Hskip].
    clear Hskip.
    set (a' := match decrypt_with key u with
               | Ok p => set_field g p a
               | Throw _ => a
               end).
    assert (Hstep :
      resume_with key
        {| call_account := account; call_auth := a; call_fields := rest;
           call_awaiting := Some (g, decrypt_with key u) |}
      = loop_with key account a' rest).
    { unfold resume_with, a'. cbn. now destruct (decrypt_with key u). }
    assert (Hv' : get_field f a' = Some v).
    { unfold a'. destruct (decrypt_with key u); [|exact Hv].
      rewrite get_set_field_other; [exact Hv|congruence]. }
    destruct (IH Hin' a' Hv' Hq He) as (j & Hj & Haw).
    exists (S j). split; [lia|]. now rewrite Nat.iter_succ_r, Hstep.
Qed.

Lemma NoDup_SENSITIVE_AUTH_FIELDS : NoDup SENSITIVE_AUTH_FIELDS.
Proof.
  unfold SENSITIVE_AUTH_FIELDS.
  repeat constructor; cbn; intuition discriminate.
Qed.

Lemma In_SENSITIVE_AUTH_FIELDS (f : SensitiveField) :
  In f SENSITIVE_AUTH_FIELDS.
Proof. destruct f; cbn; auto. Qed.

(** A call of [decryptAccount] that has returned has computed
    [read_account]. *)
Lemma decryptAccount_settles (key : option Buffer) (account : EmailAccount) :
  call_result
    (Nat.iter (List.length SENSITIVE_AUTH_FIELDS) (resume_with key)
       (loop_with key account (auth account) SENSITIVE_AUTH_FIELDS))
  = read_account key account.
Proof.
  destruct (loop_with_settles key account SENSITIVE_AUTH_FIELDS
              NoDup_SENSITIVE_AUTH_FIELDS (auth account)
              (List.length SENSITIVE_AUTH_FIELDS) (le_n _))
    as (_ & H2 & H3 & H4 & H5 & H6).
  unfold call_result, read_account.
  rewrite call_account_iter, call_account_loop_with. f_equal.
  apply auth_ext; try assumption.
  intros f. rewrite H6.
  destruct (in_dec SensitiveField_eq_dec f SENSITIVE_AUTH_FIELDS) as [_|Hout].
  - now destruct f.
  - elim Hout. apply In_SENSITIVE_AUTH_FIELDS.
Qed.

(** [getAccounts] on a document that parses: every record, in order, as a
    read under the effective key makes it; every failed decryption is on
    standard error. *)
Lemma getAccounts_run (w : World) (doc : list EmailAccount) :
  accounts_file w = AccountsDoc doc ->
  exists w',
    getAccounts w = (Ok (map (read_account (effective_key w)) doc), w') /\
    effective_key w' = effective_key w /\
    evolves w w' /\
    forall a f v e, In a doc ->
      get_field f (auth a) = Some v ->
      JsString.truthy v && isEncrypted v = true ->
      decrypt_with (effective_key w) v = Throw e ->
      In (LogDecryptFailed f (email a)) (stderr w').
Proof.
  intros Hdoc.
  set (w0 := if config_dir w then w else set_config_dir true w).
  assert (Hk0 : effective_key w0 = effective_key w)
    by (unfold w0; now destruct (config_dir w)).
  assert (Hev0 : evolves w w0).
  { unfold w0. destruct (config_dir w); [apply evolves_refl|].
    unfold evolves. cbn. conjs; auto. exists []. now rewrite app_nil_r. }
  assert (Hdoc0 : accounts_file w0 = AccountsDoc doc).
  { destruct Hev0 as (Ha & _). now rewrite Ha. }
  destruct (map_world_run decryptAccount_start
              (fun key a => loop_with key a (auth a) SENSITIVE_AUTH_FIELDS)
              (fun _ _ => True)
              (fun a w1 =>
                 match decryptAccount_loop_run a (auth a)
                         SENSITIVE_AUTH_FIELDS w1 with
                 | ex_intro _ w2 (conj H1 (conj H2 H3)) =>
                     ex_intro _ w2 (conj H1 (conj H2 (conj H3 I)))
                 end)
              (fun _ _ _ _ _ => I) doc w0)
    as (w1 & Hrun1 & Hk1 & Hev1 & _).
  destruct (run_jobs_run (List.length SENSITIVE_AUTH_FIELDS)
              (map (fun a => loop_with (effective_key w0) a (auth a)
                                SENSITIVE_AUTH_FIELDS) doc) w1)
    as (w2 & Hrun2 & Hk2 & Hev2 & Hlog).
  exists w2. conjs.
  - unfold getAccounts, bind, ensureConfigDir, existsSync_ACCOUNTS_FILE,
      parse_ACCOUNTS_FILE, Promise_all_decryptAccount.
    fold w0.
    assert (Hstep : (if config_dir w then (Ok tt, w)
                     else (Ok tt, set_config_dir true w)) = (Ok tt, w0))
      by (unfold w0; now destruct (config_dir w)).
    rewrite Hstep, Hdoc0. cbn [negb]. rewrite Hdoc0. cbv beta iota.
    rewrite Hrun1, Hrun2.
    rewrite !map_map, Hk1, Hk0. do 2 f_equal.
    apply map_ext. intros a. apply decryptAccount_settles.
  - congruence.
  - eapply evolves_trans; [exact Hev0|].
    eapply evolves_trans; eassumption.
  - intros a f v e Ha Hv Hq He.
    destruct (loop_with_reaches (effective_key w) a f v e
                SENSITIVE_AUTH_FIELDS NoDup_SENSITIVE_AUTH_FIELDS
                (In_SENSITIVE_AUTH_FIELDS f) (auth a) Hv Hq He)
      as (j & Hj & Haw).
    rewrite <- (call_account_loop_with (effective_key w) a (auth a)
                  SENSITIVE_AUTH_FIELDS).
    apply (Hlog _ j f e).
    + rewrite Hk0. apply (in_map (fun a => loop_with (effective_key w) a (auth a)
                                SENSITIVE_AUTH_FIELDS)). exact Ha.
    + exact Hj.
    + now rewrite Hk1, Hk0.
Qed.

(** [getAccounts] without a document that parses. *)
Lemma getAccounts_empty (w : World) :
  document w = None ->
  getAccounts w
  = (Ok [], if config_dir w then w else set_config_dir true w).
Proof.
  unfold document. intros H.
  set (w0 := if config_dir w then w else set_config_dir true w).
  assert (Hstep : ensureConfigDir w = (Ok tt, w0))
    by (unfold ensureConfigDir, w0; now destruct (config_dir w)).
  assert (Ha : accounts_file w0 = accounts_file w)
    by (unfold w0; now destruct (config_dir w)).
  unfold getAccounts, bind, existsSync_ACCOUNTS_FILE, parse_ACCOUNTS_FILE.
  rewrite Hstep, Ha.
  destruct (accounts_file w); try discriminate; cbn; try reflexivity.
  now rewrite Ha.
Qed.

End Reading.

(** ** Writing the store *)

Lemma isEncrypted_truthy {C : NodeCrypto} (s : string) :
  isEncrypted s = true -> JsString.truthy s = true.
Proof. now destruct s. Qed.

Section Writing.

Context {C : NodeCrypto} {L : NodeCryptoLaws C}.

(** The loop of [encryptAccount]: under a key it seals the fields it
    visits and leaves the others; without a key it throws, unless no
    field needs encryption. *)
Lemma encryptAccount_loop_run (fields : list SensitiveField) :
  NoDup fields ->
  forall (a : Auth) (w : World),
  exists r w',
    encryptAccount_loop a fields w = (r, w') /\
    effective_key w' = effective_key w /\
    evolves w w' /\
    match effective_key w with
    | Some k =>
        exists a', r = Ok a' /\
          auth_type a' = auth_type a /\ user a' = user a /\
          clientId a' = clientId a /\ tokenExpiry a' = tokenExpiry a /\
          forall f, if in_dec SensitiveField_eq_dec f fields
                    then sealed_value k (get_field f a) (get_field f a')
                    else get_field f a' = get_field f a
    | None =>
        r = Throw KeyFileUnreadable \/
        (r = Ok a /\
         forall f s, In f fields -> get_field f a = Some s ->
           JsString.truthy s && negb (isEncrypted s) = false)
    end.
Proof.
  induction 1 as [|g rest Hg Hnd IH]; intros a w; cbn [encryptAccount_loop].
  - exists (Ok a), w. conjs; auto using evolves_refl.
    destruct (effective_key w) as [k|].
    + exists a. now conjs.
    + right. split; [reflexivity|]. intros f s [].
  - assert (Hskip :
      match get_field g a with
      | Some s => JsString.truthy s && negb (isEncrypted s) = false
      | None => True
      end ->
      exists r w',
        encryptAccount_loop a rest w = (r, w') /\
        effective_key w' = effective_key w /\
        evolves w w' /\
        match effective_key w with
        | Some k =>
            exists a', r = Ok a' /\
              auth_type a' = auth_type a /\ user a' = user a /\
              clientId a' = clientId a /\ tokenExpiry a' = tokenExpiry a /\
              forall f, if in_dec SensitiveField_eq_dec f (g :: rest)
                        then sealed_value k (get_field f a) (get_field f a')
                        else get_field f a' = get_field f a
        | None =>
            r = Throw KeyFileUnreadable \/
            (r = Ok a /\
             forall f s, In f (g :: rest) -> get_field f a = Some s ->
               JsString.truthy s && negb (isEncrypted s) = false)
        end).
    { intros Hq. destruct (IH a w) as (r & w' & Hrun & Hkey & Hev & Hout).
      exists r, w'. conjs; auto.
      destruct (effective_key w) as [k|].
      - destruct Hout as (a' & Hr & P1 & P2 & P3 & P4 & Hf).
        exists a'. conjs; auto. intros f. specialize (Hf f).
        destruct (in_dec SensitiveField_eq_dec f rest) as [Hin|Hnin];
          destruct (in_dec SensitiveField_eq_dec f (g :: rest)) as [Hin'|Hnin'];
          auto.
        + elim Hnin'. now right.
        + destruct Hin' as [<-|Hin']; [|contradiction].
          rewrite Hf. unfold sealed_value.
          destruct (get_field g a) as [s|]; [now rewrite Hq|reflexivity].
      - destruct Hout as [Hr|[Hr Hf]]; [now left|right].
        split; [exact Hr|]. intros f s [<-|Hin] Hs; [|now apply (Hf f)].
        now rewrite Hs in Hq. }
    destruct (get_field g a) as [s|] eqn:Hs; [|now apply Hskip].
    destruct (JsString.truthy s && negb (isEncrypted s)) eqn:Hq;
      [|now apply Hskip].
    clear Hskip. apply andb_true_iff in Hq as [Ht Hne].
    apply negb_true_iff in Hne.
    destruct (encrypt_run s w Ht Hne) as (r0 & w1 & Hrun & Hout & Hkey & Hev).
    unfold bind. rewrite Hrun.
    destruct (effective_key w) as [k|] eqn:Hk.
    + destruct Hout as (iv & Hiv & ->).
      destruct (IH (set_field g (encrypt_with k iv s) a) w1)
        as (r & w' & Hrun' & Hkey' & Hev' & Hout').
      rewrite Hkey in Hout'.
      destruct Hout' as (a' & Hr & P1 & P2 & P3 & P4 & Hf).
      exists r, w'. conjs.
      * exact Hrun'.
      * congruence.
      * eapply evolves_trans; eassumption.
      * exists a'. conjs; auto. intros f. specialize (Hf f).
        destruct (in_dec SensitiveField_eq_dec f rest) as [Hin|Hnin];
          destruct (in_dec SensitiveField_eq_dec f (g :: rest)) as [Hin'|Hnin'].
        -- assert (f <> g) by (intros ->; contradiction).
           now rewrite get_set_field_other in Hf.
        -- elim Hnin'. now right.
        -- destruct Hin' as [<-|Hin']; [|contradiction].
           rewrite get_set_field_same in Hf. rewrite Hf, Hs.
           unfold sealed_value. rewrite Ht, Hne. cbn. now exists iv.
        -- assert (f <> g) by (intros ->; apply Hnin'; now left).
           now rewrite get_set_field_other in Hf.
    + subst r0. exists (Throw KeyFileUnreadable), w1. conjs; auto.
Qed.

End Writing.

(** ** Documents as lists *)

Lemma In_ids (i : string) (doc : list EmailAccount) :
  In i (ids doc) <-> exists a, In a doc /\ id a = i.
Proof.
  unfold ids. rewrite in_map_iff. split; intros (a & H1 & H2); exists a; auto.
Qed.





Lemma findIndex_None (i : string) (doc : list EmailAccount) :
  findIndex i doc = None <-> ~ In i (ids doc).
Proof.
  induction doc as [|a doc IH]; cbn [findIndex ids map In]; [tauto|].
  fold (ids doc).
  destruct (String.eqb_spec (id a) i) as [Heq|Hne].
  - split; [discriminate|]. intros H. elim H. now left.
  - destruct (findIndex i doc) as [n|].
    + split; [discriminate|]. intros H. exfalso.
      assert (Hin : ~ In i (ids doc)) by tauto.
      apply IH in Hin. discriminate.
    + split; [|reflexivity]. intros _ [H|H]; [contradiction|].
      now apply (proj1 IH).
Qed.

(** The index [findIndex] returns is that of the first record with the
    identifier. *)
Lemma findIndex_Some (i : string) (doc : list EmailAccount) (n : nat) :
  findIndex i doc = Some n ->
  exists l1 old l2,
    doc = l1 ++ old :: l2 /\ List.length l1 = n /\ id old = i /\
    ~ In i (ids l1).
Proof.
  revert n. induction doc as [|a doc IH]; intros n; cbn [findIndex];
    [discriminate|].
  destruct (String.eqb_spec (id a) i) as [Heq|Hne].
  - intros [= <-]. exists [], a, doc. cbn. now conjs.
  - destruct (findIndex i doc) as [m|]; [|discriminate].
    intros [= <-]. destruct (IH m eq_refl) as (l1 & old & l2 & -> & Hl & Ho & Hn).
    exists (a :: l1), old, l2. cbn. conjs; auto. intros [H|H]; contradiction.
Qed.

Lemma set_nth_app (x old : EmailAccount) (l1 l2 : list EmailAccount) :
  set_nth (List.length l1) x (l1 ++ old :: l2) = l1 ++ x :: l2.
Proof. induction l1 as [|a l1 IH]; cbn; [reflexivity|now rewrite IH]. Qed.

(** [upsert] appends when no record has the identifier, and otherwise
    replaces the first record that has it. *)
Lemma upsert_spec (i : string) (x : EmailAccount) (doc : list EmailAccount) :
  (~ In i (ids doc) /\ upsert i x doc = doc ++ [x]) \/
  (exists l1 old l2,
     doc = l1 ++ old :: l2 /\ id old = i /\ ~ In i (ids l1) /\
     upsert i x doc = l1 ++ x :: l2).
Proof.
  unfold upsert. destruct (findIndex i doc) as [n|] eqn:Hf.
  - right. destruct (findIndex_Some _ _ _ Hf) as (l1 & old & l2 & -> & <- & Ho & Hn).
    exists l1, old, l2. conjs; auto. apply set_nth_app.
  - left. split; [now apply findIndex_None|reflexivity].
Qed.



Lemma In_upsert (x : EmailAccount) (doc : list EmailAccount) :
  In x (upsert (id x) x doc).
Proof.
  destruct (upsert_spec (id x) x doc)
    as [[Hn ->]|(l1 & old & l2 & -> & Ho & Hn & ->)];
    apply in_or_app; right; now left.
Qed.

Lemma ids_upsert_unique (x : EmailAccount) (doc : list EmailAccount) :
  unique_ids doc -> unique_ids (upsert (id x) x doc).
Proof.
  unfold unique_ids.
  destruct (upsert_spec (id x) x doc)
    as [[Hn ->]|(l1 & old & l2 & -> & Ho & Hn & ->)]; unfold ids in *.
  - rewrite map_app. cbn. intros H.
    apply NoDup_app; [exact H|repeat constructor; intros []|].
    intros a Ha [<-|[]]. contradiction.
  - rewrite !map_app. cbn. now rewrite Ho.
Qed.

(** [filter] keeps the length only of a list it keeps whole. *)
Lemma filter_length_same {A : Type} (p : A -> bool) (l : list A) :
  List.length (filter p l) = List.length l <-> forall x, In x l -> p x = true.
Proof.
  induction l as [|a l IH]; cbn; [tauto|].
  pose proof (filter_length_le p l) as Hle.
  destruct (p a) eqn:Hp; cbn.
  - split.
    + intros H x [<-|Hx]; [exact Hp|]. apply IH; [lia|exact Hx].
    + intros H. f_equal. apply IH. auto.
  - split; [lia|]. intros H. specialize (H a (or_introl eq_refl)). congruence.
Qed.

Lemma ids_filter_out (i : string) (doc : list EmailAccount) :
  ~ In i (ids (filter (fun a => negb (String.eqb (id a) i)) doc)).
Proof.
  rewrite In_ids. intros (a & Ha & Hi). apply filter_In in Ha as [_ Hp].
  subst i. now rewrite String.eqb_refl in Hp.
Qed.

(** ** The writers *)

Section Writers.

Context {C : NodeCrypto} {L : NodeCryptoLaws C}.

(** A sealed field that is populated is tagged. *)
Lemma sealed_value_encrypted (k : Buffer) (v v' : option string) :
  sealed_value k v v' ->
  match v' with
  | Some s => negb (JsString.truthy s) || isEncrypted s
  | None => true
  end = true.
Proof.
  unfold sealed_value. destruct v as [s|]; [|now intros ->].
  destruct (JsString.truthy s && negb (isEncrypted s)) eqn:Hq.
  - intros (iv & _ & ->). now rewrite isEncrypted_encrypt_with, orb_true_r.
  - intros ->. destruct (JsString.truthy s); [|reflexivity].
    cbn in *. now apply negb_false_iff in Hq.
Qed.

Lemma encryptAccount_run (a : EmailAccount) (w : World) :
  exists r w',
    encryptAccount a w = (r, w') /\
    effective_key w' = effective_key w /\
    evolves w w' /\
    (forall k, effective_key w = Some k ->
       exists a', r = Ok a' /\ sealed_account k a a') /\
    (forall a', r = Ok a' ->
       sensitive_fields_encrypted a' = true /\ id a' = id a /\
       email a' = email a).
Proof.
  destruct (encryptAccount_loop_run SENSITIVE_AUTH_FIELDS
              NoDup_SENSITIVE_AUTH_FIELDS (auth a) w)
    as (r & w' & Hrun & Hkey & Hev & Hout).
  unfold encryptAccount, bind. rewrite Hrun.
  destruct (effective_key w) as [k|].
  - destruct Hout as (a' & -> & P1 & P2 & P3 & P4 & Hf).
    assert (Hs : forall f, sealed_value k (get_field f (auth a)) (get_field f a')).
    { intros f. specialize (Hf f).
      destruct (in_dec SensitiveField_eq_dec f SENSITIVE_AUTH_FIELDS) as [_|Hn];
        [exact Hf|]. elim Hn. apply In_SENSITIVE_AUTH_FIELDS. }
    exists (Ok (with_auth a a')), w'. cbn. conjs; auto.
    + intros k' [= <-]. exists (with_auth a a'). split; [reflexivity|].
      unfold sealed_account. cbn. now conjs.
    + intros x [= <-]. cbn. conjs; auto.
      unfold sensitive_fields_encrypted. apply forallb_forall. intros f _.
      cbn [auth with_auth]. apply (sealed_value_encrypted _ _ _ (Hs f)).
  - destruct Hout as [->|[-> Hf]].
    + exists (Throw KeyFileUnreadable), w'. conjs; auto; discriminate.
    + exists (Ok (with_auth a (auth a))), w'. cbn. conjs; auto; try discriminate.
      intros x [= <-]. cbn. conjs; auto.
      unfold sensitive_fields_encrypted. apply forallb_forall. intros f _.
      cbn [auth with_auth]. destruct (get_field f (auth a)) as [s|] eqn:Hs;
        [|reflexivity].
      specialize (Hf f s (In_SENSITIVE_AUTH_FIELDS f) Hs).
      destruct (JsString.truthy s); [|reflexivity].
      cbn in *. now apply negb_false_iff in Hf.
Qed.

(** [addAccount]: the world after [ensureConfigDir], the encryption of the
    account over its preset, and on success the write and its log line. *)
Lemma addAccount_unfold (a : EmailAccount) (w : World) :
  addAccount a w
  = let w0 := if config_dir w then w else set_config_dir true w in
    match encryptAccount (with_preset a) w0 with
    | (Ok a', w1) =>
        (Ok tt,
         add_stderr (LogSaved (email a))
           (set_accounts_file
              (AccountsDoc (upsert (id a) a' (raw_document w))) w1))
    | (Throw e, w1) => (Throw e, w1)
    end.
Proof.
  unfold addAccount, bind, ensureConfigDir, existsSync_ACCOUNTS_FILE,
    parse_ACCOUNTS_FILE, writeFileSync_ACCOUNTS_FILE, console_error, ret,
    raw_document, upsert, with_preset.
  destruct (config_dir w); cbn;
    destruct (accounts_file w) eqn:Ha; cbn; rewrite ?Ha; cbn;
    destruct (encryptAccount _ _) as [[a'|e] w1]; reflexivity.
Qed.

(** [addAccount] under a resolved key. *)
Lemma addAccount_ok (a : EmailAccount) (w : World) (k : Buffer) :
  effective_key w = Some k ->
  exists a' w',
    addAccount a w = (Ok tt, w') /\
    sealed_account k (with_preset a) a' /\
    accounts_file w' = AccountsDoc (upsert (id a) a' (raw_document w)) /\
    effective_key w' = Some k.
Proof.
  intros Hk. rewrite addAccount_unfold. cbv zeta.
  set (w0 := if config_dir w then w else set_config_dir true w).
  assert (Hk0 : effective_key w0 = Some k)
    by (unfold w0; now destruct (config_dir w)).
  destruct (encryptAccount_run (with_preset a) w0)
    as (r & w1 & Hrun & Hkey & Hev & Hok & _).
  destruct (Hok k Hk0) as (a' & -> & Hs).
  rewrite Hrun. exists a'. eexists. conjs; [reflexivity|exact Hs|reflexivity|].
  cbn. change (effective_key w1 = Some k). congruence.
Qed.

(** [addAccount] in any world: it writes the upserted document, whose new
    record has its populated sensitive fields tagged, or it throws and
    leaves the file as it was. *)
Lemma addAccount_any (a : EmailAccount) (w : World) :
  exists r w',
    addAccount a w = (r, w') /\
    ((r = Ok tt /\ exists a',
        accounts_file w' = AccountsDoc (upsert (id a) a' (raw_document w)) /\
        sensitive_fields_encrypted a' = true /\ id a' = id a) \/
     (exists e, r = Throw e /\ accounts_file w' = accounts_file w)).
Proof.
  rewrite addAccount_unfold. cbv zeta.
  set (w0 := if config_dir w then w else set_config_dir true w).
  assert (Ha0 : accounts_file w0 = accounts_file w)
    by (unfold w0; now destruct (config_dir w)).
  destruct (encryptAccount_run (with_preset a) w0)
    as (r & w1 & Hrun & Hkey & Hev & _ & Hany).
  rewrite Hrun. destruct r as [a'|e].
  - eexists _, _. split; [reflexivity|]. left. split; [reflexivity|].
    exists a'. destruct (Hany a' eq_refl) as (H1 & H2 & _). now conjs.
  - eexists _, _. split; [reflexivity|]. right. exists e.
    split; [reflexivity|]. destruct Hev as (Ha & _). congruence.
Qed.

End Writers.

(** [removeAccount], branch by branch. *)
Lemma removeAccount_unfold (i : string) (w : World) :
  removeAccount i w
  = match accounts_file w with
    | AccountsDoc doc =>
        let filtered := filter (fun a => negb (String.eqb (id a) i)) doc in
        if List.length filtered =? List.length doc then (Ok false, w)
        else (Ok true,
              add_stderr (LogRemoved i)
                (set_accounts_file (AccountsDoc filtered) w))
    | _ => (Ok false, w)
    end.
Proof.
  unfold removeAccount, bind, existsSync_ACCOUNTS_FILE, parse_ACCOUNTS_FILE,
    writeFileSync_ACCOUNTS_FILE, console_error, ret.
  destruct (accounts_file w) as [| |doc] eqn:Ha; cbn; try reflexivity.
  - now rewrite Ha.
  - rewrite Ha. cbv zeta.
    now destruct (List.length _ =? List.length doc).
Qed.

(** ** The test instance obeys the laws *)

Lemma TestNode_buffer_eqb_refl (b : Buffer) : TestNode.buffer_eqb b b = true.
Proof.
  induction b as [|x b IH]; cbn; [reflexivity|].
  now rewrite (byte_dec_lb (eq_refl x)), IH.
Qed.

Lemma TestNode_decode_encode (b : Buffer) :
  TestNode.decode (TestNode.encode b) = b.
Proof.
  induction b as [|x b IH]; [reflexivity|].
  cbn [TestNode.encode TestNode.decode]. rewrite IH. f_equal.
  destruct x; vm_compute; reflexivity.
Qed.

Lemma TestNode_encode_alphabet (b : Buffer) :
  JsString.forallb is_base64_char (TestNode.encode b) = true.
Proof.
  induction b as [|x b IH]; [reflexivity|].
  cbn [TestNode.encode JsString.forallb]. rewrite IH.
  destruct x; vm_compute; reflexivity.
Qed.

#[export] Instance TestNode_laws : NodeCryptoLaws TestNode.node.
Proof.
  constructor.
  - intros secret salt keylen. cbn. unfold TestNode.derive.
    rewrite length_firstn, length_app, repeat_length. lia.
  - intros key iv plaintext _ _. cbn. unfold TestNode.open.
    now rewrite TestNode_buffer_eqb_refl, string_of_list_byte_of_string.
  - exact TestNode_decode_encode.
  - exact TestNode_encode_alphabet.
Qed.

(* ===================================================================== *)
(** * The claims                                                         *)
(* ===================================================================== *)

(** Identifier derivation, on the address of the specification. *)
Example account_id_of_email_example :
  account_id_of_email "user.name+tag@Example.COM" = "user-name-tag-example-com".
Proof. reflexivity. Qed.

(** ** Key manager *)

(** C5.  The master key is resolved in this order.  (1) When
    [MCP_MASTER_KEY] is set (and not empty) the key is the derivation of
    its value, and nothing else is read or written.  (2) Otherwise, when
    the key file can be read, the key is the derivation of its trimmed
    contents.  (3) Otherwise, when there is no key file, 32 fresh random
    bytes (256 bits) are drawn, their base64 text is written to the key
    file with mode 0o600, and the key is the derivation of that text.
    Whenever a key is returned it is [scryptSync(secret, salt, 32)] for the
    fixed salt, and not the secret itself. *)
Theorem C5_key_resolution_order {C : NodeCrypto} (w : World) :
  (forall secret,
     if_truthy (env_MCP_MASTER_KEY w) = Some secret ->
     getLocalMasterKey w
     = (Ok (scryptSync secret "mcp-mail-manager-salt-v1" 32), w)) /\
  (forall data mode,
     if_truthy (env_MCP_MASTER_KEY w) = None ->
     key_file w = KeyFileData data mode ->
     getLocalMasterKey w
     = (Ok (scryptSync (JsString.trim data) "mcp-mail-manager-salt-v1" 32), w)) /\
  (if_truthy (env_MCP_MASTER_KEY w) = None ->
   key_file w = KeyFileAbsent ->
   let bytes := map (random_tape w) (seq (random_pos w) 32) in
   exists w',
     getLocalMasterKey w
     = (Ok (scryptSync (toBase64 bytes) "mcp-mail-manager-salt-v1" 32), w') /\
     List.length bytes = 32 /\
     key_file w' = KeyFileData (toBase64 bytes) MODE_0o600 /\
     random_pos w' = random_pos w + 32) /\
  (forall key w',
     getLocalMasterKey w = (Ok key, w') ->
     exists secret, key = scryptSync secret "mcp-mail-manager-salt-v1" 32).
Proof.
  conjs.
  - intros secret He. exact (getLocalMasterKey_env w secret He).
  - intros data mode He Hk. exact (getLocalMasterKey_file w data mode He Hk).
  - intros He Hk bytes.
    destruct (getLocalMasterKey_absent w He Hk)
      as (w' & Hrun & Hk' & _ & Hpos & _).
    exists w'. subst bytes. conjs; auto.
    all: try now rewrite length_map, length_seq.
  - intros key w'.
    destruct (if_truthy (env_MCP_MASTER_KEY w)) as [secret|] eqn:He.
    + rewrite (getLocalMasterKey_env w secret He). intros [= <- _]. now eexists.
    + destruct (key_file w) as [| |data mode] eqn:Hk.
      * destruct (getLocalMasterKey_absent w He Hk) as (w1 & Hrun & _).
        rewrite Hrun. intros [= <- _]. now eexists.
      * rewrite (getLocalMasterKey_locked w He Hk). discriminate.
      * rewrite (getLocalMasterKey_file w data mode He Hk).
        intros [= <- _]. now eexists.
Qed.

(** C6, in the form that holds of the code.  When no environment secret is
    supplied and the key file exists but cannot be read, key resolution
    throws and changes nothing.  Whenever the key file exists, with or
    without an environment secret, key resolution leaves the world as it
    is: nothing is generated and nothing is written. *)
Theorem C6_unreadable_key_file_is_fatal {C : NodeCrypto} (w : World) :
  (if_truthy (env_MCP_MASTER_KEY w) = None ->
   key_file w = KeyFileLocked ->
   getLocalMasterKey w = (Throw KeyFileUnreadable, w)) /\
  (key_file w <> KeyFileAbsent ->
   forall r w', getLocalMasterKey w = (r, w') -> w' = w).
Proof.
  split.
  - apply getLocalMasterKey_locked.
  - intros Hk r w'.
    destruct (if_truthy (env_MCP_MASTER_KEY w)) as [secret|] eqn:He.
    + rewrite (getLocalMasterKey_env w secret He). now intros [= _ <-].
    + destruct (key_file w) as [| |data mode] eqn:Hf; [contradiction| |].
      * rewrite (getLocalMasterKey_locked w He Hf). now intros [= _ <-].
      * rewrite (getLocalMasterKey_file w data mode He Hf). now intros [= _ <-].
Qed.

(** ** Field cipher *)



(** ** Credential store: reads *)

Lemma get_field_read_account {C : NodeCrypto} (key : option Buffer)
    (f : SensitiveField) (a : EmailAccount) :
  get_field f (auth (read_account key a))
  = read_value key (get_field f (auth a)).
Proof. now destruct f. Qed.

Lemma ids_read {C : NodeCrypto} (key : option Buffer)
    (doc : list EmailAccount) :
  ids (map (read_account key) doc) = ids doc.
Proof. unfold ids. rewrite map_map. now apply map_ext. Qed.

Lemma find_id_None (i : string) (doc : list EmailAccount) :
  ~ In i (ids doc) -> find (fun a => String.eqb (id a) i) doc = None.
Proof.
  induction doc as [|a doc IH]; cbn; [reflexivity|]. intros H.
  destruct (String.eqb_spec (id a) i) as [Heq|Hne]; [tauto|]. apply IH. tauto.
Qed.

(** C1, in the form that holds of the code.  Take a stored record one of
    whose sensitive fields holds a tagged value on which [decrypt] throws.
    [getAccounts] still returns a list as long as the document, with that
    record at its place: the failing field holds its stored value,
    unchanged (it is not emptied); every other sensitive field holds its
    plaintext when its stored value decrypts, and its stored value when
    that is not tagged; every other field of the record is as stored; the
    failure of the field is on standard error. *)
Theorem C1_partial_decryption_failure {C : NodeCrypto} {L : NodeCryptoLaws C}
    (w : World) (doc : list EmailAccount) (n : nat) (a : EmailAccount)
    (f : SensitiveField) (v : string) (e : Error) :
  document w = Some doc ->
  nth_error doc n = Some a ->
  get_field f (auth a) = Some v ->
  isEncrypted v = true ->
  fst (decrypt v w) = Throw e ->
  exists accounts w' a',
    getAccounts w = (Ok accounts, w') /\
    List.length accounts = List.length doc /\
    nth_error accounts n = Some a' /\
    a' = with_auth a (auth a') /\
    auth_type (auth a') = auth_type (auth a) /\
    user (auth a') = user (auth a) /\
    clientId (auth a') = clientId (auth a) /\
    tokenExpiry (auth a') = tokenExpiry (auth a) /\
    get_field f (auth a') = Some v /\
    (forall g u p, g <> f ->
       get_field g (auth a) = Some u -> isEncrypted u = true ->
       fst (decrypt u w) = Ok p ->
       get_field g (auth a') = Some p) /\
    (forall g, g <> f ->
       (forall u, get_field g (auth a) = Some u -> isEncrypted u = false) ->
       get_field g (auth a') = get_field g (auth a)) /\
    In (LogDecryptFailed f (email a)) (stderr w').
Proof.
  intros Hdoc Hn Hv Henc Hdec. rewrite decrypt_result in Hdec.
  assert (Hfile : accounts_file w = AccountsDoc doc).
  { unfold document in Hdoc. destruct (accounts_file w); congruence. }
  destruct (getAccounts_run w doc Hfile) as (w' & Hrun & _ & _ & Hlog).
  exists (map (read_account (effective_key w)) doc), w',
    (read_account (effective_key w) a).
  pose proof (isEncrypted_truthy v Henc) as Ht.
  conjs; try reflexivity.
  - exact Hrun.
  - apply length_map.
  - now apply map_nth_error.
  - rewrite get_field_read_account, Hv. cbn [read_value].
    now rewrite Ht, Henc, Hdec.
  - intros g u p _ Hu Hue Hud. rewrite decrypt_result in Hud.
    rewrite get_field_read_account, Hu.
    cbn [read_value]. now rewrite (isEncrypted_truthy u Hue), Hue, Hud.
  - intros g _ Hg. rewrite get_field_read_account.
    destruct (get_field g (auth a)) as [u|]; [|reflexivity].
    cbn [read_value]. now rewrite (Hg u eq_refl), andb_false_r.
  - apply (Hlog a f v e); auto.
    + eapply nth_error_In; eassumption.
    + now rewrite Ht, Henc.
Qed.

(** C3, in the form that holds of the code.  The invariant of the document
    on disk, that every populated sensitive field of every record is
    tagged, is kept by [addAccount] and by [removeAccount], whatever they
    return.  A read of a document that has the invariant leaves the
    accounts file as it is and returns the records in order; each populated
    sensitive field holds the plaintext when [decrypt] returns one for its
    stored value, and the stored value itself, still tagged, when
    [decrypt] throws: never a part of either. *)
Theorem C3_sensitive_fields_encrypted_on_disk
    {C : NodeCrypto} {L : NodeCryptoLaws C} (w : World) :
  (forall a r w',
     addAccount a w = (r, w') ->
     disk_invariant w = true -> disk_invariant w' = true) /\
  (forall i r w',
     removeAccount i w = (r, w') ->
     disk_invariant w = true -> disk_invariant w' = true) /\
  (forall doc,
     document w = Some doc -> disk_invariant w = true ->
     exists accounts w',
       getAccounts w = (Ok accounts, w') /\
       accounts_file w' = accounts_file w /\
       Forall2
         (fun a a' =>
            forall f v,
              get_field f (auth a) = Some v -> JsString.truthy v = true ->
              isEncrypted v = true /\
              match fst (decrypt v w) with
              | Ok plaintext => get_field f (auth a') = Some plaintext
              | Throw _ => get_field f (auth a') = Some v
              end)
         doc accounts).
Proof.
  conjs.
  - intros a r w' Hrun Hinv.
    destruct (addAccount_any a w) as (r0 & w0 & Hrun0 & Hcases).
    rewrite Hrun in Hrun0. injection Hrun0 as <- <-.
    unfold disk_invariant in *.
    destruct Hcases as [(_ & a' & -> & Ha' & Hid)|(e & _ & ->)]; [|exact Hinv].
    assert (Hraw : forallb sensitive_fields_encrypted (raw_document w) = true).
    { unfold raw_document. now destruct (accounts_file w). }
    destruct (upsert_spec (id a) a' (raw_document w))
      as [[_ ->]|(l1 & old & l2 & Hd & _ & _ & ->)].
    + rewrite forallb_app, Hraw. cbn. now rewrite Ha'.
    + rewrite Hd, forallb_app in Hraw. cbn in Hraw.
      apply andb_true_iff in Hraw as (H1 & H2).
      apply andb_true_iff in H2 as (_ & H2).
      rewrite forallb_app. cbn. now rewrite H1, Ha', H2.
  - intros i r w'. rewrite removeAccount_unfold. unfold disk_invariant.
    destruct (accounts_file w) as [| |doc] eqn:Hf;
      try (intros [= _ <-]; now rewrite Hf).
    cbv zeta. destruct (_ =? _).
    + intros [= _ <-]. now rewrite Hf.
    + intros [= _ <-] Hinv. cbn. rewrite forallb_forall in *.
      intros x Hx. apply filter_In in Hx as (Hx & _). now apply Hinv.
  - intros doc Hdoc Hinv.
    assert (Hfile : accounts_file w = AccountsDoc doc).
    { unfold document in Hdoc. destruct (accounts_file w); congruence. }
    destruct (getAccounts_run w doc Hfile) as (w' & Hrun & _ & Hev & _).
    exists (map (read_account (effective_key w)) doc), w'.
    conjs; [exact Hrun|apply Hev|].
    unfold disk_invariant in Hinv. rewrite Hfile in Hinv.
    rewrite forallb_forall in Hinv.
    clear Hrun Hdoc Hfile. induction doc as [|a doc IH]; cbn; constructor.
    + intros f v Hv Ht.
      assert (He : isEncrypted v = true).
      { specialize (Hinv a (or_introl eq_refl)).
        unfold sensitive_fields_encrypted in Hinv.
        rewrite forallb_forall in Hinv.
        specialize (Hinv f (In_SENSITIVE_AUTH_FIELDS f)).
        rewrite Hv, Ht in Hinv. exact Hinv. }
      split; [exact He|]. rewrite decrypt_result, get_field_read_account, Hv.
      cbn [read_value]. rewrite Ht, He. cbn [andb].
      now destruct (decrypt_with (effective_key w) v).
    + apply IH. intros x Hx. apply Hinv. now right.
Qed.

(** ** Credential store: writes *)





Lemma unique_ids_filter (p : EmailAccount -> bool) (doc : list EmailAccount) :
  unique_ids doc -> unique_ids (filter p doc).
Proof.
  unfold unique_ids, ids. induction doc as [|a doc IH]; cbn; [auto|].
  intros H. inversion H as [|? ? Hn Hd]; subst.
  destruct (p a); cbn; [|now apply IH].
  constructor; [|now apply IH]. intros Hin. apply Hn.
  apply in_map_iff in Hin as (x & Hx & Hin). apply filter_In in Hin as (Hin & _).
  apply in_map_iff. now exists x.
Qed.

(** The two writers keep the identifiers of the collection unique; the
    collection of a store that starts without a file is empty. *)
Lemma unique_ids_kept {C : NodeCrypto} {L : NodeCryptoLaws C} (w : World) :
  unique_ids (raw_document w) ->
  (forall a r w', addAccount a w = (r, w') -> unique_ids (raw_document w')) /\
  (forall i r w', removeAccount i w = (r, w') -> unique_ids (raw_document w')).
Proof.
  intros Hu. split.
  - intros a r w' Hrun.
    destruct (addAccount_any a w) as (r0 & w0 & Hrun0 & Hcases).
    rewrite Hrun in Hrun0. injection Hrun0 as <- <-.
    destruct Hcases as [(_ & a' & Hf & _ & Hid)|(e & _ & Hf)].
    + unfold raw_document at 1. rewrite Hf, <- Hid.
      now apply ids_upsert_unique.
    + unfold raw_document in *. now rewrite Hf.
  - intros i r w'. rewrite removeAccount_unfold. unfold raw_document in *.
    destruct (accounts_file w) as [| |doc] eqn:Hf;
      try (intros [= _ <-]; now rewrite Hf).
    cbv zeta. destruct (_ =? _); intros [= _ <-].
    + now rewrite Hf.
    + cbn. now apply unique_ids_filter.
Qed.

(** C9.  [removeAccount i] returns [true] exactly when the document
    parses and holds a record with the identifier [i].  When it returns
    [true] the document written is the previous one without the records
    whose identifier is [i], after which [getAccount i] is absent and
    [getAccounts] lists no record with that identifier.  When it returns
    [false] nothing is written: the world is unchanged. *)
Theorem C9_removeAccount {C : NodeCrypto} {L : NodeCryptoLaws C}
    (w : World) (i : string) :
  exists b w',
    removeAccount i w = (Ok b, w') /\
    (b = true <-> exists doc, document w = Some doc /\ In i (ids doc)) /\
    (b = true ->
     exists doc,
       document w = Some doc /\
       document w'
       = Some (filter (fun a => negb (String.eqb (id a) i)) doc) /\
       (exists w'', getAccount i w' = (Ok None, w'')) /\
       (exists accounts w'',
          getAccounts w' = (Ok accounts, w'') /\ ~ In i (ids accounts))) /\
    (b = false -> w' = w).
Proof.
  rewrite removeAccount_unfold. unfold document.
  destruct (accounts_file w) as [| |doc] eqn:Hf.
  - exists false, w. conjs; auto; try discriminate.
    split; [discriminate|]. intros (doc & [=] & _).
  - exists false, w. conjs; auto; try discriminate.
    split; [discriminate|]. intros (doc & [=] & _).
  - cbv zeta.
    set (filtered := filter (fun a => negb (String.eqb (id a) i)) doc).
    destruct (Nat.eqb_spec (List.length filtered) (List.length doc)) as [Hlen|Hlen].
    + exists false, w. conjs; auto; try discriminate.
      split; [discriminate|]. intros (d & [= <-] & Hin). exfalso.
      apply In_ids in Hin as (a & Ha & Hi).
      pose proof (proj1 (filter_length_same _ doc) Hlen a Ha) as Hp.
      cbn in Hp. subst i. now rewrite String.eqb_refl in Hp.
    + set (w' := add_stderr (LogRemoved i)
                   (set_accounts_file (AccountsDoc filtered) w)).
      exists true, w'.
      assert (Hin : In i (ids doc)).
      { destruct (in_dec string_dec i (ids doc)) as [Hin|Hnin]; [exact Hin|].
        elim Hlen. apply filter_length_same. intros a Ha.
        apply negb_true_iff, String.eqb_neq. intros Hi. apply Hnin.
        apply In_ids. now exists a. }
      destruct (getAccounts_run w' filtered eq_refl) as (w'' & Hrun & _).
      assert (Hout : ~ In i (ids (map (read_account (effective_key w')) filtered))).
      { rewrite ids_read. apply ids_filter_out. }
      conjs; try discriminate.
      * reflexivity.
      * split; [|reflexivity]. intros _. now exists doc.
      * intros _. exists doc. conjs; auto.
        -- exists w''. unfold getAccount, bind. rewrite Hrun. unfold ret.
           now rewrite find_id_None.
        -- now exists (map (read_account (effective_key w')) filtered), w''.
Qed.


(** ** The tool [add_email_account] *)

(** The merge with a preset: an endpoint the account has is kept, whatever
    its fields hold; an endpoint the account lacks is the preset's. *)
Lemma with_preset_endpoints (a : EmailAccount) :
  imap (with_preset a)
  = Some (match imap a with
          | Some i => i
          | None => preset_imap (PROVIDER_PRESETS (provider a))
          end) /\
  smtp (with_preset a)
  = Some (match smtp a with
          | Some s => s
          | None => preset_smtp (PROVIDER_PRESETS (provider a))
          end).
Proof. unfold with_preset. cbn. now destruct (imap a), (smtp a). Qed.

(** The account the tool builds, field by field. *)
Lemma execute_account_fields (args : AddAccountArgs) (a : EmailAccount) :
  execute_account args = Some a ->
  execute_provider args = DetectedProvider (provider a) /\
  id a = account_id_of_email (arg_email args) /\
  email a = arg_email args /\
  imap a = Some {| imap_host := or_string (arg_imap_host args) "";
                   imap_port := or_number (arg_imap_port args) 993;
                   imap_tls := true |} /\
  smtp a = Some {| smtp_host := or_string (arg_smtp_host args) "";
                   smtp_port := or_number (arg_smtp_port args) 587;
                   smtp_secure := false |} /\
  auth a = {| auth_type := auth_password;
              user := arg_email args;
              password := Some (arg_password args);
              accessToken := None;
              refreshToken := None;
              clientId := None;
              clientSecret := None;
              tokenExpiry := None |}.
Proof.
  unfold execute_account.
  destruct (execute_provider args) as [p|key]; [|discriminate].
  intros [= <-]. now conjs.
Qed.

(** So it changes nothing of an account that has its [imap] and [smtp]
    keys, as every account built by the tool has. *)
Lemma with_preset_execute_account (args : AddAccountArgs) (a : EmailAccount) :
  execute_account args = Some a -> with_preset a = a.
Proof.
  unfold execute_account.
  destruct (execute_provider args) as [p|key]; [|discriminate].
  now intros [= <-].
Qed.

(** Whatever the provider, the record the tool stores has the endpoints
    built from the arguments alone. *)
Lemma execute_addAccount_endpoints {C : NodeCrypto} {L : NodeCryptoLaws C}
    (args : AddAccountArgs) (w : World) (k : Buffer) (run : M unit) :
  fst (getLocalMasterKey w) = Ok k ->
  execute_addAccount args = Some run ->
  exists r w',
    run w = (Ok tt, w') /\
    In r (raw_document w') /\
    id r = account_id_of_email (arg_email args) /\
    imap r = Some {| imap_host := or_string (arg_imap_host args) "";
                     imap_port := or_number (arg_imap_port args) 993;
                     imap_tls := true |} /\
    smtp r = Some {| smtp_host := or_string (arg_smtp_host args) "";
                     smtp_port := or_number (arg_smtp_port args) 587;
                     smtp_secure := false |}.
Proof.
  intros Hk Hrun. apply getLocalMasterKey_resolves in Hk.
  unfold execute_addAccount in Hrun.
  destruct (execute_account args) as [a|] eqn:Ha; [|discriminate].
  injection Hrun as <-.
  destruct (execute_account_fields args a Ha)
    as (_ & Aid & _ & Aimap & Asmtp & _).
  pose proof (with_preset_execute_account args a Ha) as Hp.
  destruct (addAccount_ok a w k Hk) as (r & w' & Hrun & Hs & Hf & _).
  rewrite Hp in Hs.
  destruct Hs as (Hid & _ & _ & _ & _ & Himap & Hsmtp & _).
  exists r, w'. conjs; try congruence.
  unfold raw_document at 1. rewrite Hf.
  rewrite <- Hid. apply In_upsert.
Qed.

(* ===================================================================== *)
(** * The claims on the test machine                                     *)
(* ===================================================================== *)

Section OnTestNode.

Import TestNode.

(** The three cases of C5 on the test machine: the variable set, a key
    file with a trailing newline, and neither. *)
Lemma C5_witness :
  getLocalMasterKey (env_world "k")
  = (Ok (derive "k" SCRYPT_SALT 32), env_world "k") /\
  getLocalMasterKey
    (machine None (KeyFileData "c2VjcmV0
" 384) AccountsAbsent)
  = (Ok (derive "c2VjcmV0" SCRYPT_SALT 32),
     machine None (KeyFileData "c2VjcmV0
" 384) AccountsAbsent) /\
  exists w',
    fst (getLocalMasterKey fresh_world)
    = Ok (derive
            "000102030405060708090a0b0c0d0e0f101112131415161718191a1b1c1d1e1f"
            SCRYPT_SALT 32) /\
    getLocalMasterKey fresh_world
    = (fst (getLocalMasterKey fresh_world), w') /\
    key_file w'
    = KeyFileData
        "000102030405060708090a0b0c0d0e0f101112131415161718191a1b1c1d1e1f" 384.
Proof.
  split; [|split].
  - exact (proj1 (C5_key_resolution_order (env_world "k")) "k" eq_refl).
  - exact (proj1 (proj2 (C5_key_resolution_order
             (machine None (KeyFileData "c2VjcmV0
" 384) AccountsAbsent))) _ _ eq_refl eq_refl).
  - destruct (proj1 (proj2 (proj2 (C5_key_resolution_order fresh_world)))
                eq_refl eq_refl) as (w' & Hrun & _ & Hk & _).
    exists w'. rewrite Hrun. conjs; [reflexivity|reflexivity|exact Hk].
Defined.

(** C6 on the test machine: no variable, an unreadable key file. *)
Lemma C6_witness :
  getLocalMasterKey (locked_world None)
  = (Throw KeyFileUnreadable, locked_world None) /\
  forall r w',
    getLocalMasterKey (locked_world None) = (r, w') ->
    w' = locked_world None.
Proof.
  split.
  - apply (proj1 (C6_unreadable_key_file_is_fatal (locked_world None)));
      reflexivity.
  - apply (proj2 (C6_unreadable_key_file_is_fatal (locked_world None))).
    discriminate.
Defined.

(** C6 as stated fails: with [MCP_MASTER_KEY] set, an unreadable key file
    raises no error; the key is derived from the variable. *)
Lemma C6_counterexample :
  key_file (locked_world (Some "secret")) = KeyFileLocked /\
  getLocalMasterKey (locked_world (Some "secret"))
  = (Ok (derive "secret" SCRYPT_SALT 32),
     locked_world (Some "secret")).
Proof. split; reflexivity. Qed.




(** C1 on a document of one record whose password fails to decrypt and
    whose access token decrypts. *)
Lemma C1_witness :
  fst (decrypt "enc:local:corrupt" (stored_world [broken_account]))
  = Throw InvalidLocalFormat /\
  exists accounts w' a',
    getAccounts (stored_world [broken_account]) = (Ok accounts, w') /\
    List.length accounts = 1 /\
    nth_error accounts 0 = Some a' /\
    a' = with_auth broken_account (auth a') /\
    password (auth a') = Some "enc:local:corrupt" /\
    accessToken (auth a') = Some "tok" /\
    In (LogDecryptFailed f_password "a@b.com") (stderr w').
Proof.
  split; [reflexivity|].
  destruct (C1_partial_decryption_failure
              (stored_world [broken_account]) [broken_account] 0
              broken_account f_password "enc:local:corrupt"
              InvalidLocalFormat eq_refl eq_refl eq_refl eq_refl eq_refl)
    as (accounts & w' & a' & Hrun & Hlen & Hnth & Hrest & _ & _ & _ & _
        & Hpw & Hdec & _ & Hlog).
  exists accounts, w', a'. repeat (split; [assumption|]).
  split; [exact (Hdec f_accessToken sealed_tok "tok" ltac:(discriminate)
                   eq_refl eq_refl eq_refl)|exact Hlog].
Defined.

(** C1 as stated fails: the field that fails to decrypt is not left
    empty; the record comes back with the stored ciphertext in it. *)
Lemma C1_counterexample :
  fst (decrypt "enc:local:corrupt" (stored_world [broken_account]))
  = Throw InvalidLocalFormat /\
  fst (decrypt sealed_tok (stored_world [broken_account])) = Ok "tok" /\
  fst (getAccounts (stored_world [broken_account]))
  = Ok [account "a-b-com" "a@b.com" (Some "enc:local:corrupt") (Some "tok")] /\
  populated (Some "enc:local:corrupt") = true.
Proof. repeat split; vm_compute; reflexivity. Qed.

(** C3 on a document of one record with a well-formed encrypted token. *)
Lemma C3_witness :
  disk_invariant (stored_world [token_account]) = true /\
  (forall a r w',
     addAccount a (stored_world [token_account]) = (r, w') ->
     disk_invariant w' = true) /\
  (forall i r w',
     removeAccount i (stored_world [token_account]) = (r, w') ->
     disk_invariant w' = true) /\
  exists accounts w' a',
    getAccounts (stored_world [token_account]) = (Ok accounts, w') /\
    accounts = [a'] /\ accessToken (auth a') = Some "tok".
Proof.
  destruct (C3_sensitive_fields_encrypted_on_disk (stored_world [token_account]))
    as (Hadd & Hrem & Hread).
  assert (Hinv : disk_invariant (stored_world [token_account]) = true)
    by reflexivity.
  split; [exact Hinv|]. split; [|split].
  - intros a r w' Hrun. exact (Hadd a r w' Hrun Hinv).
  - intros i r w' Hrun. exact (Hrem i r w' Hrun Hinv).
  - destruct (Hread _ eq_refl Hinv) as (accounts & w' & Hrun & _ & Hall).
    inversion Hall as [|x a' l l' Hhd Htl]; subst. inversion Htl; subst.
    exists [a'], w', a'. split; [exact Hrun|]. split; [reflexivity|].
    exact (proj2 (Hhd f_accessToken sealed_tok eq_refl eq_refl)).
Defined.

(** C3 as stated fails on reads: the document has the invariant, and the
    record returned holds a populated sensitive field that is not
    plaintext but the stored value, still tagged. *)
Lemma C3_counterexample :
  disk_invariant (stored_world [tampered_account]) = true /\
  fst (getAccounts (stored_world [tampered_account])) = Ok [tampered_account] /\
  password (auth tampered_account) = Some "enc:local:00:ff:746f6b" /\
  populated (password (auth tampered_account)) = true /\
  isEncrypted "enc:local:00:ff:746f6b" = true.
Proof. repeat split; vm_compute; reflexivity. Qed.


(** C9: removing the one record of a document. *)
Lemma C9_witness :
  exists b w',
    removeAccount "a-b-com" (stored_world [broken_account]) = (Ok b, w') /\
    b = true /\ document w' = Some [] /\
    (exists w'', getAccount "a-b-com" w' = (Ok None, w'')).
Proof.
  destruct (C9_removeAccount (stored_world [broken_account]) "a-b-com")
    as (b & w' & Hrun & Hiff & Htrue & _).
  assert (Hb : b = true).
  { apply Hiff. exists [broken_account]. split; [reflexivity|now left]. }
  destruct (Htrue Hb) as (doc & [= <-] & Hdoc & Hget & _).
  exists b, w'. repeat (split; [assumption|]). exact Hget.
Defined.


(** C8.  The call [add_email_account email="user@gmail.com" password="pw"]
    leaves the IMAP and SMTP hosts unset.  The provider detected is
    [gmail], whose preset has the hosts [imap.gmail.com] and
    [smtp.gmail.com]; the record written has the empty host in both
    endpoints: the preset is not applied to the fields the caller left
    unset. *)
Theorem C8_preset_not_applied_to_unset_hosts :
  option_map provider (execute_account gmail_args) = Some gmail /\
  imap_host (preset_imap (PROVIDER_PRESETS gmail)) = "imap.gmail.com" /\
  smtp_host (preset_smtp (PROVIDER_PRESETS gmail)) = "smtp.gmail.com" /\
  exists run r w',
    execute_addAccount gmail_args = Some run /\
    run (env_world "k") = (Ok tt, w') /\
    document w' = Some [r] /\
    imap r = Some {| imap_host := ""; imap_port := 993; imap_tls := true |} /\
    smtp r = Some {| smtp_host := ""; smtp_port := 587; smtp_secure := false |}.
Proof.
  repeat (split; [reflexivity|]).
  eexists _, _, _. split; [reflexivity|].
  split; [vm_compute; reflexivity|].
  split; [reflexivity|]. split; reflexivity.
Qed.

End OnTestNode.

(* ===================================================================== *)
(** * Further properties of the vault                                    *)
(* ===================================================================== *)

(** ** Key manager and field cipher *)

Lemma split_count_char (sep : ascii) (s : string) :
  List.length (JsString.split sep s) = S (count_char sep s).
Proof.
  induction s as [|c s IH]; cbn; [reflexivity|].
  destruct (Ascii.eqb c sep); cbn.
  - now rewrite IH.
  - destruct (JsString.split sep s); cbn in *; [discriminate | exact IH].
Qed.

Lemma count_char_app (c : ascii) (a b : string) :
  count_char c (a ++ b)%string = count_char c a + count_char c b.
Proof. induction a as [|x a IH]; cbn; [reflexivity|]. rewrite IH. lia. Qed.

Lemma count_char_none (c : ascii) (s : string) :
  JsString.forallb (fun x => negb (Ascii.eqb x c)) s = true ->
  count_char c s = 0.
Proof.
  induction s as [|x s IH]; cbn; [reflexivity|].
  intros H. apply andb_true_iff in H as [Hx Hs].
  apply negb_true_iff in Hx. rewrite Hx. cbn. auto.
Qed.

Section KeyAndCipher.

Context {C : NodeCrypto}.

(** [encrypt] on a string it has to encrypt, step by step. *)
Lemma encrypt_unfold (s : string) (w : World) :
  JsString.truthy s = true -> isEncrypted s = false ->
  encrypt s w
  = match getLocalMasterKey w with
    | (Ok key, w1) =>
        (Ok (encrypt_with key
               (map (random_tape w1) (seq (random_pos w1) IV_LENGTH)) s),
         set_random_pos (random_pos w1 + IV_LENGTH) w1)
    | (Throw e, w1) => (Throw e, w1)
    end.
Proof.
  intros Ht He. unfold encrypt. rewrite Ht, He. cbn [negb orb].
  unfold encryptLocal, bind at 1.
  destruct (getLocalMasterKey w) as [[key|e] w1]; [|reflexivity].
  unfold bind, randomBytes, encrypt_with.
  destruct (gcm_encrypt key _ s) as [encrypted authTag]. reflexivity.
Qed.

(** What [getLocalMasterKey] does to the secrets, case by case. *)
Lemma getLocalMasterKey_cases (w : World) :
  (exists k, getLocalMasterKey w = (Ok k, w)) \/
  getLocalMasterKey w = (Throw KeyFileUnreadable, w) \/
  (if_truthy (env_MCP_MASTER_KEY w) = None /\ key_file w = KeyFileAbsent /\
   exists k w',
     getLocalMasterKey w = (Ok k, w') /\
     key_file w' = KeyFileData
                     (toBase64 (map (random_tape w) (seq (random_pos w) 32)))
                     MODE_0o600 /\
     random_pos w' = random_pos w + 32 /\
     random_tape w' = random_tape w /\
     accounts_file w' = accounts_file w /\
     env_MCP_MASTER_KEY w' = env_MCP_MASTER_KEY w).
Proof.
  destruct (if_truthy (env_MCP_MASTER_KEY w)) as [secret|] eqn:He.
  - left. eexists. apply getLocalMasterKey_env. exact He.
  - destruct (key_file w) as [| |data mode] eqn:Hk.
    + right. right. conjs; try reflexivity.
      destruct (getLocalMasterKey_absent w He Hk)
        as (w' & Hr & Hf & _ & Hp & Ht & _ & Ha & Hv).
      eexists _, w'. conjs; eauto.
    + right. left. now apply getLocalMasterKey_locked.
    + left. eexists. eapply getLocalMasterKey_file; eauto.
Qed.

End KeyAndCipher.

(** A resolved key stays resolved, to the same key, as long as the
    environment variable and the key file are the same. *)
Lemma getLocalMasterKey_stable {C : NodeCrypto} {L : NodeCryptoLaws C}
    (w w' : World) (k : Buffer) :
  getLocalMasterKey w = (Ok k, w') ->
  forall w'',
    env_MCP_MASTER_KEY w'' = env_MCP_MASTER_KEY w' ->
    key_file w'' = key_file w' ->
    getLocalMasterKey w'' = (Ok k, w'').
Proof.
  intros H w'' Henv Hfile.
  destruct (if_truthy (env_MCP_MASTER_KEY w)) as [secret|] eqn:He.
  - rewrite (getLocalMasterKey_env w secret He) in H.
    injection H as <- <-. apply getLocalMasterKey_env. now rewrite Henv.
  - destruct (key_file w) as [| |data mode] eqn:Hk.
    + destruct (getLocalMasterKey_absent w He Hk)
        as (w1 & Hr & Hf & _ & _ & _ & _ & _ & Hv).
      cbv zeta in Hr, Hf. rewrite Hr in H. injection H as <- <-.
      rewrite <- (toBase64_trim (map (random_tape w) (seq (random_pos w) 32))) at 1.
      eapply getLocalMasterKey_file.
      * now rewrite Henv, Hv.
      * rewrite Hfile. exact Hf.
    + rewrite (getLocalMasterKey_locked w He Hk) in H. discriminate.
    + rewrite (getLocalMasterKey_file w data mode He Hk) in H.
      injection H as <- <-. eapply getLocalMasterKey_file.
      * now rewrite Henv.
      * rewrite Hfile. exact Hk.
Qed.

(** X1.  Once [getLocalMasterKey] has returned a key, it returns the same
    key, and changes nothing, in every world with the same environment
    variable and the same key file: a generated key is generated once. *)
Theorem getLocalMasterKey_settles {C : NodeCrypto} {L : NodeCryptoLaws C}
    (w w' : World) (k : Buffer) :
  getLocalMasterKey w = (Ok k, w') ->
  forall w'',
    env_MCP_MASTER_KEY w'' = env_MCP_MASTER_KEY w' ->
    key_file w'' = key_file w' ->
    getLocalMasterKey w'' = (Ok k, w'').
Proof. exact (getLocalMasterKey_stable w w' k). Qed.

(** X2.  [decrypt] returns a value without the tag as it is and touches
    nothing, whatever the state of the key; it throws on tagged values
    only, and never the error [Unknown encryption format]. *)
Theorem decrypt_untagged_and_errors {C : NodeCrypto} (v : string) (w : World) :
  (isEncrypted v = false -> decrypt v w = (Ok v, w)) /\
  (forall e w', decrypt v w = (Throw e, w') ->
     isEncrypted v = true /\
     (e = KeyFileUnreadable \/ e = InvalidLocalFormat \/ e = DecipherFailure)).
Proof.
  split.
  - intros He. unfold decrypt. rewrite He.
    now rewrite orb_true_r.
  - intros e w' H. unfold decrypt in H.
    destruct (isEncrypted v) eqn:He.
    2:{ rewrite orb_true_r in H. discriminate. }
    split; [reflexivity|].
    destruct (JsString.truthy v); cbn [negb orb] in H; [|discriminate].
    unfold isEncrypted in He. rewrite He in H.
    unfold decryptLocal, bind in H.
    destruct (getLocalMasterKey_cases w)
      as [[k Hk] | [Hk | (_ & _ & k & w1 & Hk & _)]]; rewrite Hk in H.
    + destruct (JsString.split _ _) as [|p0 [|p1 [|p2 [|p3 ps]]]];
        try (injection H as <- _; tauto).
      destruct (gcm_decrypt _ _ _ _); [discriminate|].
      injection H as <- _; tauto.
    + injection H as <- _; tauto.
    + destruct (JsString.split _ _) as [|p0 [|p1 [|p2 [|p3 ps]]]];
        try (injection H as <- _; tauto).
      destruct (gcm_decrypt _ _ _ _); [discriminate|].
      injection H as <- _; tauto.
Qed.

(** X3.  With the key resolved, [decrypt] rejects a tagged value with
    [Invalid local encrypted format] exactly when what follows the tag
    does not hold two colons. *)
Theorem decrypt_invalid_format {C : NodeCrypto} {L : NodeCryptoLaws C}
    (v : string) (w : World) (k : Buffer) :
  isEncrypted v = true ->
  fst (getLocalMasterKey w) = Ok k ->
  (fst (decrypt v w) = Throw InvalidLocalFormat
   <-> count_char ":" (JsString.slice 10 v) <> 2).
Proof.
  intros He Hk. apply getLocalMasterKey_resolves in Hk.
  rewrite decrypt_result, Hk. unfold decrypt_with.
  rewrite He, (isEncrypted_truthy v He). cbn [negb orb].
  change (String.length PREFIX_LOCAL) with 10.
  pose proof (split_count_char ":" (JsString.slice 10 v)) as Hlen.
  destruct (JsString.split ":" (JsString.slice 10 v))
    as [|p0 [|p1 [|p2 [|p3 ps]]]]; cbn [List.length] in Hlen.
  - discriminate.
  - split; [lia | reflexivity].
  - split; [lia | reflexivity].
  - split; [|lia]. destruct (gcm_decrypt _ _ _ _); discriminate.
  - split; [lia | reflexivity].
Qed.

(** X4.  What [encrypt] returns for a string it has to encrypt: the tag,
    then three parts in the base64 alphabet with a colon between them,
    the first of which encodes a nonce of sixteen bytes. *)
Theorem encrypt_output_format {C : NodeCrypto} {L : NodeCryptoLaws C}
    (s c : string) (w w' : World) :
  JsString.truthy s = true -> isEncrypted s = false ->
  encrypt s w = (Ok c, w') ->
  exists p0 p1 p2,
    c = ("enc:local:" ++ p0 ++ ":" ++ p1 ++ ":" ++ p2)%string /\
    JsString.split ":" (JsString.slice 10 c) = [p0; p1; p2] /\
    JsString.forallb is_base64_char p0 = true /\
    JsString.forallb is_base64_char p1 = true /\
    JsString.forallb is_base64_char p2 = true /\
    List.length (fromBase64 p0) = 16 /\
    isEncrypted c = true.
Proof.
  intros Ht He H. rewrite (encrypt_unfold s w Ht He) in H.
  destruct (getLocalMasterKey w) as [[key|e] w1]; [|discriminate].
  remember (map (random_tape w1) (seq (random_pos w1) IV_LENGTH)) as iv eqn:Hiv.
  unfold encrypt_with in H.
  destruct (gcm_encrypt key iv s) as [encrypted authTag].
  injection H as <- <-.
  exists (toBase64 iv), (toBase64 authTag), (toBase64 encrypted).
  conjs; try apply toBase64_alphabet.
  - reflexivity.
  - cbn [JsString.slice].
    rewrite JsStringFacts.split_app by apply toBase64_no_colon.
    rewrite JsStringFacts.split_app by apply toBase64_no_colon.
    rewrite JsStringFacts.split_none by apply toBase64_no_colon.
    reflexivity.
  - rewrite fromBase64_toBase64, Hiv.
    now rewrite length_map, length_seq.
  - unfold isEncrypted. reflexivity.
Qed.

Lemma nonce_of_encrypt_with {C : NodeCrypto} {L : NodeCryptoLaws C}
    (key iv : Buffer) (s : string) :
  nonce_of (encrypt_with key iv s) = iv.
Proof.
  unfold nonce_of, encrypt_with.
  destruct (gcm_encrypt key iv s) as [encrypted authTag].
  rewrite JsStringFacts.slice_app. cbn [append].
  rewrite JsStringFacts.split_app by apply toBase64_no_colon.
  cbn [hd]. apply fromBase64_toBase64.
Qed.

(** X5.  Two encryptions in a row take their nonces from the random
    generator at places that do not overlap, the second after the first,
    and neither before the place the generator had reached. *)
Theorem encrypt_nonces_fresh {C : NodeCrypto} {L : NodeCryptoLaws C}
    (s1 s2 c1 c2 : string) (w w1 w2 : World) :
  JsString.truthy s1 = true -> isEncrypted s1 = false ->
  JsString.truthy s2 = true -> isEncrypted s2 = false ->
  encrypt s1 w = (Ok c1, w1) ->
  encrypt s2 w1 = (Ok c2, w2) ->
  exists p1 p2,
    nonce_of c1 = map (random_tape w) (seq p1 16) /\
    nonce_of c2 = map (random_tape w) (seq p2 16) /\
    random_pos w <= p1 /\ p1 + 16 = random_pos w1 /\
    random_pos w1 = p2 /\ p2 + 16 = random_pos w2.
Proof.
  intros Ht1 He1 Ht2 He2 H1 H2.
  rewrite (encrypt_unfold s1 w Ht1 He1) in H1.
  rewrite (encrypt_unfold s2 w1 Ht2 He2) in H2.
  assert (Hkey1 : exists k, getLocalMasterKey w1 = (Ok k, w1)).
  { destruct (getLocalMasterKey w) as [[key|e] v1] eqn:Hg; [|discriminate].
    injection H1 as _ <-. exists key.
    apply (getLocalMasterKey_stable w v1 key Hg); reflexivity. }
  destruct Hkey1 as [k2 Hk2]. rewrite Hk2 in H2. injection H2 as <- <-.
  destruct (getLocalMasterKey_cases w)
    as [[k Hk] | [Hk | (_ & _ & k & v1 & Hk & _ & Hp & Htape & _)]];
    rewrite Hk in H1; try discriminate; injection H1 as <- <-.
  - exists (random_pos w), (random_pos w + 16).
    rewrite !nonce_of_encrypt_with. cbn. conjs; try reflexivity; lia.
  - exists (random_pos w + 32), (random_pos w + 32 + 16).
    rewrite !nonce_of_encrypt_with. cbn. rewrite Htape, Hp.
    conjs; try reflexivity; lia.
Qed.

(** ** Reading the store *)

Section ReadingFacts.

Context {C : NodeCrypto}.

Lemma read_value_None (v : option string) : read_value None v = v.
Proof.
  destruct v as [s|]; [|reflexivity]. unfold read_value, decrypt_with.
  destruct (JsString.truthy s && isEncrypted s) eqn:H; [|reflexivity].
  apply andb_true_iff in H as [Ht He]. now rewrite Ht, He.
Qed.

Lemma get_field_read_auth (key : option Buffer) (f : SensitiveField)
    (a : Auth) :
  get_field f (read_auth key a) = read_value key (get_field f a).
Proof. now destruct f. Qed.

Lemma with_auth_same (a : EmailAccount) : with_auth a (auth a) = a.
Proof. now destruct a. Qed.

Lemma read_account_None (a : EmailAccount) : read_account None a = a.
Proof.
  unfold read_account.
  replace (read_auth None (auth a)) with (auth a); [apply with_auth_same|].
  apply auth_ext; try reflexivity.
  intros f. now rewrite get_field_read_auth, read_value_None.
Qed.

Lemma read_value_not_ciphertext (key : option Buffer) (v : option string) :
  is_ciphertext v = false -> read_value key v = v.
Proof.
  destruct v as [s|]; [|reflexivity]. cbn. now intros ->.
Qed.

Lemma has_ciphertext_false (a : EmailAccount) :
  has_ciphertext a = false ->
  forall f, is_ciphertext (get_field f (auth a)) = false.
Proof.
  intros H f. destruct (is_ciphertext (get_field f (auth a))) eqn:E;
    [|reflexivity].
  rewrite <- H. symmetry. apply existsb_exists. exists f.
  split; [apply In_SENSITIVE_AUTH_FIELDS | exact E].
Qed.

Lemma has_plaintext_false (a : EmailAccount) :
  has_plaintext a = false ->
  forall f, is_plaintext (get_field f (auth a)) = false.
Proof.
  intros H f. destruct (is_plaintext (get_field f (auth a))) eqn:E;
    [|reflexivity].
  rewrite <- H. symmetry. apply existsb_exists. exists f.
  split; [apply In_SENSITIVE_AUTH_FIELDS | exact E].
Qed.

Lemma read_account_not_ciphertext (key : option Buffer) (a : EmailAccount) :
  has_ciphertext a = false -> read_account key a = a.
Proof.
  intros H. unfold read_account.
  replace (read_auth key (auth a)) with (auth a); [apply with_auth_same|].
  apply auth_ext; try reflexivity.
  intros f. rewrite get_field_read_auth.
  symmetry. apply read_value_not_ciphertext. now apply has_ciphertext_false.
Qed.

(** [decryptAccount] on fields none of which is to decrypt: it ends at
    once and touches nothing. *)
Lemma decryptAccount_loop_idle (account : EmailAccount) (a : Auth)
    (fields : list SensitiveField) (w : World) :
  (forall f, In f fields -> is_ciphertext (get_field f a) = false) ->
  decryptAccount_loop account a fields w
  = ({| call_account := account; call_auth := a;
        call_fields := []; call_awaiting := None |}, w).
Proof.
  induction fields as [|f rest IH]; intros H; [reflexivity|].
  cbn [decryptAccount_loop].
  pose proof (H f (or_introl eq_refl)) as Hf.
  destruct (get_field f a) as [v|].
  - cbn in Hf. rewrite Hf. apply IH. intros g Hg. apply H. now right.
  - apply IH. intros g Hg. apply H. now right.
Qed.

Lemma map_world_pure {A B : Type} (f : A -> World -> B * World)
    (g : A -> B) (l : list A) :
  (forall a w, In a l -> f a w = (g a, w)) ->
  forall w, map_world f l w = (map g l, w).
Proof.
  induction l as [|a l IH]; intros H w; [reflexivity|].
  cbn [map_world map]. rewrite (H a w (or_introl eq_refl)).
  rewrite IH; [reflexivity|]. intros b v Hb. apply H. now right.
Qed.

Lemma run_jobs_idle (n : nat) (calls : list Call) (w : World) :
  (forall t, In t calls -> call_awaiting t = None) ->
  run_jobs n calls w = (calls, w).
Proof.
  intros H. induction n as [|n IH]; [reflexivity|].
  cbn [run_jobs].
  rewrite (map_world_pure decryptAccount_resume (fun t => t)).
  - now rewrite map_id.
  - intros t v Ht. unfold decryptAccount_resume. now rewrite (H t Ht).
Qed.

End ReadingFacts.

Section ReadingMore.

Context {C : NodeCrypto} {L : NodeCryptoLaws C}.

(** [getAccounts] in any world: the records of the document, or none,
    each as a read under the effective key leaves it. *)
Lemma getAccounts_any (w : World) :
  exists w',
    getAccounts w
    = (Ok (map (read_account (effective_key w)) (raw_document w)), w') /\
    effective_key w' = effective_key w /\
    evolves w w'.
Proof.
  destruct (accounts_file w) as [| |doc] eqn:Ha.
  3:{ destruct (getAccounts_run w doc Ha) as (w' & H1 & H2 & H3 & _).
      exists w'. unfold raw_document. rewrite Ha. auto. }
  all: rewrite getAccounts_empty by (unfold document; now rewrite Ha);
    unfold raw_document; rewrite Ha; eexists; conjs;
    [reflexivity | now destruct (config_dir w) |].
  all: destruct (config_dir w); [apply evolves_refl|];
    unfold evolves; cbn; conjs; auto; exists []; now rewrite app_nil_r.
Qed.

Lemma lookup_map_read (key : option Buffer) (i : string)
    (doc : list EmailAccount) :
  lookup i (map (read_account key) doc)
  = option_map (read_account key) (lookup i doc).
Proof.
  induction doc as [|a doc IH]; [reflexivity|].
  cbn. change (id (read_account key a)) with (id a).
  destruct (String.eqb (id a) i); [reflexivity | exact IH].
Qed.

Lemma getAccount_any (i : string) (w : World) :
  exists w',
    getAccount i w
    = (Ok (option_map (read_account (effective_key w))
             (lookup i (raw_document w))), w') /\
    effective_key w' = effective_key w /\
    evolves w w'.
Proof.
  destruct (getAccounts_any w) as (w' & Hrun & Hk & Hev).
  exists w'. unfold getAccount, bind. rewrite Hrun.
  unfold ret. rewrite <- lookup_map_read. auto.
Qed.

Lemma key_unreadable (w : World) (e : Error) :
  fst (getLocalMasterKey w) = Throw e -> effective_key w = None.
Proof.
  destruct (getLocalMasterKey_run w) as (w' & Hrun & _).
  rewrite Hrun. cbn. destruct (effective_key w); [discriminate|reflexivity].
Qed.

Lemma raw_document_evolves (w w' : World) :
  evolves w w' -> raw_document w' = raw_document w.
Proof. intros (Ha & _). unfold raw_document. now rewrite Ha. Qed.

End ReadingMore.

(** X6.  When the master key cannot be resolved, [getAccounts] still
    answers: it returns the records exactly as they are stored, leaves
    the document as it is, and logs one failure for each field it could
    not decrypt. *)
Theorem getAccounts_without_key {C : NodeCrypto} {L : NodeCryptoLaws C}
    (w : World) (e : Error) :
  fst (getLocalMasterKey w) = Throw e ->
  exists w',
    getAccounts w = (Ok (raw_document w), w') /\
    accounts_file w' = accounts_file w /\
    forall a f, In a (raw_document w) ->
      is_ciphertext (get_field f (auth a)) = true ->
      In (LogDecryptFailed f (email a)) (stderr w').
Proof.
  intros He. apply key_unreadable in He.
  destruct (accounts_file w) as [| |doc] eqn:Ha.
  3:{ destruct (getAccounts_run w doc Ha) as (w' & Hrun & _ & Hev & Hlog).
      exists w'. unfold raw_document. rewrite Ha. rewrite He in Hrun, Hlog.
      conjs.
      - rewrite Hrun. do 2 f_equal. rewrite <- (map_id doc) at 2.
        apply map_ext. apply read_account_None.
      - destruct Hev as (Hf & _). congruence.
      - intros a f Hin Hc. destruct (get_field f (auth a)) as [v|] eqn:Hv;
          [|discriminate]. cbn in Hc.
        apply (Hlog a f v KeyFileUnreadable Hin Hv Hc).
        unfold decrypt_with. apply andb_true_iff in Hc as [Ht Hc].
        now rewrite Ht, Hc. }
  all: rewrite getAccounts_empty by (unfold document; now rewrite Ha);
    unfold raw_document; rewrite Ha; eexists; conjs;
    [reflexivity | now destruct (config_dir w) | intros a f []].
Qed.

(** X7.  [getAccounts] on a document none of whose sensitive fields is
    tagged returns the records as they are stored and touches neither the
    key nor the log: all it can do is create the configuration
    directory. *)
Theorem getAccounts_plain_document {C : NodeCrypto} (w : World)
    (doc : list EmailAccount) :
  document w = Some doc ->
  List.forallb (fun a => negb (has_ciphertext a)) doc = true ->
  getAccounts w
  = (Ok doc, if config_dir w then w else set_config_dir true w).
Proof.
  intros Hdoc Hplain.
  assert (Hfile : accounts_file w = AccountsDoc doc).
  { unfold document in Hdoc. destruct (accounts_file w); congruence. }
  set (w0 := if config_dir w then w else set_config_dir true w).
  assert (Hstep : ensureConfigDir w = (Ok tt, w0))
    by (unfold ensureConfigDir, w0; now destruct (config_dir w)).
  assert (Ha : accounts_file w0 = AccountsDoc doc)
    by (unfold w0; now destruct (config_dir w)).
  unfold getAccounts, bind, existsSync_ACCOUNTS_FILE, parse_ACCOUNTS_FILE.
  rewrite Hstep, Ha. cbn [negb]. rewrite Ha. cbv beta iota.
  unfold Promise_all_decryptAccount.
  rewrite (map_world_pure decryptAccount_start
             (fun a => {| call_account := a; call_auth := auth a;
                          call_fields := []; call_awaiting := None |})).
  - rewrite run_jobs_idle.
    + rewrite map_map. do 2 f_equal. rewrite <- (map_id doc) at 2.
      apply map_ext. intros a. apply with_auth_same.
    + intros t Ht. apply in_map_iff in Ht as (a & <- & _). reflexivity.
  - intros a v Hin. apply decryptAccount_loop_idle. intros f _.
    apply has_ciphertext_false.
    rewrite forallb_forall in Hplain. specialize (Hplain a Hin).
    now apply negb_true_iff in Hplain.
Qed.

(** X8.  Reading is repeatable: after [getAccounts] has returned a list,
    the next call returns the same list, also when the first call
    generated the master key. *)
Theorem getAccounts_twice {C : NodeCrypto} {L : NodeCryptoLaws C}
    (w w' : World) (accounts : list EmailAccount) :
  getAccounts w = (Ok accounts, w') ->
  exists w'', getAccounts w' = (Ok accounts, w'').
Proof.
  intros H.
  destruct (getAccounts_any w) as (w1 & Hrun & Hk & Hev).
  rewrite Hrun in H. injection H as <- <-.
  destruct (getAccounts_any w1) as (w2 & Hrun2 & _).
  exists w2. rewrite Hrun2, Hk, (raw_document_evolves _ _ Hev). reflexivity.
Qed.

(** ** Writing the store *)

Lemma lookup_In (i : string) (doc : list EmailAccount) (a : EmailAccount) :
  lookup i doc = Some a -> In a doc /\ id a = i.
Proof.
  intros H. apply find_some in H as [Hin He].
  split; [exact Hin | now apply String.eqb_eq].
Qed.

Lemma lookup_None (i : string) (doc : list EmailAccount) :
  lookup i doc = None <-> ~ In i (ids doc).
Proof.
  split.
  - intros H Hin. apply In_ids in Hin as (a & Ha & Hi).
    pose proof (find_none _ _ H a Ha) as Hf. cbn in Hf.
    rewrite Hi, String.eqb_refl in Hf. discriminate.
  - apply find_id_None.
Qed.

Lemma lookup_app (i : string) (l1 l2 : list EmailAccount) :
  lookup i (l1 ++ l2)
  = match lookup i l1 with Some a => Some a | None => lookup i l2 end.
Proof.
  induction l1 as [|a l1 IH]; [reflexivity|].
  cbn. destruct (String.eqb (id a) i); [reflexivity | exact IH].
Qed.

Lemma lookup_cons (i : string) (a : EmailAccount) (l : list EmailAccount) :
  lookup i (a :: l) = if String.eqb (id a) i then Some a else lookup i l.
Proof. reflexivity. Qed.

(** After an upsert under [id x], a lookup of that identifier finds [x],
    and a lookup of another finds what it found before. *)
Lemma lookup_upsert_same (x : EmailAccount) (doc : list EmailAccount) :
  lookup (id x) (upsert (id x) x doc) = Some x.
Proof.
  destruct (upsert_spec (id x) x doc)
    as [(Hn & ->) | (l1 & old & l2 & -> & Hold & Hn & ->)].
  - rewrite lookup_app. apply lookup_None in Hn. rewrite Hn.
    rewrite lookup_cons. now rewrite String.eqb_refl.
  - rewrite lookup_app. apply lookup_None in Hn. rewrite Hn.
    rewrite lookup_cons. now rewrite String.eqb_refl.
Qed.

Lemma lookup_upsert_other (j : string) (x : EmailAccount)
    (doc : list EmailAccount) :
  j <> id x -> lookup j (upsert (id x) x doc) = lookup j doc.
Proof.
  intros Hj.
  assert (Hx : String.eqb (id x) j = false)
    by (apply String.eqb_neq; congruence).
  destruct (upsert_spec (id x) x doc)
    as [(Hn & ->) | (l1 & old & l2 & -> & Hold & Hn & ->)].
  - rewrite lookup_app, lookup_cons, Hx. cbn.
    now destruct (lookup j doc).
  - rewrite !lookup_app, !lookup_cons, Hx, Hold, Hx. reflexivity.
Qed.

Lemma lookup_filter_other (i j : string) (doc : list EmailAccount) :
  j <> i ->
  lookup j (filter (fun a => negb (String.eqb (id a) i)) doc) = lookup j doc.
Proof.
  intros Hj. induction doc as [|a doc IH]; [reflexivity|].
  cbn [filter]. destruct (String.eqb (id a) i) eqn:Hi; cbn [negb].
  - rewrite lookup_cons. apply String.eqb_eq in Hi.
    assert (Ha : String.eqb (id a) j = false)
      by (apply String.eqb_neq; congruence).
    now rewrite Ha.
  - rewrite !lookup_cons. destruct (String.eqb (id a) j); [reflexivity|exact IH].
Qed.

Lemma forallb_upsert (p : EmailAccount -> bool) (i : string)
    (x : EmailAccount) (doc : list EmailAccount) :
  p x = true -> List.forallb p doc = true ->
  List.forallb p (upsert i x doc) = true.
Proof.
  intros Hx Hdoc.
  destruct (upsert_spec i x doc)
    as [(_ & ->) | (l1 & old & l2 & -> & _ & _ & ->)].
  - rewrite forallb_app, Hdoc. cbn. now rewrite Hx.
  - rewrite forallb_app in *. cbn in *.
    apply andb_true_iff in Hdoc as [H1 H2].
    apply andb_true_iff in H2 as [_ H2]. now rewrite H1, Hx, H2.
Qed.

Lemma forallb_filter_sub {A : Type} (p q : A -> bool) (l : list A) :
  List.forallb p l = true -> List.forallb p (filter q l) = true.
Proof.
  rewrite !forallb_forall. intros H x Hx. apply filter_In in Hx as [Hx _].
  now apply H.
Qed.

Section WritingFacts.

Context {C : NodeCrypto}.

(** [encryptAccount] on fields none of which is to encrypt: it returns
    the account and touches nothing. *)
Lemma encryptAccount_loop_idle (a : Auth) (fields : list SensitiveField)
    (w : World) :
  (forall f, In f fields -> is_plaintext (get_field f a) = false) ->
  encryptAccount_loop a fields w = (Ok a, w).
Proof.
  induction fields as [|f rest IH]; intros H; [reflexivity|].
  cbn [encryptAccount_loop].
  pose proof (H f (or_introl eq_refl)) as Hf.
  destruct (get_field f a) as [v|].
  - cbn in Hf. rewrite Hf. apply IH. intros g Hg. apply H. now right.
  - apply IH. intros g Hg. apply H. now right.
Qed.

Lemma encryptAccount_idle (a : EmailAccount) (w : World) :
  has_plaintext a = false -> encryptAccount a w = (Ok a, w).
Proof.
  intros H. unfold encryptAccount, bind.
  rewrite encryptAccount_loop_idle.
  - unfold ret. now rewrite with_auth_same.
  - intros f _. now apply has_plaintext_false.
Qed.

Lemma sensitive_fields_encrypted_plaintext (a : EmailAccount) :
  sensitive_fields_encrypted a = negb (has_plaintext a).
Proof.
  unfold sensitive_fields_encrypted, has_plaintext.
  induction SENSITIVE_AUTH_FIELDS as [|f l IH]; [reflexivity|].
  cbn [List.forallb existsb]. rewrite IH, negb_orb. f_equal.
  destruct (get_field f (auth a)) as [v|]; [|reflexivity].
  cbn. now rewrite negb_andb, negb_involutive.
Qed.

Lemma has_ciphertext_with_preset (a : EmailAccount) :
  has_ciphertext (with_preset a) = has_ciphertext a.
Proof. reflexivity. Qed.

Lemma has_plaintext_with_preset (a : EmailAccount) :
  has_plaintext (with_preset a) = has_plaintext a.
Proof. reflexivity. Qed.

End WritingFacts.

Section WritingMore.

Context {C : NodeCrypto} {L : NodeCryptoLaws C}.

(** A read under the key gives back the account a write has sealed under
    it, when no field of the account came tagged. *)
Lemma read_sealed_account (k : Buffer) (a a' : EmailAccount) :
  List.length k = KEY_LENGTH ->
  sealed_account k a a' ->
  has_ciphertext a = false ->
  read_account (Some k) a' = a.
Proof.
  intros Hlen Hs Hc.
  destruct Hs as (H1 & H2 & H3 & H4 & H5 & H6 & H7 & H8 & A1 & A2 & A3 & A4 & Hf).
  assert (Hauth : read_auth (Some k) (auth a') = auth a).
  { apply auth_ext; try assumption.
    intros f. rewrite get_field_read_auth.
    specialize (Hf f). pose proof (has_ciphertext_false a Hc f) as Hn.
    destruct (get_field f (auth a)) as [s|]; cbn in Hf.
    - cbn in Hn.
      destruct (JsString.truthy s) eqn:Ht; cbn [andb] in Hf, Hn.
      + rewrite Hn in Hf. cbn [negb] in Hf.
        destruct Hf as (iv & Hiv & ->). cbn.
        rewrite truthy_encrypt_with, isEncrypted_encrypt_with. cbn.
        now rewrite decrypt_with_encrypt_with.
      + rewrite Hf. cbn. now rewrite Ht.
    - now rewrite Hf. }
  unfold read_account. rewrite Hauth.
  destruct a, a'; unfold with_auth; cbn in *. congruence.
Qed.

(** What [addAccount] leaves: the effective key as it was, and the
    document either untouched, when it throws, or holding the upserted
    record, whose populated sensitive fields are tagged. *)
Lemma addAccount_frame (a : EmailAccount) (w w1 : World) (r : Result unit) :
  addAccount a w = (r, w1) ->
  effective_key w1 = effective_key w /\
  ((exists e, r = Throw e /\ accounts_file w1 = accounts_file w) \/
   (r = Ok tt /\ exists a',
      id a' = id a /\ sensitive_fields_encrypted a' = true /\
      accounts_file w1
      = AccountsDoc (upsert (id a) a' (raw_document w)))).
Proof.
  rewrite addAccount_unfold. cbv zeta.
  set (w0 := if config_dir w then w else set_config_dir true w).
  assert (Ha0 : accounts_file w0 = accounts_file w)
    by (unfold w0; now destruct (config_dir w)).
  assert (Hk0 : effective_key w0 = effective_key w)
    by (unfold w0; now destruct (config_dir w)).
  destruct (encryptAccount_run (with_preset a) w0)
    as (r0 & w' & Hrun & Hkey & Hev & _ & Hany).
  rewrite Hrun. destruct r0 as [a'|e]; intros [= <- <-].
  - split; [cbn; change (effective_key w' = effective_key w); congruence|].
    right. split; [reflexivity|]. exists a'.
    destruct (Hany a' eq_refl) as (P1 & P2 & _). now conjs.
  - split; [congruence|]. left. exists e. split; [reflexivity|].
    destruct Hev as (Hf & _). congruence.
Qed.

Lemma removeAccount_frame (i : string) (w w1 : World) (r : Result bool) :
  removeAccount i w = (r, w1) ->
  effective_key w1 = effective_key w /\
  (exists b, r = Ok b) /\
  (w1 = w \/
   accounts_file w1
   = AccountsDoc (filter (fun a => negb (String.eqb (id a) i))
                    (raw_document w))).
Proof.
  rewrite removeAccount_unfold. unfold raw_document.
  destruct (accounts_file w) as [| |doc]; try (intros [= <- <-]; eauto).
  cbv zeta. destruct (_ =? _); intros [= <- <-]; eauto.
Qed.

End WritingMore.

(** [getAccount] after [addAccount], under a resolved key. *)
Lemma addAccount_read_back {C : NodeCrypto} {L : NodeCryptoLaws C}
    (a : EmailAccount) (w : World) (k : Buffer) :
  fst (getLocalMasterKey w) = Ok k ->
  has_ciphertext a = false ->
  exists w1 w2,
    addAccount a w = (Ok tt, w1) /\
    getAccount (id a) w1 = (Ok (Some (with_preset a)), w2).
Proof.
  intros Hk Hc. apply getLocalMasterKey_resolves in Hk.
  destruct (addAccount_ok a w k Hk) as (a' & w1 & Hrun & Hs & Hfile & Hk1).
  destruct (getAccount_any (id a) w1) as (w2 & Hget & _).
  exists w1, w2. split; [exact Hrun|]. rewrite Hget, Hk1.
  unfold raw_document. rewrite Hfile.
  assert (Hid : id a' = id a) by apply Hs.
  rewrite <- Hid, lookup_upsert_same. cbn [option_map]. do 3 f_equal.
  apply read_sealed_account; [eapply effective_key_length; eassumption | exact Hs |].
  now rewrite has_ciphertext_with_preset.
Qed.


(** X10.  [addAccount] does not disturb the other accounts: whatever it
    returns, [getAccount] of another identifier answers afterwards what
    it answered before. *)
Theorem addAccount_keeps_other_accounts
    {C : NodeCrypto} {L : NodeCryptoLaws C}
    (a : EmailAccount) (w w1 : World) (r : Result unit) (j : string) :
  addAccount a w = (r, w1) ->
  j <> id a ->
  fst (getAccount j w1) = fst (getAccount j w).
Proof.
  intros Hrun Hj.
  destruct (addAccount_frame a w w1 r Hrun) as (Hk & Hdoc).
  destruct (getAccount_any j w) as (w2 & -> & _).
  destruct (getAccount_any j w1) as (w3 & -> & _).
  cbn [fst]. rewrite Hk. do 2 f_equal.
  destruct Hdoc as [(e & _ & Hf) | (_ & a' & Hid & _ & Hf)];
    unfold raw_document at 1; rewrite Hf; [reflexivity|].
  rewrite <- Hid. apply lookup_upsert_other. congruence.
Qed.

(** X11.  Without a master key [addAccount] fails as a whole or not at
    all: it throws and leaves the document as it was when the account
    holds a secret to encrypt, and stores the account as it is when it
    holds none. *)
Theorem addAccount_without_key {C : NodeCrypto} {L : NodeCryptoLaws C}
    (a : EmailAccount) (w : World) (e : Error) :
  fst (getLocalMasterKey w) = Throw e ->
  exists w',
    accounts_file w' = (if has_plaintext a then accounts_file w
                        else AccountsDoc (upsert (id a) (with_preset a)
                                            (raw_document w))) /\
    addAccount a w = (if has_plaintext a then Throw KeyFileUnreadable
                      else Ok tt, w').
Proof.
  intros He. apply key_unreadable in He.
  rewrite addAccount_unfold. cbv zeta.
  set (w0 := if config_dir w then w else set_config_dir true w).
  assert (Ha0 : accounts_file w0 = accounts_file w)
    by (unfold w0; now destruct (config_dir w)).
  assert (Hk0 : effective_key w0 = None)
    by (unfold w0; now destruct (config_dir w)).
  destruct (has_plaintext a) eqn:Hp.
  - destruct (encryptAccount_loop_run SENSITIVE_AUTH_FIELDS
                NoDup_SENSITIVE_AUTH_FIELDS (auth (with_preset a)) w0)
      as (r & w' & Hrun & _ & Hev & Hout).
    rewrite Hk0 in Hout.
    unfold encryptAccount, bind. rewrite Hrun.
    destruct Hout as [-> | [_ Hall]].
    + exists w'. split; [|reflexivity]. destruct Hev as (Hf & _). congruence.
    + exfalso. unfold has_plaintext in Hp.
      apply existsb_exists in Hp as (f & Hin & Hf).
      destruct (get_field f (auth a)) as [s|] eqn:Hs; [|discriminate].
      cbn in Hf. change (auth (with_preset a)) with (auth a) in Hall.
      rewrite (Hall f s Hin Hs) in Hf. discriminate.
  - rewrite encryptAccount_idle by now rewrite has_plaintext_with_preset.
    eexists. split; [|reflexivity]. reflexivity.
Qed.

(** X12.  [encryptAccount] is idempotent: the account it returns goes
    through it again unchanged, in any world and without the key. *)
Theorem encryptAccount_idempotent {C : NodeCrypto} {L : NodeCryptoLaws C}
    (a a' : EmailAccount) (w w' : World) :
  encryptAccount a w = (Ok a', w') ->
  forall w'', encryptAccount a' w'' = (Ok a', w'').
Proof.
  intros H w''.
  destruct (encryptAccount_run a w) as (r & w1 & Hrun & _ & _ & _ & Hany).
  rewrite Hrun in H. injection H as -> <-.
  destruct (Hany a' eq_refl) as (Henc & _).
  apply encryptAccount_idle.
  rewrite sensitive_fields_encrypted_plaintext in Henc.
  now apply negb_true_iff in Henc.
Qed.

(** X13.  After [removeAccount] of an identifier, a second removal of it
    returns [false] and changes nothing, and [getAccount] of any other
    identifier answers what it answered before. *)
Theorem removeAccount_twice_and_others
    {C : NodeCrypto} {L : NodeCryptoLaws C}
    (i : string) (w w1 : World) (b : bool) :
  removeAccount i w = (Ok b, w1) ->
  removeAccount i w1 = (Ok false, w1) /\
  forall j, j <> i -> fst (getAccount j w1) = fst (getAccount j w).
Proof.
  intros Hrun. split.
  - rewrite removeAccount_unfold in Hrun. rewrite removeAccount_unfold.
    destruct (accounts_file w) as [| |doc] eqn:Ha;
      try (injection Hrun as <- <-; now rewrite Ha).
    cbv zeta in Hrun.
    destruct (_ =? _) eqn:Hlen; injection Hrun as <- <-.
    + rewrite Ha. cbv zeta. now rewrite Hlen.
    + cbn [accounts_file add_stderr set_accounts_file]. cbv zeta.
      assert (Hsame : forall l : list EmailAccount,
                 List.length (filter (fun a => negb (String.eqb (id a) i))
                                (filter (fun a => negb (String.eqb (id a) i)) l))
                 = List.length (filter (fun a => negb (String.eqb (id a) i)) l)).
      { intros l. apply filter_length_same. intros x Hx.
        now apply filter_In in Hx as [_ Hx]. }
      rewrite Hsame, Nat.eqb_refl. reflexivity.
  - intros j Hj.
    destruct (removeAccount_frame i w w1 _ Hrun) as (Hk & _ & Hdoc).
    destruct (getAccount_any j w) as (w2 & -> & _).
    destruct (getAccount_any j w1) as (w3 & -> & _).
    cbn [fst]. rewrite Hk. do 2 f_equal.
    destruct Hdoc as [-> | Hf]; [reflexivity|].
    unfold raw_document at 1. rewrite Hf. now apply lookup_filter_other.
Qed.

(** ** What no call of the store does to the secrets *)

Lemma secrets_kept_refl (w : World) : secrets_kept w w.
Proof. unfold secrets_kept. conjs; auto. Qed.

Lemma secrets_kept_trans (w1 w2 w3 : World) :
  secrets_kept w1 w2 -> secrets_kept w2 w3 -> secrets_kept w1 w3.
Proof.
  intros (E1 & T1 & P1 & K1 & V1) (E2 & T2 & P2 & K2 & V2).
  unfold secrets_kept. conjs; try congruence; try lia.
  - intros H. rewrite K2; [now apply K1|]. rewrite K1; assumption.
  - intros H. rewrite V2; [now apply V1|]. now rewrite E1.
Qed.

(** A step that touches neither the environment, the tape nor the key
    file, and does not move the generator back. *)
Lemma secrets_kept_same (w w' : World) :
  env_MCP_MASTER_KEY w' = env_MCP_MASTER_KEY w ->
  random_tape w' = random_tape w ->
  random_pos w <= random_pos w' ->
  key_file w' = key_file w ->
  secrets_kept w w'.
Proof. intros. unfold secrets_kept. conjs; auto. Qed.

Lemma secrets_kept_ensureConfigDir (w : World) :
  secrets_kept w (if config_dir w then w else set_config_dir true w).
Proof.
  destruct (config_dir w); [apply secrets_kept_refl|].
  now apply secrets_kept_same.
Qed.

Section SecretsKept.

Context {C : NodeCrypto}.

Lemma secrets_kept_getLocalMasterKey (w : World) :
  secrets_kept w (snd (getLocalMasterKey w)).
Proof.
  destruct (getLocalMasterKey_cases w)
    as [[k ->] | [-> | (He & Hk & k & w' & -> & _ & Hp & Ht & _ & Hv)]];
    cbn [snd]; try apply secrets_kept_refl.
  unfold secrets_kept. conjs; auto; try lia.
  - intros H. now elim H.
  - intros H. rewrite He in H. now elim H.
Qed.

Lemma secrets_kept_decrypt (v : string) (w : World) :
  secrets_kept w (snd (decrypt v w)).
Proof.
  unfold decrypt.
  destruct (negb (JsString.truthy v) || negb (isEncrypted v));
    [apply secrets_kept_refl|].
  destruct (JsString.startsWith PREFIX_LOCAL v); [|apply secrets_kept_refl].
  pose proof (secrets_kept_getLocalMasterKey w) as H.
  unfold decryptLocal, bind.
  destruct (getLocalMasterKey w) as [[k|e] w1]; cbn [snd] in *; [|exact H].
  destruct (JsString.split _ _) as [|p0 [|p1 [|p2 [|p3 ps]]]]; try exact H.
  destruct (gcm_decrypt _ _ _ _); exact H.
Qed.

Lemma secrets_kept_encrypt (s : string) (w : World) :
  secrets_kept w (snd (encrypt s w)).
Proof.
  destruct (JsString.truthy s) eqn:Ht.
  2:{ unfold encrypt. rewrite Ht. apply secrets_kept_refl. }
  destruct (isEncrypted s) eqn:He.
  1:{ unfold encrypt. rewrite Ht, He. apply secrets_kept_refl. }
  rewrite (encrypt_unfold s w Ht He).
  pose proof (secrets_kept_getLocalMasterKey w) as H.
  destruct (getLocalMasterKey w) as [[k|e] w1]; cbn [snd] in *; [|exact H].
  eapply secrets_kept_trans; [exact H|].
  apply secrets_kept_same; cbn; auto. lia.
Qed.

Lemma secrets_kept_decryptAccount_loop (account : EmailAccount) (a : Auth)
    (fields : list SensitiveField) (w : World) :
  secrets_kept w (snd (decryptAccount_loop account a fields w)).
Proof.
  induction fields as [|f rest IH]; [apply secrets_kept_refl|].
  cbn [decryptAccount_loop].
  destruct (get_field f a) as [v|]; [|exact IH].
  destruct (JsString.truthy v && isEncrypted v); [|exact IH].
  pose proof (secrets_kept_decrypt v w) as H.
  destruct (decrypt v w) as [r w']. exact H.
Qed.

Lemma secrets_kept_decryptAccount_resume (t : Call) (w : World) :
  secrets_kept w (snd (decryptAccount_resume t w)).
Proof.
  unfold decryptAccount_resume.
  destruct (call_awaiting t) as [[f [p|e]]|].
  - apply secrets_kept_decryptAccount_loop.
  - eapply secrets_kept_trans;
      [|apply secrets_kept_decryptAccount_loop].
    now apply secrets_kept_same.
  - apply secrets_kept_refl.
Qed.

Lemma secrets_kept_map_world {A B : Type} (f : A -> World -> B * World)
    (l : list A) :
  (forall a w, secrets_kept w (snd (f a w))) ->
  forall w, secrets_kept w (snd (map_world f l w)).
Proof.
  intros H. induction l as [|a l IH]; intros w; [apply secrets_kept_refl|].
  cbn [map_world]. pose proof (H a w) as H1.
  destruct (f a w) as [b w1]. pose proof (IH w1) as H2.
  destruct (map_world f l w1) as [bs w2].
  eapply secrets_kept_trans; [exact H1 | exact H2].
Qed.

Lemma secrets_kept_run_jobs (n : nat) (calls : list Call) (w : World) :
  secrets_kept w (snd (run_jobs n calls w)).
Proof.
  revert calls w. induction n as [|n IH]; intros calls w;
    [apply secrets_kept_refl|].
  cbn [run_jobs].
  pose proof (secrets_kept_map_world decryptAccount_resume calls
                secrets_kept_decryptAccount_resume w) as H1.
  destruct (map_world decryptAccount_resume calls w) as [calls' w1].
  eapply secrets_kept_trans; [exact H1 | apply IH].
Qed.

Lemma secrets_kept_getAccounts (w : World) :
  secrets_kept w (snd (getAccounts w)).
Proof.
  pose proof (secrets_kept_ensureConfigDir w) as H0.
  unfold getAccounts, bind at 1, ensureConfigDir.
  set (w0 := if config_dir w then w else set_config_dir true w) in *.
  replace (if config_dir w then (Ok tt, w) else (Ok tt, set_config_dir true w))
    with (@Ok unit tt, w0) by (unfold w0; now destruct (config_dir w)).
  unfold bind, existsSync_ACCOUNTS_FILE, parse_ACCOUNTS_FILE.
  destruct (accounts_file w0) as [| |doc] eqn:Ha; cbn; rewrite ?Ha; cbn;
    try exact H0.
  unfold Promise_all_decryptAccount.
  pose proof (secrets_kept_map_world decryptAccount_start doc
                (fun a v => secrets_kept_decryptAccount_loop a (auth a)
                              SENSITIVE_AUTH_FIELDS v) w0) as H1.
  destruct (map_world decryptAccount_start doc w0) as [calls w1].
  pose proof (secrets_kept_run_jobs (List.length SENSITIVE_AUTH_FIELDS)
                calls w1) as H2.
  destruct (run_jobs _ calls w1) as [calls' w2]. cbn [snd] in *.
  eapply secrets_kept_trans; [exact H0|].
  eapply secrets_kept_trans; [exact H1 | exact H2].
Qed.

Lemma secrets_kept_getAccount (i : string) (w : World) :
  secrets_kept w (snd (getAccount i w)).
Proof.
  pose proof (secrets_kept_getAccounts w) as H.
  unfold getAccount, bind.
  destruct (getAccounts w) as [[l|e] w1]; exact H.
Qed.

Lemma secrets_kept_encryptAccount_loop (fields : list SensitiveField) :
  forall (a : Auth) (w : World),
  secrets_kept w (snd (encryptAccount_loop a fields w)).
Proof.
  induction fields as [|f rest IH]; intros a w; [apply secrets_kept_refl|].
  cbn [encryptAccount_loop].
  destruct (get_field f a) as [v|]; [|apply IH].
  destruct (JsString.truthy v && negb (isEncrypted v)); [|apply IH].
  pose proof (secrets_kept_encrypt v w) as H. unfold bind.
  destruct (encrypt v w) as [[c|e] w1]; cbn [snd] in *; [|exact H].
  eapply secrets_kept_trans; [exact H | apply IH].
Qed.

Lemma secrets_kept_addAccount (a : EmailAccount) (w : World) :
  secrets_kept w (snd (addAccount a w)).
Proof.
  rewrite addAccount_unfold. cbv zeta.
  pose proof (secrets_kept_ensureConfigDir w) as H0.
  set (w0 := if config_dir w then w else set_config_dir true w) in *.
  pose proof (secrets_kept_encryptAccount_loop SENSITIVE_AUTH_FIELDS
                (auth (with_preset a)) w0) as H1.
  unfold encryptAccount, bind.
  destruct (encryptAccount_loop _ _ w0) as [[au|e] w1]; cbn [snd] in *.
  - eapply secrets_kept_trans; [exact H0|].
    eapply secrets_kept_trans; [exact H1|].
    now apply secrets_kept_same.
  - eapply secrets_kept_trans; [exact H0 | exact H1].
Qed.

Lemma secrets_kept_removeAccount (i : string) (w : World) :
  secrets_kept w (snd (removeAccount i w)).
Proof.
  rewrite removeAccount_unfold.
  destruct (accounts_file w) as [| |doc]; try apply secrets_kept_refl.
  cbv zeta. destruct (_ =? _); [apply secrets_kept_refl|].
  now apply secrets_kept_same.
Qed.

Lemma secrets_kept_run_call (c : StoreCall) (w : World) :
  secrets_kept w (run_call c w).
Proof.
  destruct c; cbn [run_call].
  - apply secrets_kept_getAccounts.
  - apply secrets_kept_getAccount.
  - apply secrets_kept_addAccount.
  - apply secrets_kept_removeAccount.
Qed.

End SecretsKept.

Lemma disk_invariant_raw {C : NodeCrypto} (w : World) :
  disk_invariant w = List.forallb sensitive_fields_encrypted (raw_document w).
Proof.
  unfold disk_invariant, raw_document. now destruct (accounts_file w).
Qed.

Section Sequences.

Context {C : NodeCrypto} {L : NodeCryptoLaws C}.

Lemma effective_key_run_call (c : StoreCall) (w : World) :
  effective_key (run_call c w) = effective_key w.
Proof.
  destruct c as [|i|a|i]; cbn [run_call].
  - destruct (getAccounts_any w) as (w' & -> & Hk & _). exact Hk.
  - destruct (getAccount_any i w) as (w' & -> & Hk & _). exact Hk.
  - destruct (addAccount a w) as [r w1] eqn:Hrun.
    apply (addAccount_frame a w w1 r Hrun).
  - destruct (removeAccount i w) as [r w1] eqn:Hrun.
    apply (removeAccount_frame i w w1 r Hrun).
Qed.

Lemma document_run_call (c : StoreCall) (w : World) :
  unique_ids (raw_document w) /\ disk_invariant w = true ->
  unique_ids (raw_document (run_call c w)) /\
  disk_invariant (run_call c w) = true.
Proof.
  intros [Hu Hd]. rewrite disk_invariant_raw in *.
  destruct c as [|i|a|i]; cbn [run_call].
  - destruct (getAccounts_any w) as (w' & -> & _ & Hev). cbn [snd].
    now rewrite (raw_document_evolves _ _ Hev).
  - destruct (getAccount_any i w) as (w' & -> & _ & Hev). cbn [snd].
    now rewrite (raw_document_evolves _ _ Hev).
  - destruct (addAccount a w) as [r w1] eqn:Hrun. cbn [snd].
    split; [exact (proj1 (unique_ids_kept w Hu) a r w1 Hrun)|].
    destruct (addAccount_frame a w w1 r Hrun)
      as (_ & [(e & _ & Hf) | (_ & a' & _ & Ha' & Hf)]);
      unfold raw_document at 1; rewrite Hf.
    + exact Hd.
    + now apply forallb_upsert.
  - destruct (removeAccount i w) as [r w1] eqn:Hrun. cbn [snd].
    split; [exact (proj2 (unique_ids_kept w Hu) i r w1 Hrun)|].
    destruct (removeAccount_frame i w w1 r Hrun) as (_ & _ & [-> | Hf]);
      [exact Hd|].
    unfold raw_document at 1. rewrite Hf. now apply forallb_filter_sub.
Qed.

End Sequences.

(** X14.  No sequence of calls of the store changes the master key: the
    key [getLocalMasterKey] resolves before is the one it resolves
    after, the environment is untouched, a key file that exists is never
    rewritten, none is created while [MCP_MASTER_KEY] is set, and the
    random generator never moves back. *)
Theorem store_calls_keep_the_key {C : NodeCrypto} {L : NodeCryptoLaws C}
    (cs : list StoreCall) (w : World) :
  fst (getLocalMasterKey (run_calls cs w)) = fst (getLocalMasterKey w) /\
  env_MCP_MASTER_KEY (run_calls cs w) = env_MCP_MASTER_KEY w /\
  (key_file w <> KeyFileAbsent -> key_file (run_calls cs w) = key_file w) /\
  (if_truthy (env_MCP_MASTER_KEY w) <> None ->
   key_file (run_calls cs w) = key_file w) /\
  random_tape (run_calls cs w) = random_tape w /\
  random_pos w <= random_pos (run_calls cs w).
Proof.
  assert (Hboth : effective_key (run_calls cs w) = effective_key w /\
                  secrets_kept w (run_calls cs w)).
  { revert w. induction cs as [|c cs IH]; intros w.
    - split; [reflexivity | apply secrets_kept_refl].
    - cbn [run_calls]. destruct (IH (run_call c w)) as [Hk Hs]. split.
      + rewrite Hk. apply effective_key_run_call.
      + eapply secrets_kept_trans; [apply secrets_kept_run_call | exact Hs]. }
  destruct Hboth as [Hkey Hkept].
  destruct Hkept as (E & T & P & K & V).
  split; [|now conjs].
  destruct (getLocalMasterKey_run w) as (w1 & -> & _).
  destruct (getLocalMasterKey_run (run_calls cs w)) as (w2 & -> & _).
  cbn [fst]. now rewrite Hkey.
Qed.

(** X15.  Every sequence of calls of the store keeps the document sound:
    if its identifiers are pairwise distinct and its populated sensitive
    fields are tagged before, they are after. *)
Theorem store_calls_keep_the_document_sound
    {C : NodeCrypto} {L : NodeCryptoLaws C}
    (cs : list StoreCall) (w : World) :
  unique_ids (raw_document w) ->
  disk_invariant w = true ->
  unique_ids (raw_document (run_calls cs w)) /\
  disk_invariant (run_calls cs w) = true.
Proof.
  intros Hu Hd. revert w Hu Hd.
  induction cs as [|c cs IH]; intros w Hu Hd; [now split|].
  cbn [run_calls].
  destruct (document_run_call c w (conj Hu Hd)) as [Hu' Hd'].
  now apply IH.
Qed.

(** ** The tools *)

Lemma has_ciphertext_execute_account {C : NodeCrypto} (args : AddAccountArgs)
    (a : EmailAccount) :
  execute_account args = Some a ->
  isEncrypted (arg_password args) = false ->
  has_ciphertext a = false.
Proof.
  intros Ha H.
  destruct (execute_account_fields args a Ha) as (_ & _ & _ & _ & _ & Hauth).
  unfold has_ciphertext. rewrite Hauth. cbn. rewrite H.
  now rewrite andb_false_r.
Qed.

(** X16.  Strings are those of this file, of code units below 256.
    When the object [add_email_account] builds is an [EmailAccount] [a],
    that is when its provider is given or is detected as a provider, and
    the password does not begin with the format tag: after the tool has
    stored [a] under a resolved key, [getAccount] of the identifier
    derived from the address returns [a], with the address and the
    password as they were typed. *)
Theorem execute_addAccount_then_getAccount
    {C : NodeCrypto} {L : NodeCryptoLaws C}
    (args : AddAccountArgs) (w : World) (k : Buffer) (a : EmailAccount) :
  fst (getLocalMasterKey w) = Ok k ->
  isEncrypted (arg_password args) = false ->
  execute_account args = Some a ->
  exists run w1 w2,
    execute_addAccount args = Some run /\
    run w = (Ok tt, w1) /\
    getAccount (account_id_of_email (arg_email args)) w1
    = (Ok (Some a), w2) /\
    execute_provider args = DetectedProvider (provider a) /\
    email a = arg_email args /\
    password (auth a) = Some (arg_password args).
Proof.
  intros Hk Hp Ha.
  destruct (execute_account_fields args a Ha)
    as (Hprov & Hid & Hemail & _ & _ & Hauth).
  destruct (addAccount_read_back a w k Hk
              (has_ciphertext_execute_account args a Ha Hp))
    as (w1 & w2 & Hadd & Hget).
  rewrite (with_preset_execute_account args a Ha), Hid in Hget.
  exists (addAccount a), w1, w2. conjs; auto.
  - unfold execute_addAccount. now rewrite Ha.
  - now rewrite Hauth.
Qed.

(** X17.  [remove_email_account] removes nothing unless [confirm] is
    [true]: then it touches nothing at all.  Confirmed, it reports an
    identifier the document does not hold and leaves the document as it
    is, or removes every record with the identifier and reports the
    address of the first.  It never answers [Failed to remove account]. *)
Theorem remove_account_execute_cases {C : NodeCrypto} {L : NodeCryptoLaws C}
    (args : RemoveAccountArgs) (w : World) :
  (arg_confirm args <> Some true ->
   remove_account_execute args w
   = (Ok {| tool_success := false;
            tool_error :=
              Some "Deletion not confirmed. Set confirm=true to proceed.";
            tool_message := None |}, w)) /\
  (arg_confirm args = Some true ->
   exists w',
     match lookup (arg_account_id args) (raw_document w) with
     | None =>
         remove_account_execute args w
         = (Ok {| tool_success := false;
                  tool_error :=
                    Some ("Account not found: " ++ arg_account_id args)%string;
                  tool_message := None |}, w') /\
         accounts_file w' = accounts_file w
     | Some a =>
         remove_account_execute args w
         = (Ok {| tool_success := true;
                  tool_error := None;
                  tool_message :=
                    Some ("Account removed: " ++ email a)%string |}, w') /\
         accounts_file w'
         = AccountsDoc
             (filter (fun x => negb (String.eqb (id x) (arg_account_id args)))
                (raw_document w))
     end) /\
  (forall r w',
     remove_account_execute args w = (r, w') ->
     exists t, r = Ok t /\ tool_error t <> Some "Failed to remove account").
Proof.
  assert (Hno : arg_confirm args <> Some true ->
    remove_account_execute args w
    = (Ok {| tool_success := false;
             tool_error :=
               Some "Deletion not confirmed. Set confirm=true to proceed.";
             tool_message := None |}, w)).
  { intros Hc. unfold remove_account_execute.
    destruct (arg_confirm args) as [[|]|]; [now elim Hc | reflexivity..]. }
  assert (Hyes : arg_confirm args = Some true ->
   exists w',
     match lookup (arg_account_id args) (raw_document w) with
     | None =>
         remove_account_execute args w
         = (Ok {| tool_success := false;
                  tool_error :=
                    Some ("Account not found: " ++ arg_account_id args)%string;
                  tool_message := None |}, w') /\
         accounts_file w' = accounts_file w
     | Some a =>
         remove_account_execute args w
         = (Ok {| tool_success := true;
                  tool_error := None;
                  tool_message :=
                    Some ("Account removed: " ++ email a)%string |}, w') /\
         accounts_file w'
         = AccountsDoc
             (filter (fun x => negb (String.eqb (id x) (arg_account_id args)))
                (raw_document w))
     end).
  { intros Hc. unfold remove_account_execute. rewrite Hc. cbn [negb].
    set (i := arg_account_id args).
    destruct (getAccount_any i w) as (w1 & Hget & _ & Hev).
    destruct (lookup i (raw_document w)) as [a|] eqn:Hl;
      unfold bind at 1; rewrite Hget; cbn [option_map].
    - apply lookup_In in Hl as [Hin Hid].
      assert (Hfile : accounts_file w1 = AccountsDoc (raw_document w)).
      { destruct Hev as (Hf & _). rewrite Hf. unfold raw_document in *.
        destruct (accounts_file w); [destruct Hin..|reflexivity]. }
      unfold bind. rewrite removeAccount_unfold, Hfile. cbv zeta.
      destruct (Nat.eqb_spec
                  (List.length
                     (filter (fun x => negb (String.eqb (id x) i))
                        (raw_document w)))
                  (List.length (raw_document w))) as [Heq|Hne].
      + exfalso. pose proof (proj1 (filter_length_same _ _) Heq a Hin) as Hp.
        cbn in Hp. rewrite Hid, String.eqb_refl in Hp. discriminate.
      + cbn [negb]. eexists. split; reflexivity.
    - exists w1. split; [reflexivity|]. apply Hev. }
  conjs; [exact Hno | exact Hyes |].
  intros r w' Hrun.
  destruct (arg_confirm args) as [[|]|] eqn:Hc.
  - destruct (Hyes eq_refl) as (w1 & H).
    destruct (lookup (arg_account_id args) (raw_document w));
      destruct H as (H & _); rewrite H in Hrun; injection Hrun as <- <-;
      eexists; split; try reflexivity; discriminate.
  - rewrite Hno in Hrun by discriminate. injection Hrun as <- <-.
    eexists; split; try reflexivity; discriminate.
  - rewrite Hno in Hrun by discriminate. injection Hrun as <- <-.
    eexists; split; try reflexivity; discriminate.
Qed.

(** X18.  [list_email_accounts] shows one entry for each stored record,
    in the order of the document, with its identifier, address, provider
    and flag; the answer does not depend on the master key, unreadable
    or not, and the document is left as it is. *)
Theorem list_accounts_execute_summaries
    {C : NodeCrypto} {L : NodeCryptoLaws C} (w : World) :
  exists w',
    list_accounts_execute w = (Ok (map summary (raw_document w)), w') /\
    accounts_file w' = accounts_file w.
Proof.
  destruct (getAccounts_any w) as (w' & Hrun & _ & Hev).
  exists w'. unfold list_accounts_execute, bind. rewrite Hrun.
  split; [|apply Hev]. unfold ret. now rewrite map_map.
Qed.

(** ** Identifiers and providers *)

Module AsciiFacts.
Import JsString.

Lemma id_char_is_id_char (c : ascii) : is_id_char (id_char c) = true.
Proof. destruct c as [[] [] [] [] [] [] [] []]; reflexivity. Qed.

Lemma id_char_idempotent (c : ascii) : id_char (id_char c) = id_char c.
Proof. destruct c as [[] [] [] [] [] [] [] []]; reflexivity. Qed.

Lemma id_char_lower_char (c : ascii) : id_char (lower_char c) = id_char c.
Proof. destruct c as [[] [] [] [] [] [] [] []]; reflexivity. Qed.

Lemma lower_char_idempotent (c : ascii) :
  lower_char (lower_char c) = lower_char c.
Proof. destruct c as [[] [] [] [] [] [] [] []]; reflexivity. Qed.

Lemma lower_char_not_at (c : ascii) :
  negb (Ascii.eqb c "@") = true -> negb (Ascii.eqb (lower_char c) "@") = true.
Proof. destruct c as [[] [] [] [] [] [] [] []]; cbn; auto. Qed.

Lemma account_id_of_email_cons (c : ascii) (e : string) :
  account_id_of_email (String c e)
  = String (id_char c) (account_id_of_email e).
Proof. reflexivity. Qed.

Lemma toLowerCase_idempotent (s : string) :
  toLowerCase (toLowerCase s) = toLowerCase s.
Proof.
  induction s as [|c s IH]; [reflexivity|].
  cbn. now rewrite lower_char_idempotent, IH.
Qed.

Lemma toLowerCase_not_at (s : string) :
  forallb (fun c => negb (Ascii.eqb c "@")) s = true ->
  forallb (fun c => negb (Ascii.eqb c "@")) (toLowerCase s) = true.
Proof.
  induction s as [|c s IH]; [reflexivity|]. cbn.
  intros H. apply andb_true_iff in H as [Hc Hs].
  now rewrite (lower_char_not_at c Hc), IH.
Qed.

End AsciiFacts.

(** X19.  The identifier [add_email_account] derives from an address has
    the length of the address and consists of digits, small letters and
    hyphens; deriving is idempotent and ignores the case of the
    address. *)
Theorem account_id_of_email_shape (e : string) :
  String.length (account_id_of_email e) = String.length e /\
  JsString.forallb is_id_char (account_id_of_email e) = true /\
  account_id_of_email (account_id_of_email e) = account_id_of_email e /\
  account_id_of_email (JsString.toLowerCase e) = account_id_of_email e.
Proof.
  induction e as [|c e (H1 & H2 & H3 & H4)]; [now conjs|].
  cbn [JsString.toLowerCase].
  rewrite !AsciiFacts.account_id_of_email_cons.
  cbn [String.length JsString.forallb].
  rewrite AsciiFacts.id_char_is_id_char, AsciiFacts.id_char_idempotent,
    AsciiFacts.id_char_lower_char, H1, H2, H3, H4.
  now conjs.
Qed.

(** A string in small letters is none of the inherited names that hold a
    capital letter. *)
Lemma toLowerCase_eqb_mixed (d key : string) :
  JsString.toLowerCase key <> key ->
  String.eqb (JsString.toLowerCase d) key = false.
Proof.
  intros H. apply String.eqb_neq. intros E. apply H.
  rewrite <- E. apply AsciiFacts.toLowerCase_idempotent.
Qed.

(** So of the twelve inherited names a domain in small letters can only
    be [constructor] or [__proto__]. *)
Lemma inherited_toLowerCase (d : string) :
  existsb (String.eqb (JsString.toLowerCase d)) Object_prototype_keys
  = String.eqb (JsString.toLowerCase d) "constructor"
    || String.eqb (JsString.toLowerCase d) "__proto__".
Proof.
  unfold Object_prototype_keys. cbn [existsb].
  repeat match goal with
         | |- context [String.eqb (JsString.toLowerCase d) ?key] =>
             rewrite (toLowerCase_eqb_mixed d key) by (cbv; discriminate)
         end.
  cbn [orb]. now rewrite orb_false_r.
Qed.

Lemma detectProvider_split (l d : string) :
  JsString.forallb (fun c => negb (Ascii.eqb c "@")) l = true ->
  JsString.forallb (fun c => negb (Ascii.eqb c "@")) d = true ->
  detectProvider (l ++ "@" ++ d)
  = match lookup_domain (JsString.toLowerCase d) domainMap with
    | Some p => DetectedProvider p
    | None =>
        if String.eqb (JsString.toLowerCase d) "constructor"
           || String.eqb (JsString.toLowerCase d) "__proto__"
        then DetectedInherited (JsString.toLowerCase d)
        else DetectedProvider custom
    end.
Proof.
  intros Hl Hd. unfold detectProvider.
  cbn [append]. rewrite (JsStringFacts.split_app "@" l d Hl).
  rewrite (JsStringFacts.split_none "@" d Hd). cbn [nth_error].
  cbv zeta. unfold domainMap_get. rewrite inherited_toLowerCase.
  destruct (JsString.toLowerCase d) as [|c s] eqn:E; [reflexivity|].
  cbn [JsString.truthy].
  destruct (lookup_domain (String c s) domainMap); [reflexivity|].
  now destruct (String.eqb (String c s) "constructor"
                || String.eqb (String c s) "__proto__").
Qed.

(** X20.  Strings are those of this file, of code units below 256.
    [detectProvider] looks at the domain only, and ignores its case: an
    address without [@] is [custom]; for an address with one [@],
    whatever the local part, the result is the entry of the table for the
    domain in small letters; when the table has no such entry it is
    [custom], but for the domains [constructor] and [__proto__], for
    which the lookup finds the member the table inherits from
    [Object.prototype], and [detectProvider] returns that member, which
    is no provider. *)
Theorem detectProvider_by_domain (l d : string) :
  JsString.forallb (fun c => negb (Ascii.eqb c "@")) l = true ->
  JsString.forallb (fun c => negb (Ascii.eqb c "@")) d = true ->
  detectProvider l = DetectedProvider custom /\
  detectProvider (l ++ "@" ++ d)
  = match lookup_domain (JsString.toLowerCase d) domainMap with
    | Some p => DetectedProvider p
    | None =>
        if String.eqb (JsString.toLowerCase d) "constructor"
           || String.eqb (JsString.toLowerCase d) "__proto__"
        then DetectedInherited (JsString.toLowerCase d)
        else DetectedProvider custom
    end /\
  detectProvider (l ++ "@" ++ JsString.toLowerCase d)
  = detectProvider (l ++ "@" ++ d).
Proof.
  intros Hl Hd. conjs.
  - unfold detectProvider. now rewrite (JsStringFacts.split_none "@" l Hl).
  - now apply detectProvider_split.
  - rewrite !detectProvider_split; auto.
    + now rewrite AsciiFacts.toLowerCase_idempotent.
    + now apply AsciiFacts.toLowerCase_not_at.
Qed.

(* ===================================================================== *)
(** * The further properties on the test machine                         *)
(* ===================================================================== *)

Section FurtherOnTestNode.

Import TestNode.

(** X1 on the machine with nothing on it: the key it generates is the
    key of the next call. *)
Lemma getLocalMasterKey_settles_witness :
  getLocalMasterKey (snd (getLocalMasterKey fresh_world))
  = (Ok (fst_of (getLocalMasterKey fresh_world)),
     snd (getLocalMasterKey fresh_world)).
Proof.
  exact (getLocalMasterKey_settles fresh_world
           (snd (getLocalMasterKey fresh_world))
           (fst_of (getLocalMasterKey fresh_world)) eq_refl
           (snd (getLocalMasterKey fresh_world)) eq_refl eq_refl).
Defined.

(** X2: a plain string where the key file cannot be read, and a tagged
    string that is not well formed. *)
Lemma decrypt_untagged_and_errors_witness :
  decrypt "Secret1" (locked_world None) = (Ok "Secret1", locked_world None) /\
  isEncrypted "enc:local:corrupt" = true /\
  (InvalidLocalFormat = KeyFileUnreadable \/
   InvalidLocalFormat = InvalidLocalFormat \/
   InvalidLocalFormat = DecipherFailure).
Proof.
  split.
  - exact (proj1 (decrypt_untagged_and_errors "Secret1" (locked_world None))
             eq_refl).
  - exact (proj2 (decrypt_untagged_and_errors "enc:local:corrupt"
                    (env_world "k"))
             InvalidLocalFormat (env_world "k") eq_refl).
Defined.

(** X3: a tagged value with no colon after the tag. *)
Lemma decrypt_invalid_format_witness :
  fst (decrypt "enc:local:corrupt" (env_world "k")) = Throw InvalidLocalFormat
  <-> count_char ":" (JsString.slice 10 "enc:local:corrupt") <> 2.
Proof.
  exact (decrypt_invalid_format "enc:local:corrupt" (env_world "k") key_k
           eq_refl eq_refl).
Defined.

(** X4: the encryption of ["Secret1"] on the machine with nothing on it. *)
Lemma encrypt_output_format_witness :
  exists c w',
    encrypt "Secret1" fresh_world = (Ok c, w') /\
    exists p0 p1 p2,
      c = ("enc:local:" ++ p0 ++ ":" ++ p1 ++ ":" ++ p2)%string /\
      JsString.split ":" (JsString.slice 10 c) = [p0; p1; p2] /\
      JsString.forallb is_base64_char p0 = true /\
      JsString.forallb is_base64_char p1 = true /\
      JsString.forallb is_base64_char p2 = true /\
      List.length (fromBase64 p0) = 16 /\
      isEncrypted c = true.
Proof.
  eexists _, _. split; [vm_compute; reflexivity|].
  eapply (encrypt_output_format "Secret1" _ fresh_world);
    [reflexivity | reflexivity | vm_compute; reflexivity].
Defined.

(** X5: two encryptions in a row on the machine with nothing on it. *)
Lemma encrypt_nonces_fresh_witness :
  exists c1 c2 w1 w2,
    encrypt "Secret1" fresh_world = (Ok c1, w1) /\
    encrypt "Secret2" w1 = (Ok c2, w2) /\
    exists p1 p2,
      nonce_of c1 = map (random_tape fresh_world) (seq p1 16) /\
      nonce_of c2 = map (random_tape fresh_world) (seq p2 16) /\
      random_pos fresh_world <= p1 /\ p1 + 16 = random_pos w1 /\
      random_pos w1 = p2 /\ p2 + 16 = random_pos w2.
Proof.
  eexists _, _, _, _. split; [vm_compute; reflexivity|].
  split; [vm_compute; reflexivity|].
  eapply (encrypt_nonces_fresh "Secret1" "Secret2" _ _ fresh_world);
    try reflexivity; vm_compute; reflexivity.
Defined.

(** X6: a stored token and a key file that cannot be read. *)
Lemma getAccounts_without_key_witness :
  exists w',
    getAccounts (machine None KeyFileLocked (AccountsDoc [token_account]))
    = (Ok [token_account], w') /\
    accounts_file w' = AccountsDoc [token_account] /\
    forall a f, In a [token_account] ->
      is_ciphertext (get_field f (auth a)) = true ->
      In (LogDecryptFailed f (email a)) (stderr w').
Proof.
  exact (getAccounts_without_key
           (machine None KeyFileLocked (AccountsDoc [token_account]))
           KeyFileUnreadable eq_refl).
Defined.

(** X7: a document with a plaintext password, on a machine without a
    key. *)
Lemma getAccounts_plain_document_witness :
  getAccounts (machine None KeyFileAbsent (AccountsDoc [secret1_account]))
  = (Ok [secret1_account],
     machine None KeyFileAbsent (AccountsDoc [secret1_account])).
Proof.
  exact (getAccounts_plain_document
           (machine None KeyFileAbsent (AccountsDoc [secret1_account]))
           [secret1_account] eq_refl eq_refl).
Defined.

(** X8: two reads of a stored token on a machine that generates its key
    in the first. *)
Lemma getAccounts_twice_witness :
  exists accounts w' w'',
    getAccounts (machine None KeyFileAbsent (AccountsDoc [token_account]))
    = (Ok accounts, w') /\
    getAccounts w' = (Ok accounts, w'').
Proof.
  eexists _, _. 
  assert (H : getAccounts (machine None KeyFileAbsent (AccountsDoc [token_account]))
              = (Ok _, _)) by (vm_compute; reflexivity).
  destruct (getAccounts_twice _ _ _ H) as (w'' & H2).
  exists w''. split; [exact H | exact H2].
Defined.


(** X10: an account added beside a stored one. *)
Lemma addAccount_keeps_other_accounts_witness :
  exists r w1,
    addAccount (account "c-d-com" "c@d.com" (Some "pw") None)
      (stored_world [token_account]) = (r, w1) /\
    fst (getAccount "a-b-com" w1)
    = fst (getAccount "a-b-com" (stored_world [token_account])).
Proof.
  eexists _, _. split; [vm_compute; reflexivity|].
  eapply (addAccount_keeps_other_accounts
            (account "c-d-com" "c@d.com" (Some "pw") None)
            (stored_world [token_account]));
    [vm_compute; reflexivity | discriminate].
Defined.

(** X11: an account with a password where the key file cannot be
    read. *)
Lemma addAccount_without_key_witness :
  exists w',
    accounts_file w' = accounts_file (locked_world None) /\
    addAccount secret1_account (locked_world None)
    = (Throw KeyFileUnreadable, w').
Proof.
  exact (addAccount_without_key secret1_account (locked_world None)
           KeyFileUnreadable eq_refl).
Defined.

(** X12: the account [a@b.com] encrypted twice. *)
Lemma encryptAccount_idempotent_witness :
  exists a' w',
    encryptAccount secret1_account (env_world "k") = (Ok a', w') /\
    forall w'', encryptAccount a' w'' = (Ok a', w'').
Proof.
  eexists _, _. split; [vm_compute; reflexivity|].
  eapply (encryptAccount_idempotent secret1_account _ (env_world "k")).
  vm_compute; reflexivity.
Defined.

(** X13: the one record of a document removed twice. *)
Lemma removeAccount_twice_and_others_witness :
  exists w1,
    removeAccount "a-b-com" (stored_world [token_account]) = (Ok true, w1) /\
    removeAccount "a-b-com" w1 = (Ok false, w1) /\
    forall j, j <> "a-b-com" ->
      fst (getAccount j w1)
      = fst (getAccount j (stored_world [token_account])).
Proof.
  eexists. split; [vm_compute; reflexivity|].
  eapply (removeAccount_twice_and_others "a-b-com"
            (stored_world [token_account]) _ true).
  vm_compute; reflexivity.
Defined.

(** X14: an account added, listed and removed on the machine with
    nothing on it. *)
Lemma store_calls_keep_the_key_witness :
  let cs := [CallAddAccount secret1_account; CallGetAccounts;
             CallGetAccount "a-b-com"; CallRemoveAccount "a-b-com"] in
  let w := snd (getLocalMasterKey fresh_world) in
  fst (getLocalMasterKey (run_calls cs w)) = fst (getLocalMasterKey w) /\
  env_MCP_MASTER_KEY (run_calls cs w) = env_MCP_MASTER_KEY w /\
  (key_file w <> KeyFileAbsent -> key_file (run_calls cs w) = key_file w) /\
  (if_truthy (env_MCP_MASTER_KEY w) <> None ->
   key_file (run_calls cs w) = key_file w) /\
  random_tape (run_calls cs w) = random_tape w /\
  random_pos w <= random_pos (run_calls cs w).
Proof.
  exact (store_calls_keep_the_key
           [CallAddAccount secret1_account; CallGetAccounts;
            CallGetAccount "a-b-com"; CallRemoveAccount "a-b-com"]
           (snd (getLocalMasterKey fresh_world))).
Defined.

(** X15: two accounts added and one removed on the machine with nothing
    on it. *)
Lemma store_calls_keep_the_document_sound_witness :
  let cs := [CallAddAccount secret1_account;
             CallAddAccount (account "c-d-com" "c@d.com" (Some "pw") None);
             CallAddAccount secret2_account; CallGetAccounts;
             CallRemoveAccount "c-d-com"] in
  unique_ids (raw_document (run_calls cs fresh_world)) /\
  disk_invariant (run_calls cs fresh_world) = true.
Proof.
  exact (store_calls_keep_the_document_sound
           [CallAddAccount secret1_account;
            CallAddAccount (account "c-d-com" "c@d.com" (Some "pw") None);
            CallAddAccount secret2_account; CallGetAccounts;
            CallRemoveAccount "c-d-com"]
           fresh_world (NoDup_nil _) eq_refl).
Defined.

(** X16: the call [add_email_account email="user@gmail.com"
    password="pw"]. *)
Lemma execute_addAccount_then_getAccount_witness :
  exists a run w1 w2,
    execute_account gmail_args = Some a /\
    execute_addAccount gmail_args = Some run /\
    run (env_world "k") = (Ok tt, w1) /\
    getAccount "user-gmail-com" w1 = (Ok (Some a), w2) /\
    execute_provider gmail_args = DetectedProvider (provider a) /\
    email a = "user@gmail.com" /\
    password (auth a) = Some "pw".
Proof.
  assert (Ha : exists a, execute_account gmail_args = Some a)
    by (eexists; reflexivity).
  destruct Ha as [a Ha].
  destruct (execute_addAccount_then_getAccount (C := node) gmail_args
              (env_world "k") key_k a eq_refl eq_refl Ha)
    as (run & w1 & w2 & H).
  exists a, run, w1, w2. split; [exact Ha | exact H].
Defined.

(** X17: a removal that is not confirmed, and one that is. *)
Lemma remove_account_execute_cases_witness :
  remove_account_execute
    {| arg_account_id := "a-b-com"; arg_confirm := None |}
    (stored_world [token_account])
  = (Ok {| tool_success := false;
           tool_error :=
             Some "Deletion not confirmed. Set confirm=true to proceed.";
           tool_message := None |}, stored_world [token_account]) /\
  exists w',
    remove_account_execute
      {| arg_account_id := "a-b-com"; arg_confirm := Some true |}
      (stored_world [token_account])
    = (Ok {| tool_success := true;
             tool_error := None;
             tool_message := Some "Account removed: a@b.com" |}, w') /\
    accounts_file w' = AccountsDoc [].
Proof.
  split.
  - apply (proj1 (remove_account_execute_cases
                    {| arg_account_id := "a-b-com"; arg_confirm := None |}
                    (stored_world [token_account]))).
    discriminate.
  - exact (proj1 (proj2 (remove_account_execute_cases
                    {| arg_account_id := "a-b-com"; arg_confirm := Some true |}
                    (stored_world [token_account]))) eq_refl).
Defined.

(** X18: the list of a document of two records, one of which does not
    decrypt. *)
Lemma list_accounts_execute_summaries_witness :
  exists w',
    list_accounts_execute
      (stored_world [tampered_account;
                     account "c-d-com" "c@d.com" (Some "pw") None])
    = (Ok [ {| summary_id := "a-b-com"; summary_email := "a@b.com";
               summary_provider := custom; summary_enabled := true |};
            {| summary_id := "c-d-com"; summary_email := "c@d.com";
               summary_provider := custom; summary_enabled := true |} ], w') /\
    accounts_file w'
    = AccountsDoc [tampered_account;
                   account "c-d-com" "c@d.com" (Some "pw") None].
Proof.
  exact (list_accounts_execute_summaries
           (stored_world [tampered_account;
                          account "c-d-com" "c@d.com" (Some "pw") None])).
Defined.

(** X20: an address at [GMail.com], and one at [Constructor]. *)
Lemma detectProvider_by_domain_witness :
  (detectProvider "User" = DetectedProvider custom /\
   detectProvider "User@GMail.com" = DetectedProvider gmail /\
   detectProvider "User@gmail.com" = detectProvider "User@GMail.com") /\
  (detectProvider "User" = DetectedProvider custom /\
   detectProvider "User@Constructor" = DetectedInherited "constructor" /\
   detectProvider "User@constructor" = detectProvider "User@Constructor").
Proof.
  split.
  - exact (detectProvider_by_domain "User" "GMail.com" eq_refl eq_refl).
  - exact (detectProvider_by_domain "User" "Constructor" eq_refl eq_refl).
Defined.

End FurtherOnTestNode.
